(** * fx-processor: the equalizer transform and the batch rendering pipeline

    A shallow embedding of the JavaScript sources of the repository:

    - [socialfx/dsp_utils/original/equalizer.js]: the 40-band [Equalizer]
      with its [curve] and [range] setters (modules [EQ] and [EQ64]);
    - the WAV encoder [bufferToWave] of the processing pages (module [Wav]);
    - the data preparation scripts, the processing pages ([processBatch],
      [checkFileExists]) and the [/save] and [/check-file] endpoints of the
      servers (module [Pipeline]).

    The equalizer is embedded twice.  In module [EQ] JavaScript numbers
    are exact rationals ([Q]) together with an explicit [NaN], and
    comparisons of numbers are stated with [==] ([Qeq]); rounding,
    infinities and overflow are outside that model, and an [AudioParam]
    records whatever it is handed.  In module [EQ64] numbers are the
    binary64 floats of module [Float], with rounding to nearest, overflow
    to the infinities and [NaN], and an [AudioParam] raises a [TypeError]
    when it is handed a value that is not a finite float. *)

From Stdlib Require Import QArith Qminmax Qround Qpower Qreduction Lqa ZArith Lia
  String Ascii List.
From stdpp Require Import base list gmap strings.

Local Open Scope Q_scope.

(** ** JavaScript numbers *)

Inductive jsnum : Type :=
  | Num (q : Q)
  | NaN.

(** [a * b]; [NaN] is absorbing. *)
Definition jmul (a b : jsnum) : jsnum :=
  match a, b with
  | Num x, Num y => Num (x * y)
  | _, _ => NaN
  end.

(** [a[i]] taken as a number: an index past the end reads [undefined],
    whose numeric value is [NaN]. *)
Definition js_index (a : list Q) (i : nat) : jsnum :=
  match a !! i with
  | Some q => Num q
  | None => NaN
  end.

(** ** equalizer.js *)

Module EQ.

Record BiquadFilter : Type := mkFilter {
  ftype : string;
  frequency : Q;
  Qvalue : Q;
  gain : jsnum
}.

Record Equalizer : Type := mkEqualizer {
  normalize : bool;
  param_curve : list Q;
  param_range : Q;
  filters : list BiquadFilter
}.

(** The [opts] argument of the constructor: [opts.curve], [opts.range]. *)
Record Opts : Type := mkOpts {
  opt_curve : list Q;
  opt_range : option Q
}.

Definition freqs : list Q :=
  map inject_Z
    [20; 50; 83; 120; 161; 208; 259; 318; 383; 455; 537; 628; 729; 843; 971;
     1114; 1273; 1452; 1652; 1875; 2126; 2406; 2719; 3070; 3462; 3901; 4392;
     4941; 5556; 6244; 7014; 7875; 8839; 9917; 11124; 12474; 13984; 15675;
     17566; 19682]%Z.

(** The band indices of [for (i = 0; i < 40; i++)]. *)
Definition bands : list nat := seq 0 40.

(** [function Equalizer (context, opts)]: the range defaults to 1, and each
    filter's gain is assigned [this.param.curve[i]] as it is. *)
Definition new (opts : Opts) : Equalizer :=
  let curve := opt_curve opts in
  let range := match opt_range opts with Some r => r | None => 1 end in
  {| normalize := true;
     param_curve := curve;
     param_range := range;
     filters :=
       map (fun i => {| ftype := "peaking";
                        frequency := nth i freqs 0;
                        Qvalue := 431 # 100;
                        gain := js_index curve i |}) bands |}.

Definition set_gain (v : jsnum) (f : BiquadFilter) : BiquadFilter :=
  {| ftype := ftype f; frequency := frequency f; Qvalue := Qvalue f; gain := v |}.

(** [this.filters[i].gain.setValueAtTime(v, 0)].  The filter records the
    value it is handed, also when that value is [NaN] (where a browser
    raises a [TypeError] instead). *)
Definition setValueAtTime (this : Equalizer) (i : nat) (v : jsnum) : Equalizer :=
  {| normalize := normalize this;
     param_curve := param_curve this;
     param_range := param_range this;
     filters := alter (set_gain v) i (filters this) |}.

(** [this.param.curve.push(x)] *)
Definition push_curve (this : Equalizer) (x : Q) : Equalizer :=
  {| normalize := normalize this;
     param_curve := param_curve this ++ [x];
     param_range := param_range this;
     filters := filters this |}.

(** [this.param.curve = []] *)
Definition clear_curve (this : Equalizer) : Equalizer :=
  {| normalize := normalize this;
     param_curve := [];
     param_range := param_range this;
     filters := filters this |}.

(** [this.param.range = value] *)
Definition store_range (this : Equalizer) (value : Q) : Equalizer :=
  {| normalize := normalize this;
     param_curve := param_curve this;
     param_range := value;
     filters := filters this |}.

(** One round of the first loop of the setter; the state is
    [(max_el, min_el)].  [value[i]] is in range here: the loop runs after
    the length check. *)
Definition scan_step (value : list Q) (st : Q * Q) (i : nat) : Q * Q :=
  let '(max_el, min_el) := st in
  let v := nth i value 0 in
  let max_el := match v ?= max_el with Gt => v | _ => max_el end in
  let min_el := match v ?= min_el with Lt => v | _ => min_el end in
  (max_el, min_el).

Definition scan (value : list Q) : Q * Q :=
  fold_left (scan_step value) bands (0, 0).

Definition max_el (value : list Q) : Q := fst (scan value).
Definition min_el (value : list Q) : Q := snd (scan value).

(** One round of the second loop of the setter. *)
Definition band_step (value : list Q) (mx mn : Q) (this : Equalizer) (i : nat)
  : Equalizer :=
  let this :=
    if normalize this then
      let dat := nth i value 0 - mn in
      if negb (Qeq_bool mx mn) then
        let dat := dat / (mx - mn) * 2 in
        push_curve this (dat - 1)
      else this
    else push_curve this (nth i value 0) in
  setValueAtTime this i
    (jmul (Num (param_range this * 5)) (js_index (param_curve this) i)).

(** The [curve] setter.  The first component is what the setter returns:
    [Some (-1)] for [return -1], [None] when it runs to its end. *)
Definition set_curve (this : Equalizer) (value : list Q)
  : option Z * Equalizer :=
  if negb (length value =? 40)%nat then (Some (-1)%Z, this)
  else
    let this := clear_curve this in
    (None, fold_left (band_step value (max_el value) (min_el value)) bands this).

(** The [range] setter: [this.param.range = value; this.curve = this.param.curve]. *)
Definition set_range (this : Equalizer) (value : Q) : Equalizer :=
  let this := store_range this value in
  snd (set_curve this (param_curve this)).

(** The gains of the 40 filters, in band order. *)
Definition gains (this : Equalizer) : list jsnum := map gain (filters this).

(** The constructor yields 40 filters, with normalization switched on; the
    setters keep both. *)
Definition wf (this : Equalizer) : Prop :=
  normalize this = true /\ length (filters this) = 40%nat.

(** The value pushed for band [i] when the range is not degenerate. *)
Definition pushed (value : list Q) (mx mn : Q) (i : nat) : Q :=
  (nth i value 0 - mn) / (mx - mn) * 2 - 1.

(** [min(0, min(curve))] and [max(0, max(curve))], as the specification
    words the two bounds. *)
Definition spec_min_el (curve : list Q) : Q := fold_right Qmin 0 curve.
Definition spec_max_el (curve : list Q) : Q := fold_right Qmax 0 curve.

(** The normalization of the specification, for one value. *)
Definition normalized (value : list Q) (x : Q) : Q :=
  (x - min_el value) / (max_el value - min_el value) * 2 - 1.

(** The [cfreqs] getter: [cfreqs[i] = this.filters[i].frequency.value] for
    the 40 bands.  With fewer than 40 filters the code throws; the model
    reads 0 there. *)
Definition cfreqs (this : Equalizer) : list Q :=
  map (fun i => match filters this !! i with
                | Some f => frequency f
                | None => 0
                end) bands.

(** The stored curve is, band by band, the
    curve [n]. *)
Definition stores (this : Equalizer) (n : nat -> Q) : Prop :=
  wf this /\ length (param_curve this) = 40%nat /\
  forall i, (i < 40)%nat -> nth i (param_curve this) 0 == n i.

(** The range set to each value of [rs] in turn. *)
Definition set_ranges (this : Equalizer) (rs : list Q) : Equalizer :=
  fold_left set_range rs this.

End EQ.

(** ** [bufferToWave] of the processing pages *)

Module Wav.

(** An [AudioBuffer] as the encoder reads it: [abuffer.numberOfChannels],
    [abuffer.length] (frames per channel), [abuffer.sampleRate] and
    [abuffer.getChannelData(i)[j]].  The samples of a [Float32Array] are
    rationals, and their products with 0x8000 and 0x7FFF are exact in
    double precision. *)
Record AudioBuffer : Type := mkAudioBuffer {
  numberOfChannels : nat;
  frames : nat;
  sampleRate : Z;
  getChannelData : nat -> nat -> Q
}.

(** An [ArrayBuffer] is a list of bytes, each in [0, 255]; [new
    ArrayBuffer(n)] is zero-filled. *)
Definition ArrayBuffer (n : nat) : list Z := repeat 0%Z n.

(** The [DataView] setters, little-endian where the code passes [true].
    All offsets [bufferToWave] uses are inside the buffer, where the
    setters do not throw. *)
Definition setUint8 (view : list Z) (off : nat) (v : Z) : list Z :=
  <[off := (v mod 256)%Z]> view.

Definition setUint16 (view : list Z) (off : nat) (v : Z) : list Z :=
  let u := (v mod 65536)%Z in
  setUint8 (setUint8 view off u) (off + 1) (u / 256)%Z.

Definition setUint32 (view : list Z) (off : nat) (v : Z) : list Z :=
  let u := (v mod 4294967296)%Z in
  setUint8 (setUint8 (setUint8 (setUint8 view off u)
    (off + 1) (u / 256)%Z) (off + 2) (u / 65536)%Z) (off + 3) (u / 16777216)%Z.

(** The integer part of a number, rounding towards zero. *)
Definition trunc (x : Q) : Z :=
  if Qlt_le_dec x 0 then Qceiling x else Qfloor x.

(** [setInt16(off, x, true)]: [x] is truncated and taken modulo 2^16. *)
Definition setInt16 (view : list Z) (off : nat) (x : Q) : list Z :=
  setUint16 view off (trunc x).

(** [getInt16(off, true)]: the signed 16-bit value stored at [off]. *)
Definition getInt16 (view : list Z) (off : nat) : Z :=
  let u := (nth off view 0 + 256 * nth (off + 1) view 0)%Z in
  if (u <? 32768)%Z then u else (u - 65536)%Z.

Fixpoint writeString (view : list Z) (offset : nat) (s : string) : list Z :=
  match s with
  | EmptyString => view
  | String c rest =>
      writeString (setUint8 view offset (Z.of_nat (nat_of_ascii c)))
        (S offset) rest
  end.

(** [Math.max(-1, Math.min(1, x))] *)
Definition clamp (x : Q) : Q := Qmax (-1) (Qmin 1 x).

(** [sample < 0 ? sample * 0x8000 : sample * 0x7FFF] *)
Definition scale (sample : Q) : Q :=
  if Qlt_le_dec sample 0 then sample * 32768 else sample * 32767.

(** [offset + (j * numOfChan + i) * 2] with [offset = 44] *)
Definition index (numOfChan i j : nat) : nat := 44 + (j * numOfChan + i) * 2.

(** One round of the inner loop: frame [j] of channel [i]. *)
Definition frame_step (abuffer : AudioBuffer) (i : nat) (view : list Z) (j : nat)
  : list Z :=
  let sample := clamp (getChannelData abuffer i j) in
  setInt16 view (index (numberOfChannels abuffer) i j) (scale sample).

(** One round of the outer loop: channel [i]. *)
Definition channel_step (abuffer : AudioBuffer) (view : list Z) (i : nat)
  : list Z :=
  fold_left (frame_step abuffer i) (seq 0 (frames abuffer)) view.

Definition write_header (abuffer : AudioBuffer) (length : nat) (view : list Z)
  : list Z :=
  let numOfChan := Z.of_nat (numberOfChannels abuffer) in
  let view := writeString view 0 "RIFF" in
  let view := setUint32 view 4 (36 + Z.of_nat length) in
  let view := writeString view 8 "WAVE" in
  let view := writeString view 12 "fmt " in
  let view := setUint32 view 16 16 in
  let view := setUint16 view 20 1 in
  let view := setUint16 view 22 numOfChan in
  let view := setUint32 view 24 (sampleRate abuffer) in
  let view := setUint32 view 28 (sampleRate abuffer * 2 * numOfChan) in
  let view := setUint16 view 32 (numOfChan * 2) in
  let view := setUint16 view 34 16 in
  let view := writeString view 36 "data" in
  setUint32 view 40 (Z.of_nat length).

Definition bufferToWave (abuffer : AudioBuffer) : list Z :=
  let numOfChan := numberOfChannels abuffer in
  let length := (frames abuffer * numOfChan * 2)%nat in
  let buffer := ArrayBuffer (44 + length) in
  let view := write_header abuffer length buffer in
  fold_left (channel_step abuffer) (seq 0 (numberOfChannels abuffer)) view.

(** The 16-bit value [bufferToWave] stores for a sample [x]. *)
Definition pcm16 (x : Q) : Z := trunc (scale (clamp x)).

(** The [DataView] getters [getUint8(off)], [getUint16(off, true)] and
    [getUint32(off, true)], for offsets inside the buffer. *)
Definition getUint8 (view : list Z) (off : nat) : Z := nth off view 0%Z.

Definition getUint16 (view : list Z) (off : nat) : Z :=
  (nth off view 0 + 256 * nth (off + 1) view 0)%Z.

Definition getUint32 (view : list Z) (off : nat) : Z :=
  (nth off view 0 + 256 * nth (off + 1) view 0
   + 65536 * nth (off + 2) view 0 + 16777216 * nth (off + 3) view 0)%Z.

(** A byte: a number from 0 to 255. *)
Definition is_byte (b : Z) : Prop := (0 <= b < 256)%Z.

(** [string.charCodeAt(i)] for each [i], in order *)
Fixpoint charCodes (s : string) : list Z :=
  match s with
  | EmptyString => []
  | String c rest => Z.of_nat (nat_of_ascii c) :: charCodes rest
  end.

End Wav.

(** ** The data preparation scripts, the processing pages and the servers *)

Module Pipeline.

(** *** Strings and paths

    [split_on], [endsWith] and [last_elem] model the string and array
    methods of JavaScript; [basename], [basename_ext] and [join] model
    [path.basename] and [path.join] of Node for paths without a trailing
    slash, without empty, [.] or [..] segments. *)

(** [s.split(sep)] for a one-character separator *)
Fixpoint split_on (sep : ascii) (s : string) : list string :=
  match s with
  | EmptyString => [EmptyString]
  | String c rest =>
      if Ascii.eqb c sep then EmptyString :: split_on sep rest
      else match split_on sep rest with
           | h :: t => String c h :: t
           | [] => [String c EmptyString]
           end
  end.

(** [s.endsWith(suffix)] *)
Definition endsWith (s suffix : string) : bool :=
  (String.length suffix <=? String.length s)%nat &&
  String.eqb
    (substring (String.length s - String.length suffix) (String.length suffix) s)
    suffix.

(** [a.pop()] as a value, [undefined] never arises after [split] *)
Definition last_elem (a : list string) : string := List.last a ""%string.

(** [path.basename(p)] *)
Definition basename (p : string) : string := last_elem (split_on "/" p).

(** [path.basename(p, ext)]: the extension is removed from the last
    component unless it is the whole component; a path equal to the
    extension gives the empty string. *)
Definition basename_ext (p ext : string) : string :=
  if String.eqb p ext then ""
  else
    let b := basename p in
    if endsWith b ext && negb (String.eqb b ext)
    then substring 0 (String.length b - String.length ext) b
    else b.

(** [path.join(dir, file)] *)
Definition join (dir file : string) : string := dir +:+ "/" +:+ file.

(** No character of [s] is a slash: [s] can be the name of a directory
    entry. *)
Fixpoint no_slash (s : string) : bool :=
  match s with
  | EmptyString => true
  | String c rest => negb (Ascii.eqb c "/") && no_slash rest
  end.

(** No character of [s] is [c]. *)
Fixpoint lacks (c : ascii) (s : string) : bool :=
  match s with
  | EmptyString => true
  | String d rest => negb (Ascii.eqb d c) && lacks c rest
  end.

(** A character that a URL carries in its query as it is written, and
    that the server reads back as it is: an ASCII letter or digit, or one
    of [-], [_], [.], [~] and [/]. *)
Definition url_char (c : ascii) : bool :=
  let n := nat_of_ascii c in
  ((48 <=? n) && (n <=? 57))%nat || ((65 <=? n) && (n <=? 90))%nat
  || ((97 <=? n) && (n <=? 122))%nat
  || Ascii.eqb c "-" || Ascii.eqb c "_" || Ascii.eqb c "." || Ascii.eqb c "~"
  || Ascii.eqb c "/".

(** Every character of [s] is such a character: [s] can be written into
    a query without [encodeURIComponent]. *)
Fixpoint url_safe (s : string) : bool :=
  match s with
  | EmptyString => true
  | String c rest => url_char c && url_safe rest
  end.

(** [${x}] in a template literal, for an [x] that may be [undefined] *)
Definition interpolate (x : option string) : string :=
  match x with Some s => s | None => "undefined" end.

(** [path.basename(file, '.json').split('_')[1]] *)
Definition presetId (file : string) : option string :=
  split_on "_" (basename_ext file ".json") !! 1%nat.

(** *** Jobs *)

(** An entry of [processingData]: [audioFile], [reverbId] or [eqId],
    [reverbParams] or [eqParams], and [outputId]. *)
Record Job : Type := mkJob {
  audioFile : string;
  fxId : option string;
  fxParams : list Q;
  outputId : string
}.

(** The files of the machine, by path.  Directories are not represented:
    [mkdirSync] has no effect here. *)
Abbreviation Files := (gmap string string).

Definition existsSync (fs : Files) (p : string) : bool :=
  match fs !! p with Some _ => true | None => false end.

Section Scripts.

(** [JSON.parse(text).param_values] *)
Variable param_values : string -> list Q.

Definition readParams (fs : Files) (p : string) : list Q :=
  param_values (match fs !! p with Some text => text | None => "" end).

(** **** The reverb script: one audio file, every preset of [reverbDir].
    [listing] is what [fs.readdirSync(reverbDir)] returns. *)

Definition reverb_step (fs : Files) (audioFile reverbDir : string)
    (processingData : list Job) (reverbFile : string) : list Job :=
  let audioName := basename_ext audioFile ".wav" in
  let reverbId := presetId reverbFile in
  let reverbPath := join reverbDir reverbFile in
  processingData ++
  [ {| audioFile := "/audio/" +:+ basename audioFile;
       fxId := reverbId;
       fxParams := readParams fs reverbPath;
       outputId := "reverb_" +:+ interpolate reverbId +:+ "/" +:+ audioName |} ].

Definition prepare_reverb (fs : Files) (audioFile reverbDir : string)
    (listing : list string) : list Job :=
  let reverbFiles := List.filter (fun file => endsWith file ".json") listing in
  fold_left (reverb_step fs audioFile reverbDir) reverbFiles [].

(** **** The equalizer script: every audio file of [audioDir], every
    preset of [eqDir]; pairs whose output file exists are skipped.  The
    state of the loops is [(processingData, skippedFiles)]. *)

Definition eq_step (fs : Files) (eqDir outputDir audioFile : string)
    (st : list Job * list string) (eqFile : string) : list Job * list string :=
  let '(processingData, skippedFiles) := st in
  let audioName := basename_ext audioFile ".wav" in
  let eqId := presetId eqFile in
  let eqPath := join eqDir eqFile in
  let outputFilePath :=
    join outputDir ("eq_" +:+ interpolate eqId +:+ "/" +:+ audioName +:+ ".wav") in
  if existsSync fs outputFilePath then
    (processingData,
     skippedFiles ++ ["eq_" +:+ interpolate eqId +:+ "/" +:+ audioName +:+ ".wav"])
  else
    (processingData ++
     [ {| audioFile := "/audio/" +:+ basename audioFile;
          fxId := eqId;
          fxParams := readParams fs eqPath;
          outputId := "eq_" +:+ interpolate eqId +:+ "/" +:+ audioName |} ],
     skippedFiles).

Definition prepare_eq (fs : Files) (audioDir eqDir outputDir : string)
    (audioListing eqListing : list string) : list Job * list string :=
  let audioFiles :=
    map (fun file => join audioDir file)
      (List.filter (fun file => endsWith file ".wav") audioListing) in
  let eqFiles := List.filter (fun file => endsWith file ".json") eqListing in
  fold_left
    (fun st audioFile =>
       fold_left (eq_step fs eqDir outputDir audioFile) eqFiles st)
    audioFiles ([], []).

(** **** The job list as the specification words it: the product of the
    sources and the presets, in order, source by source. *)

Definition eq_outputId (eqFile audioFile : string) : string :=
  "eq_" +:+ interpolate (presetId eqFile) +:+ "/" +:+ basename_ext audioFile ".wav".

Definition reverb_outputId (reverbFile audioFile : string) : string :=
  "reverb_" +:+ interpolate (presetId reverbFile) +:+ "/"
  +:+ basename_ext audioFile ".wav".

Definition eq_job (fs : Files) (eqDir audioFile eqFile : string) : Job :=
  {| audioFile := "/audio/" +:+ basename audioFile;
     fxId := presetId eqFile;
     fxParams := readParams fs (join eqDir eqFile);
     outputId := eq_outputId eqFile audioFile |}.

Definition reverb_job (fs : Files) (reverbDir audioFile reverbFile : string) : Job :=
  {| audioFile := "/audio/" +:+ basename audioFile;
     fxId := presetId reverbFile;
     fxParams := readParams fs (join reverbDir reverbFile);
     outputId := reverb_outputId reverbFile audioFile |}.

(** The name under which the equalizer script looks for the output of a
    pair, relative to [outputDir]. *)
Definition eq_output_name (audioFile eqFile : string) : string :=
  "eq_" +:+ interpolate (presetId eqFile) +:+ "/"
  +:+ basename_ext audioFile ".wav" +:+ ".wav".

Definition eq_rendered (fs : Files) (outputDir audioFile eqFile : string) : bool :=
  existsSync fs (join outputDir (eq_output_name audioFile eqFile)).

Definition product {A : Type} (f : string -> string -> A)
    (sources presets : list string) : list A :=
  flat_map (fun source => map (f source) presets) sources.

End Scripts.

(** *** The servers *)

(** The state of a server: the files, and the globals [isComplete],
    [totalSaved] and [totalSkipped] of [server.js]. *)
Record Server : Type := mkServer {
  fsys : Files;
  isComplete : bool;
  totalSaved : nat;
  totalSkipped : nat
}.

(** [GET /check-file?id=...] of the reverb server; the response without an
    [exists] field (status 400) reads as [false] in the page. *)
Definition check_file (outputDir id : string) (srv : Server) : bool * Server :=
  if String.eqb id "" then (false, srv)
  else
    let filePath := join outputDir (id +:+ ".wav") in
    let exists_ := existsSync (fsys srv) filePath in
    (exists_,
     if exists_ then
       {| fsys := fsys srv; isComplete := isComplete srv;
          totalSaved := totalSaved srv; totalSkipped := S (totalSkipped srv) |}
     else srv).

(** [fs.copyFileSync(src, dst)] behind [if (fs.existsSync(src))] *)
Definition copy_if_exists (fs : Files) (src dst : string) : Files :=
  match fs !! src with
  | Some text => <[dst := text]> fs
  | None => fs
  end.

(** [POST /save] with body [{id, data}].  [fx] is ["reverb"] in the reverb
    server and ["eq"] in the equalizer server, [presetDir] is [reverbDir]
    or [eqDir].  The file stored is the decoded [data]; the decoding is not
    modelled and the file holds [data] itself. *)
Definition save (fx presetDir outputDir id data : string) (srv : Server) : Server :=
  if String.eqb id "" || String.eqb data "" then srv
  else
    let filePath := join outputDir (id +:+ ".wav") in
    let fs := <[filePath := data]> (fsys srv) in
    let presetId := last_elem (split_on "_" id) in
    let infoPath := join outputDir (id +:+ "_" +:+ fx +:+ "_info.json") in
    let sourcePath := join presetDir (fx +:+ "_" +:+ presetId +:+ ".json") in
    let fs := copy_if_exists fs sourcePath infoPath in
    {| fsys := fs; isComplete := isComplete srv;
       totalSaved := S (totalSaved srv); totalSkipped := totalSkipped srv |}.

(** [POST /complete] *)
Definition complete (srv : Server) : Server :=
  {| fsys := fsys srv; isComplete := true;
     totalSaved := totalSaved srv; totalSkipped := totalSkipped srv |}.

(** The exit code when the 30-minute timer fires: the process ends with
    code 1 unless [isComplete] is set. *)
Definition timeout_exit (srv : Server) : option Z :=
  if isComplete srv then None else Some 1%Z.

(** *** The processing pages *)

(** The globals of a page, with a record of what it did: the [outputId]s
    [processAudio] was called with, the number of [POST /complete]
    requests it sent, and the errors it wrote to the console. *)
Record Page : Type := mkPage {
  totalJobs : nat;
  completedJobs : nat;
  skippedJobs : nat;
  skippedFiles : list string;
  processAudioCalls : list string;
  completePosts : nat;
  consoleErrors : list string
}.

Definition initial_page : Page :=
  {| totalJobs := 0; completedJobs := 0; skippedJobs := 0; skippedFiles := [];
     processAudioCalls := []; completePosts := 0; consoleErrors := [] |}.

(** [totalJobs = batchData.length; completedJobs = 0; skippedJobs = 0;
    skippedFiles = []] *)
Definition start_batch (pg : Page) (n : nat) : Page :=
  {| totalJobs := n; completedJobs := 0; skippedJobs := 0; skippedFiles := [];
     processAudioCalls := processAudioCalls pg;
     completePosts := completePosts pg; consoleErrors := consoleErrors pg |}.

(** [skippedJobs++; skippedFiles.push(id)] *)
Definition skip (pg : Page) (id : string) : Page :=
  {| totalJobs := totalJobs pg; completedJobs := completedJobs pg;
     skippedJobs := S (skippedJobs pg); skippedFiles := skippedFiles pg ++ [id];
     processAudioCalls := processAudioCalls pg;
     completePosts := completePosts pg; consoleErrors := consoleErrors pg |}.

Definition called (pg : Page) (id : string) : Page :=
  {| totalJobs := totalJobs pg; completedJobs := completedJobs pg;
     skippedJobs := skippedJobs pg; skippedFiles := skippedFiles pg;
     processAudioCalls := processAudioCalls pg ++ [id];
     completePosts := completePosts pg; consoleErrors := consoleErrors pg |}.

(** [completedJobs++] *)
Definition completed (pg : Page) : Page :=
  {| totalJobs := totalJobs pg; completedJobs := S (completedJobs pg);
     skippedJobs := skippedJobs pg; skippedFiles := skippedFiles pg;
     processAudioCalls := processAudioCalls pg;
     completePosts := completePosts pg; consoleErrors := consoleErrors pg |}.

(** [fetch('/complete', { method: 'POST' })] *)
Definition post_complete (pg : Page) : Page :=
  {| totalJobs := totalJobs pg; completedJobs := completedJobs pg;
     skippedJobs := skippedJobs pg; skippedFiles := skippedFiles pg;
     processAudioCalls := processAudioCalls pg;
     completePosts := S (completePosts pg); consoleErrors := consoleErrors pg |}.

(** [console.error(msg, ...)] *)
Definition console_error (pg : Page) (msg : string) : Page :=
  {| totalJobs := totalJobs pg; completedJobs := completedJobs pg;
     skippedJobs := skippedJobs pg; skippedFiles := skippedFiles pg;
     processAudioCalls := processAudioCalls pg;
     completePosts := completePosts pg; consoleErrors := consoleErrors pg ++ [msg] |}.

(** The page after skipping the jobs [ids], one after the other. *)
Definition skip_all (pg : Page) (ids : list string) : Page :=
  fold_left skip ids pg.

(** [totalSkipped++] *)
Definition count_skipped (srv : Server) : Server :=
  {| fsys := fsys srv; isComplete := isComplete srv;
     totalSaved := totalSaved srv; totalSkipped := S (totalSkipped srv) |}.

(** The server after [n] requests to [/check-file] for files it has. *)
Fixpoint count_skipped_n (srv : Server) (n : nat) : Server :=
  match n with
  | O => srv
  | S n => count_skipped_n (count_skipped srv) n
  end.

(** [batchData.slice(i, j)] *)
Definition slice {A : Type} (l : list A) (i j : nat) : list A :=
  take (j - i) (drop i l).

Section Pages.

(** What lies outside the repository: [render job] is the outcome of
    fetching, decoding and rendering the job's audio ([Some data] with the
    encoded result, [None] when the promise rejects), and [probe_fails id]
    tells whether the request of [checkFileExists] for [id] throws. *)
Variable render : Job -> option string.
Variable probe_fails : string -> bool.

Variable outputDir : string.
Variable presetDir : string.

(** [checkFileExists(outputId)]: the [catch] logs the error and returns
    [false].  The id is written into the query as it is, and the server
    is taken to read the same id: it does for an id that is [url_safe]. *)
Definition checkFileExists (id : string) (pg : Page) (srv : Server)
  : bool * Page * Server :=
  if probe_fails id then
    (false, console_error pg "Error checking file existence:", srv)
  else
    let '(exists_, srv) := check_file outputDir id srv in
    (exists_, pg, srv).

(** The probe for [job] answers and finds the output of the job among the
    files [fs]. *)
Definition output_found (fs : Files) (job : Job) : Prop :=
  probe_fails (outputId job) = false /\
  outputId job <> ""%string /\
  existsSync fs (join outputDir (outputId job +:+ ".wav")) = true.

(** One round of [for (const job of batch)]; the state is
    [(jobsToProcess, page, server)]. *)
Definition check_step (st : list Job * Page * Server) (job : Job)
  : list Job * Page * Server :=
  let '(jobsToProcess, pg, srv) := st in
  let '(exists_, pg, srv) := checkFileExists (outputId job) pg srv in
  if exists_ then (jobsToProcess, skip pg (outputId job), srv)
  else (jobsToProcess ++ [job], pg, srv).

(** [processAudio(job...)] up to the resolution of its promise: a render
    that succeeds hands its result to [saveToServer] and increments
    [completedJobs]; the state is [(page, pending saves, no rejection)]. *)
Definition render_step (st : Page * list (string * string) * bool) (job : Job)
  : Page * list (string * string) * bool :=
  let '(pg, saves, ok) := st in
  let pg := called pg (outputId job) in
  match render job with
  | Some wavData => (completed pg, saves ++ [(outputId job, wavData)], ok)
  | None => (pg, saves, false)
  end.

(** The request of [saveToServer] reaches the server, and the page's
    callback posts [/complete] when [all_done] holds. *)
Definition save_step (fx : string) (all_done : Page -> bool)
    (st : Page * Server) (req : string * string) : Page * Server :=
  let '(pg, srv) := st in
  let srv := save fx presetDir outputDir (fst req) (snd req) srv in
  if all_done pg then (post_complete pg, complete srv) else (pg, srv).

(** [Promise.all(jobs.map(job => processAudio(...)))] of one wave, in the
    schedule where the renders of the wave settle before its save requests
    are answered.  The flag tells whether every promise resolved. *)
Definition run_wave (fx : string) (all_done : Page -> bool) (jobs : list Job)
    (pg : Page) (srv : Server) : Page * Server * bool :=
  let '(pg, saves, ok) := fold_left render_step jobs (pg, [], true) in
  let '(pg, srv) := fold_left (save_step fx all_done) saves (pg, srv) in
  (pg, srv, ok).

(** **** The reverb page *)

Definition reverb_done (pg : Page) : bool :=
  (totalJobs pg <=? completedJobs pg + skippedJobs pg)%nat.

(** The loop [for (let i = 0; i < batchData.length; i += batchSize)] from
    index [i] on, [batchSize = 5].  A rejected promise ends [processBatch]
    at its [await]: the flag of the result is [false] then. *)
Fixpoint reverb_waves (fuel i : nat) (batchData : list Job)
    (pg : Page) (srv : Server) : Page * Server * bool :=
  match fuel with
  | O => (pg, srv, true)
  | S fuel =>
      if (i <? length batchData)%nat then
        let batch := slice batchData i (i + 5) in
        let '(jobsToProcess, pg, srv) := fold_left check_step batch ([], pg, srv) in
        let '(pg, srv, ok) := run_wave "reverb" reverb_done jobsToProcess pg srv in
        if ok then reverb_waves fuel (i + 5) batchData pg srv
        else (pg, srv, false)
      else (pg, srv, true)
  end.

(** [processBatch(batchData)] of the reverb page.  The loop takes at most
    [batchData.length] rounds. *)
Definition processBatch_reverb (batchData : list Job) (pg : Page) (srv : Server)
  : Page * Server :=
  let pg := start_batch pg (length batchData) in
  let '(pg, srv, ok) := reverb_waves (length batchData) 0 batchData pg srv in
  if ok then
    if reverb_done pg then (post_complete pg, complete srv) else (pg, srv)
  else (pg, srv).

(** **** The equalizer page *)

Definition eq_done (pg : Page) : bool :=
  (totalJobs pg <=? completedJobs pg)%nat.

(** The loop of the equalizer page, [batchSize = 8]. *)
Fixpoint eq_waves (fuel i : nat) (batchData : list Job)
    (pg : Page) (srv : Server) : Page * Server * bool :=
  match fuel with
  | O => (pg, srv, true)
  | S fuel =>
      if (i <? length batchData)%nat then
        let batch := slice batchData i (i + 8) in
        let '(pg, srv, ok) := run_wave "eq" eq_done batch pg srv in
        if ok then eq_waves fuel (i + 8) batchData pg srv
        else (pg, srv, false)
      else (pg, srv, true)
  end.

(** [processBatch(batchData)] of the equalizer page: nothing follows the
    loop. *)
Definition processBatch_eq (batchData : list Job) (pg : Page) (srv : Server)
  : Page * Server :=
  let pg := start_batch pg (length batchData) in
  let '(pg, srv, _) := eq_waves (length batchData) 0 batchData pg srv in
  (pg, srv).

(** **** What a wave leaves behind *)

(** The save requests of a wave: one for each job whose render succeeds. *)
Definition rendered (jobs : list Job) : list (string * string) :=
  flat_map (fun job => match render job with
                       | Some wavData => [(outputId job, wavData)]
                       | None => []
                       end) jobs.

(** No render of the wave is rejected. *)
Definition all_rendered (jobs : list Job) : bool :=
  forallb (fun job => match render job with Some _ => true | None => false end) jobs.

(** The output of [job] is among the files [fs]. *)
Definition has_output (fs : Files) (job : Job) : bool :=
  existsSync fs (join outputDir (outputId job +:+ ".wav")).

End Pages.

End Pipeline.

(** ** IEEE 754 binary floating point

    The numbers of JavaScript are the binary64 floats, and the parameters
    of the audio engine are binary32 floats.  An operation on finite
    numbers gives the exact result rounded to the nearest float, ties to
    the even significand, and an infinity when the rounded result leaves
    the format.  The sign of zero is not represented: [-0] is [0]. *)

Module Float.

(** A format: [prec] bits of significand, [emin] the exponent of the
    smallest normal number, and [emax] such that [2 ^ emax] is the first
    power of two beyond the finite numbers. *)
Record format : Type := mkFormat { prec : Z; emin : Z; emax : Z }.

Definition binary64 : format := mkFormat 53 (-1022) 1024.
Definition binary32 : format := mkFormat 24 (-126) 128.

(** The integer part of the base-2 logarithm of a positive rational. *)
Definition ilog2 (a : Q) : Z :=
  let k := (Z.log2 (Qnum a) - Z.log2 (Zpos (Qden a)))%Z in
  if Qle_bool (2 ^ k) a then k else (k - 1)%Z.

(** The nearest integer, ties to even. *)
Definition rne (x : Q) : Z :=
  let f := Qfloor x in
  match Qcompare (x - inject_Z f) (1 # 2) with
  | Lt => f
  | Gt => (f + 1)%Z
  | Eq => if Z.even f then f else (f + 1)%Z
  end.

(** The unit in the last place of the floats of the binade of [a > 0];
    below [2 ^ emin] the floats are the subnormal ones, equally spaced. *)
Definition ulp (fmt : format) (a : Q) : Q :=
  2 ^ (Z.max (ilog2 a) (emin fmt) - (prec fmt - 1)).

(** The float nearest to [a > 0], had the format no largest exponent. *)
Definition nearest_pos (fmt : format) (a : Q) : Q :=
  inject_Z (rne (a / ulp fmt a)) * ulp fmt a.

Definition nearest (fmt : format) (q : Q) : Q :=
  match Qcompare q 0 with
  | Eq => 0
  | Gt => nearest_pos fmt q
  | Lt => - nearest_pos fmt (- q)
  end.

(** A number: finite, infinite or not a number. *)
Inductive number : Type :=
  | Fin (q : Q)
  | PInf
  | NInf
  | NaN.

(** The float for the exact result [q] of an operation: overflow gives an
    infinity.  Finite results are kept in lowest terms. *)
Definition round (fmt : format) (q : Q) : number :=
  let r := Qred (nearest fmt q) in
  if Qle_bool (2 ^ emax fmt) r then PInf
  else if Qle_bool r (- 2 ^ emax fmt) then NInf
  else Fin r.

(** *** The arithmetic of JavaScript numbers *)

Definition neg (x : number) : number :=
  match x with
  | Fin q => Fin (Qred (- q))
  | PInf => NInf
  | NInf => PInf
  | NaN => NaN
  end.

(** [x + y] *)
Definition add (x y : number) : number :=
  match x, y with
  | NaN, _ | _, NaN => NaN
  | PInf, NInf | NInf, PInf => NaN
  | PInf, _ | _, PInf => PInf
  | NInf, _ | _, NInf => NInf
  | Fin a, Fin b => round binary64 (a + b)
  end.

(** [x - y] *)
Definition sub (x y : number) : number :=
  match x, y with
  | NaN, _ | _, NaN => NaN
  | PInf, PInf | NInf, NInf => NaN
  | PInf, _ | _, NInf => PInf
  | NInf, _ | _, PInf => NInf
  | Fin a, Fin b => round binary64 (a - b)
  end.

(** The sign of a number that is not [NaN]; zero counts as positive. *)
Definition negative (x : number) : bool :=
  match x with
  | Fin q => negb (Qle_bool 0 q)
  | NInf => true
  | _ => false
  end.

Definition is_zero (x : number) : bool :=
  match x with
  | Fin q => Qeq_bool q 0
  | _ => false
  end.

Definition infinity (neg : bool) : number := if neg then NInf else PInf.

(** [x * y] *)
Definition mul (x y : number) : number :=
  match x, y with
  | NaN, _ | _, NaN => NaN
  | Fin a, Fin b => round binary64 (a * b)
  | _, _ =>
      if is_zero x || is_zero y then NaN
      else infinity (xorb (negative x) (negative y))
  end.

(** [x / y] *)
Definition div (x y : number) : number :=
  match x, y with
  | NaN, _ | _, NaN => NaN
  | Fin a, Fin b =>
      if Qeq_bool b 0 then
        if Qeq_bool a 0 then NaN else infinity (negative x)
      else round binary64 (a / b)
  | Fin _, _ => Fin 0
  | _, Fin _ => infinity (xorb (negative x) (negative y))
  | _, _ => NaN
  end.

(** [x > y], [x < y] and [x != y]; a comparison with [NaN] is false, and
    [NaN] differs from every number. *)
Definition gtb (x y : number) : bool :=
  match x, y with
  | NaN, _ | _, NaN => false
  | PInf, PInf | NInf, _ | _, PInf => false
  | PInf, _ | _, NInf => true
  | Fin a, Fin b => negb (Qle_bool a b)
  end.

Definition ltb (x y : number) : bool := gtb y x.

Definition neqb (x y : number) : bool :=
  match x, y with
  | NaN, _ | _, NaN => true
  | Fin a, Fin b => negb (Qeq_bool a b)
  | PInf, PInf | NInf, NInf => false
  | _, _ => true
  end.

Definition is_finite (x : number) : bool :=
  match x with Fin _ => true | _ => false end.

(** The conversion of a JavaScript number to the [float] of Web IDL, the
    type of the parameters of an [AudioParam]: a number that is not
    finite, or whose nearest binary32 float is not, is a [TypeError],
    here [None]. *)
Definition to_float (x : number) : option number :=
  match x with
  | Fin q =>
      match round binary32 q with
      | Fin g => Some (Fin g)
      | _ => None
      end
  | _ => None
  end.

End Float.

(** ** equalizer.js in double precision, with the exceptions of the engine

    The setters of [Equalizer] once more, on the numbers of [Float] and
    with the [TypeError] an [AudioParam] raises when it is handed a value
    that is not a finite float.  Of each filter only the gain is kept, the
    one parameter the setters touch. *)

Module EQ64.
Import Float.

Record Equalizer : Type := mkEqualizer {
  normalize : bool;
  param_curve : list number;
  param_range : number;
  gains : list number
}.

(** The state of a loop that an exception can leave. *)
Inductive run : Type :=
  | Go (this : Equalizer)
  | Stop (this : Equalizer).

(** How a call of the curve setter ends: it returns ([Some (-1)] for
    [return -1], [None] at the end of the body) or a [TypeError] leaves
    it.  [this] is the equalizer as the call leaves it. *)
Inductive outcome : Type :=
  | Returns (value : option Z) (this : Equalizer)
  | Throws (this : Equalizer).

(** How an assignment [eq.curve = v] or [eq.range = v] ends.  What the
    setter returns is discarded: the assignment completes, or the
    [TypeError] of the setter leaves it. *)
Inductive completion : Type :=
  | Completes (this : Equalizer)
  | TypeError (this : Equalizer).

Definition state (c : completion) : Equalizer :=
  match c with Completes this | TypeError this => this end.

Definition run_state (r : run) : Equalizer :=
  match r with Go this | Stop this => this end.

Definition bands : list nat := seq 0 40.

(** [a[i]] in arithmetic: [undefined] past the end, [NaN] as a number. *)
Definition element (a : list number) (i : nat) : number := nth i a NaN.

(** [this.param.curve.push(x)] *)
Definition push_curve (this : Equalizer) (x : number) : Equalizer :=
  {| normalize := normalize this;
     param_curve := param_curve this ++ [x];
     param_range := param_range this;
     gains := gains this |}.

(** [this.param.curve = []] *)
Definition clear_curve (this : Equalizer) : Equalizer :=
  {| normalize := normalize this;
     param_curve := [];
     param_range := param_range this;
     gains := gains this |}.

(** [this.param.range = value] *)
Definition store_range (this : Equalizer) (value : number) : Equalizer :=
  {| normalize := normalize this;
     param_curve := param_curve this;
     param_range := value;
     gains := gains this |}.

(** [this.filters[i].gain.setValueAtTime(v, 0)]: a [TypeError], here
    [None], when [this.filters[i]] is [undefined] or [v] does not convert
    to a [float]; the parameter keeps the float otherwise. *)
Definition setValueAtTime (this : Equalizer) (i : nat) (v : number)
  : option Equalizer :=
  if (i <? length (gains this))%nat then
    match to_float v with
    | Some g =>
        Some {| normalize := normalize this;
                param_curve := param_curve this;
                param_range := param_range this;
                gains := <[i := g]> (gains this) |}
    | None => None
    end
  else None.

(** One round of the first loop; the state is [(max_el, min_el)]. *)
Definition scan_step (value : list number) (st : number * number) (i : nat)
  : number * number :=
  let '(max_el, min_el) := st in
  let max_el := if gtb (element value i) max_el then element value i else max_el in
  let min_el := if ltb (element value i) min_el then element value i else min_el in
  (max_el, min_el).

Definition scan (value : list number) : number * number :=
  fold_left (scan_step value) bands (Fin 0, Fin 0).

Definition max_el (value : list number) : number := fst (scan value).
Definition min_el (value : list number) : number := snd (scan value).

(** [dat = value[i] - min_el; dat = dat / (max_el - min_el) * (2); dat - 1] *)
Definition normalized (mx mn v : number) : number :=
  sub (mul (div (sub v mn) (sub mx mn)) (Fin 2)) (Fin 1).

(** One round of the second loop. *)
Definition band_step (value : list number) (mx mn : number) (r : run) (i : nat)
  : run :=
  match r with
  | Stop _ => r
  | Go this =>
      let this :=
        if normalize this then
          if neqb mx mn then push_curve this (normalized mx mn (element value i))
          else this
        else push_curve this (element value i) in
      match
        setValueAtTime this i
          (mul (mul (param_range this) (Fin 5)) (element (param_curve this) i))
      with
      | Some this => Go this
      | None => Stop this
      end
  end.

(** The [curve] setter. *)
Definition set_curve (this : Equalizer) (value : list number) : outcome :=
  if negb (length value =? 40)%nat then Returns (Some (-1)%Z) this
  else
    match
      fold_left (band_step value (max_el value) (min_el value)) bands
        (Go (clear_curve this))
    with
    | Go this => Returns None this
    | Stop this => Throws this
    end.

(** [eq.curve = value] *)
Definition assign_curve (this : Equalizer) (value : list number) : completion :=
  match set_curve this value with
  | Returns _ this => Completes this
  | Throws this => TypeError this
  end.

(** The [range] setter, and [eq.range = value]:
    [this.param.range = value; this.curve = this.param.curve]. *)
Definition assign_range (this : Equalizer) (value : number) : completion :=
  let this := store_range this value in
  assign_curve this (param_curve this).

(** A finite number that is a float of binary64. *)
Definition is_double (x : number) : bool :=
  match x with
  | Fin q =>
      match round binary64 q with
      | Fin r => Qeq_bool r q
      | _ => false
      end
  | _ => false
  end.

(** A finite number from [lo] to [hi]. *)
Definition within (lo hi : Q) (x : number) : Prop :=
  match x with
  | Fin q => lo <= q /\ q <= hi
  | _ => False
  end.

End EQ64.

(** * Properties *)

(** ** The equalizer *)

Module EQFacts.
Import EQ.

Lemma compare_cases (a b : Q) :
  ((a ?= b) = Lt /\ a < b) \/ ((a ?= b) = Eq /\ a == b) \/ ((a ?= b) = Gt /\ b < a).
Proof.
  destruct (a ?= b) eqn:E.
  - right; left; split; [reflexivity | now apply Qeq_alt].
  - left; split; [reflexivity | now apply Qlt_alt].
  - right; right; split; [reflexivity | now apply Qgt_alt].
Qed.

(** The first loop, from any starting pair and over any list of indices:
    the pair only widens, it encloses every value visited, and each bound is
    the starting one or one of the values visited. *)
Lemma scan_fold_inv (value : list Q) (idx : list nat) (mx mn : Q) (r : Q * Q) :
  r = fold_left (scan_step value) idx (mx, mn) ->
  snd r <= mn /\ mx <= fst r /\
  (forall i, In i idx -> snd r <= nth i value 0 /\ nth i value 0 <= fst r) /\
  (fst r = mx \/ exists i, In i idx /\ fst r = nth i value 0) /\
  (snd r = mn \/ exists i, In i idx /\ snd r = nth i value 0).
Proof.
  revert mx mn r. induction idx as [|i idx IH]; intros mx mn r0 ->.
  - cbn. split; [apply Qle_refl|]. split; [apply Qle_refl|].
    split; [intros i []|]. split; now left.
  - set (v := nth i value 0).
    set (mx1 := match v ?= mx with Gt => v | _ => mx end).
    set (mn1 := match v ?= mn with Lt => v | _ => mn end).
    change (fold_left (scan_step value) (i :: idx) (mx, mn))
      with (fold_left (scan_step value) idx (mx1, mn1)).
    assert (Hmx : mx <= mx1 /\ v <= mx1 /\ (mx1 = mx \/ mx1 = v)).
    { unfold mx1. destruct (compare_cases v mx) as [[-> H]|[[-> H]|[-> H]]].
      - repeat split; [apply Qle_refl | now apply Qlt_le_weak | now left].
      - repeat split; [apply Qle_refl | rewrite H; apply Qle_refl | now left].
      - repeat split; [now apply Qlt_le_weak | apply Qle_refl | now right]. }
    assert (Hmn : mn1 <= mn /\ mn1 <= v /\ (mn1 = mn \/ mn1 = v)).
    { unfold mn1. destruct (compare_cases v mn) as [[-> H]|[[-> H]|[-> H]]].
      - repeat split; [now apply Qlt_le_weak | apply Qle_refl | now right].
      - repeat split; [apply Qle_refl | rewrite H; apply Qle_refl | now left].
      - repeat split; [apply Qle_refl | now apply Qlt_le_weak | now left]. }
    destruct Hmx as (Hmx1 & Hmx2 & Hmx3). destruct Hmn as (Hmn1 & Hmn2 & Hmn3).
    set (r := fold_left (scan_step value) idx (mx1, mn1)).
    destruct (IH mx1 mn1 r eq_refl) as (I1 & I2 & I3 & I4 & I5).
    split; [eapply Qle_trans; eassumption|].
    split; [eapply Qle_trans; eassumption|].
    split.
    { intros j [<-|Hj]; [|now apply I3].
      fold v. split; eapply Qle_trans; eassumption. }
    split.
    { destruct I4 as [E|(j & Hj & E)].
      - rewrite E. destruct Hmx3 as [->| ->]; [now left|].
        right. exists i. split; [now left | reflexivity].
      - right. exists j. split; [now right | exact E]. }
    { destruct I5 as [E|(j & Hj & E)].
      - rewrite E. destruct Hmn3 as [->| ->]; [now left|].
        right. exists i. split; [now left | reflexivity].
      - right. exists j. split; [now right | exact E]. }
Qed.

(** [min_el <= 0 <= max_el], both enclose the 40 values, and each is 0 or
    one of the 40 values. *)
Lemma scan_spec (value : list Q) :
  min_el value <= 0 /\ 0 <= max_el value /\
  (forall i, (i < 40)%nat ->
     min_el value <= nth i value 0 /\ nth i value 0 <= max_el value) /\
  (max_el value = 0 \/ exists i, (i < 40)%nat /\ max_el value = nth i value 0) /\
  (min_el value = 0 \/ exists i, (i < 40)%nat /\ min_el value = nth i value 0).
Proof.
  assert (Hin : forall i, In i bands <-> (i < 40)%nat).
  { intros i. unfold bands. rewrite in_seq. lia. }
  unfold max_el, min_el, scan.
  destruct (scan_fold_inv value bands 0 0 _ eq_refl)
    as (H1 & H2 & H3 & H4 & H5).
  split; [exact H1|]. split; [exact H2|]. split.
  { intros i Hi. now apply H3, Hin. }
  split.
  - destruct H4 as [E|(i & Hi & E)]; [now left|].
    right. exists i. split; [now apply Hin | exact E].
  - destruct H5 as [E|(i & Hi & E)]; [now left|].
    right. exists i. split; [now apply Hin | exact E].
Qed.

(** The second loop over the first [n] bands, range not degenerate: the
    values pushed, and the gains handed to the first [n] filters. *)
Lemma band_fold_nondeg (value : list Q) (mx mn : Q) (this : Equalizer) (n : nat) :
  normalize this = true ->
  param_curve this = [] ->
  Qeq_bool mx mn = false ->
  forall r, r = fold_left (band_step value mx mn) (seq 0 n) this ->
  normalize r = true /\
  param_range r = param_range this /\
  param_curve r = map (pushed value mx mn) (seq 0 n) /\
  length (filters r) = length (filters this) /\
  (forall i, (i < n)%nat -> (i < length (filters this))%nat ->
     gain <$> filters r !! i
     = Some (Num (param_range this * 5 * pushed value mx mn i))) /\
  (forall i, (n <= i)%nat -> filters r !! i = filters this !! i).
Proof.
  intros Hnorm Hcurve Hne. induction n as [|n IH]; intros r ->.
  - cbn. rewrite Hcurve. repeat split; try reflexivity; try assumption.
    intros i Hi. lia.
  - rewrite seq_S, fold_left_app. cbn [fold_left Nat.add].
    destruct (IH _ eq_refl) as (I1 & I2 & I3 & I4 & I5 & I6).
    set (r := fold_left (band_step value mx mn) (seq 0 n) this) in *.
    unfold band_step. rewrite I1, Hne. cbn [negb].
    fold (pushed value mx mn n).
    cbn [setValueAtTime push_curve normalize param_range param_curve filters].
    assert (Hidx : js_index (param_curve r ++ [pushed value mx mn n]) n
                   = Num (pushed value mx mn n)).
    { unfold js_index. rewrite I3.
      rewrite list_lookup_middle; [reflexivity|].
      now rewrite length_map, length_seq. }
    rewrite Hidx. cbn [jmul].
    split; [exact I1|]. split; [exact I2|]. split.
    { rewrite I3, map_app. reflexivity. }
    split; [now rewrite length_alter|]. split.
    + intros i Hi Hlen. destruct (decide (i = n)) as [->|Hin].
      * rewrite list_lookup_alter_eq.
        destruct (lookup_lt_is_Some_2 (filters r) n) as [f Hf]; [lia|].
        rewrite Hf. cbn. now rewrite I2.
      * rewrite list_lookup_alter_ne by congruence. apply I5; [lia | exact Hlen].
    + intros i Hi. rewrite list_lookup_alter_ne by lia. apply I6. lia.
Qed.

(** The second loop over the first [n] bands when [max_el == min_el]:
    nothing is pushed, and each filter is handed
    [range * 5 * undefined], which is [NaN]. *)
Lemma band_fold_deg (value : list Q) (mx mn : Q) (this : Equalizer) (n : nat) :
  normalize this = true ->
  param_curve this = [] ->
  Qeq_bool mx mn = true ->
  forall r, r = fold_left (band_step value mx mn) (seq 0 n) this ->
  normalize r = true /\
  param_range r = param_range this /\
  param_curve r = [] /\
  length (filters r) = length (filters this) /\
  (forall i, (i < n)%nat -> (i < length (filters this))%nat ->
     gain <$> filters r !! i = Some NaN) /\
  (forall i, (n <= i)%nat -> filters r !! i = filters this !! i).
Proof.
  intros Hnorm Hcurve He. induction n as [|n IH]; intros r ->.
  - cbn. repeat split; try reflexivity; try assumption.
    intros i Hi. lia.
  - rewrite seq_S, fold_left_app. cbn [fold_left Nat.add].
    destruct (IH _ eq_refl) as (I1 & I2 & I3 & I4 & I5 & I6).
    set (r := fold_left (band_step value mx mn) (seq 0 n) this) in *.
    unfold band_step. rewrite I1, He. cbn [negb].
    cbn [setValueAtTime normalize param_range param_curve filters].
    rewrite I3. unfold js_index. cbn [lookup list_lookup jmul].
    split; [exact I1|]. split; [exact I2|]. split; [reflexivity|].
    split; [now rewrite length_alter|]. split.
    + intros i Hi Hlen. destruct (decide (i = n)) as [->|Hin].
      * rewrite list_lookup_alter_eq.
        destruct (lookup_lt_is_Some_2 (filters r) n) as [f Hf]; [lia|].
        rewrite Hf. reflexivity.
      * rewrite list_lookup_alter_ne by congruence. apply I5; [lia | exact Hlen].
    + intros i Hi. rewrite list_lookup_alter_ne by lia. apply I6. lia.
Qed.

Lemma spec_min_el_inv (curve : list Q) :
  spec_min_el curve <= 0 /\
  (forall x, In x curve -> spec_min_el curve <= x) /\
  (spec_min_el curve == 0 \/ exists x, In x curve /\ spec_min_el curve == x).
Proof.
  unfold spec_min_el. induction curve as [|a l (I1 & I2 & I3)]; cbn [fold_right].
  - split; [apply Qle_refl|]. split; [intros x []|]. left. reflexivity.
  - set (m := fold_right Qmin 0 l) in *.
    pose proof (Q.le_min_l a m) as Hl. pose proof (Q.le_min_r a m) as Hr.
    split; [eapply Qle_trans; eassumption|]. split.
    + intros x [<-|Hx]; [exact Hl|]. eapply Qle_trans; [exact Hr | now apply I2].
    + destruct (Q.min_spec a m) as [[_ E]|[_ E]].
      * right. exists a. split; [now left | exact E].
      * destruct I3 as [E0|(x & Hx & Ex)].
        -- left. now rewrite E.
        -- right. exists x. split; [now right | now rewrite E].
Qed.

Lemma spec_max_el_inv (curve : list Q) :
  0 <= spec_max_el curve /\
  (forall x, In x curve -> x <= spec_max_el curve) /\
  (spec_max_el curve == 0 \/ exists x, In x curve /\ spec_max_el curve == x).
Proof.
  unfold spec_max_el. induction curve as [|a l (I1 & I2 & I3)]; cbn [fold_right].
  - split; [apply Qle_refl|]. split; [intros x []|]. left. reflexivity.
  - set (m := fold_right Qmax 0 l) in *.
    pose proof (Q.le_max_l a m) as Hl. pose proof (Q.le_max_r a m) as Hr.
    split; [eapply Qle_trans; eassumption|]. split.
    + intros x [<-|Hx]; [exact Hl|]. eapply Qle_trans; [now apply I2 | exact Hr].
    + destruct (Q.max_spec a m) as [[_ E]|[_ E]].
      * destruct I3 as [E0|(x & Hx & Ex)].
        -- left. now rewrite E.
        -- right. exists x. split; [now right | now rewrite E].
      * right. exists a. split; [now left | exact E].
Qed.

(** The bounds the first loop computes are the bounds of the specification. *)
Lemma scan_refines_spec (value : list Q) :
  length value = 40%nat ->
  min_el value == spec_min_el value /\ max_el value == spec_max_el value.
Proof.
  intros Hlen.
  destruct (scan_spec value) as (A1 & A2 & A3 & A4 & A5).
  destruct (spec_min_el_inv value) as (B1 & B2 & B3).
  destruct (spec_max_el_inv value) as (C1 & C2 & C3).
  assert (Hnth : forall i, (i < 40)%nat -> In (nth i value 0) value).
  { intros i Hi. apply nth_In. lia. }
  assert (Hin : forall x, In x value -> exists i, (i < 40)%nat /\ nth i value 0 = x).
  { intros x Hx. destruct (In_nth value x 0 Hx) as (i & Hi & E).
    exists i. split; [lia | exact E]. }
  split; apply Qle_antisym.
  - destruct B3 as [E|(x & Hx & E)]; rewrite E; [exact A1|].
    destruct (Hin x Hx) as (i & Hi & <-). now apply A3.
  - destruct A5 as [E|(i & Hi & E)]; rewrite E; [exact B1|].
    now apply B2, Hnth.
  - destruct A4 as [E|(i & Hi & E)]; rewrite E; [exact C1|].
    now apply C2, Hnth.
  - destruct C3 as [E|(x & Hx & E)]; rewrite E; [exact A2|].
    destruct (Hin x Hx) as (i & Hi & <-). now apply A3.
Qed.

(** A value between the two bounds of a range that is not degenerate is
    normalized into [[-1, 1]]. *)
Lemma normalize_bounds (x mx mn : Q) :
  mn <= x -> x <= mx -> ~ mx == mn ->
  -1 <= (x - mn) / (mx - mn) * 2 - 1 /\ (x - mn) / (mx - mn) * 2 - 1 <= 1.
Proof.
  intros H1 H2 Hne.
  assert (Hd : 0 < mx - mn).
  { destruct (Qlt_le_dec mn mx) as [H|H]; [lra|].
    exfalso. apply Hne. apply Qle_antisym; [exact H | lra]. }
  assert (Hlo : 0 <= (x - mn) / (mx - mn)).
  { apply Qle_shift_div_l; [exact Hd | lra]. }
  assert (Hhi : (x - mn) / (mx - mn) <= 1).
  { apply Qle_shift_div_r; [exact Hd | lra]. }
  split; lra.
Qed.

Lemma Qeq_bool_false_iff (a b : Q) : Qeq_bool a b = false <-> ~ a == b.
Proof.
  split.
  - apply Qeq_bool_neq.
  - intros H. destruct (Qeq_bool a b) eqn:E; [|reflexivity].
    exfalso. apply H. now apply Qeq_bool_eq.
Qed.

Lemma new_wf (opts : Opts) : wf (new opts).
Proof. split; reflexivity. Qed.

(** Both setters keep the filters and the normalization switch. *)
Lemma band_step_wf (value : list Q) (mx mn : Q) (this : Equalizer) (i : nat) :
  normalize (band_step value mx mn this i) = normalize this /\
  length (filters (band_step value mx mn this i)) = length (filters this).
Proof.
  unfold band_step.
  destruct (normalize this) eqn:En; [destruct (negb (Qeq_bool mx mn))|];
    cbn [setValueAtTime push_curve normalize filters];
    rewrite ?length_alter, ?En; split; reflexivity.
Qed.

Lemma band_fold_wf (value : list Q) (mx mn : Q) (idx : list nat) (this : Equalizer) :
  wf this -> wf (fold_left (band_step value mx mn) idx this).
Proof.
  revert this. induction idx as [|i idx IH]; intros this H; cbn [fold_left].
  - exact H.
  - apply IH. destruct H as [Hn Hf].
    destruct (band_step_wf value mx mn this i) as [E1 E2].
    split; [now rewrite E1 | now rewrite E2].
Qed.

Lemma set_curve_wf (this : Equalizer) (value : list Q) :
  wf this -> wf (snd (set_curve this value)).
Proof.
  intros H. unfold set_curve.
  destruct (negb (length value =? 40)%nat); cbn [snd]; [exact H|].
  apply band_fold_wf. exact H.
Qed.

Lemma set_range_wf (this : Equalizer) (value : Q) :
  wf this -> wf (set_range this value).
Proof. intros H. unfold set_range. apply set_curve_wf. exact H. Qed.

(** The constructor hands band [i] the raw [curve[i]]. *)
Lemma new_gain (opts : Opts) (i : nat) (x : Q) :
  (i < 40)%nat -> opt_curve opts !! i = Some x ->
  gains (new opts) !! i = Some (Num x).
Proof.
  intros Hi Hx. unfold gains, new. cbn [filters].
  rewrite map_map. cbn [gain].
  change (map (fun j => js_index (opt_curve opts) j) bands !! i = Some (Num x)).
  rewrite list_lookup_fmap. unfold bands.
  rewrite lookup_seq_lt by exact Hi. cbn. unfold js_index. now rewrite Hx.
Qed.

Lemma set_curve_eq (this : Equalizer) (value : list Q) :
  length value = 40%nat ->
  set_curve this value
  = (None, fold_left (band_step value (max_el value) (min_el value)) (seq 0 40)
             (clear_curve this)).
Proof. intros H. unfold set_curve. rewrite H. reflexivity. Qed.

Lemma clear_curve_range (this : Equalizer) :
  param_range (clear_curve this) = param_range this.
Proof. reflexivity. Qed.

Lemma clear_curve_filters (this : Equalizer) :
  filters (clear_curve this) = filters this.
Proof. reflexivity. Qed.

(** The setter on a curve of 40 values whose range is not degenerate. *)
Lemma set_curve_nondeg (this : Equalizer) (value : list Q) :
  wf this -> length value = 40%nat -> ~ max_el value == min_el value ->
  forall r, r = snd (set_curve this value) ->
  fst (set_curve this value) = None /\
  wf r /\
  param_range r = param_range this /\
  param_curve r = map (pushed value (max_el value) (min_el value)) bands /\
  (forall i, (i < 40)%nat ->
     gains r !! i
     = Some (Num (param_range this * 5
                  * pushed value (max_el value) (min_el value) i))).
Proof.
  intros [Hn Hf] Hlen Hne r ->. rewrite (set_curve_eq _ _ Hlen). unfold bands.
  apply Qeq_bool_false_iff in Hne.
  pose proof (band_fold_nondeg value (max_el value) (min_el value)
                (clear_curve this) 40 Hn eq_refl Hne _ eq_refl) as H.
  rewrite clear_curve_range, clear_curve_filters in H. revert H.
  generalize (fold_left (band_step value (max_el value) (min_el value))
                (seq 0 40) (clear_curve this)).
  intros r H.
  destruct H as (I1 & I2 & I3 & I4 & I5 & _).
  cbn [fst snd].
  split; [reflexivity|]. split; [split; [exact I1 | now rewrite I4]|].
  split; [exact I2|]. split; [exact I3|].
  intros i Hi. unfold gains. rewrite list_lookup_fmap. apply I5; lia.
Qed.

(** The setter on a curve of 40 values whose range is degenerate: the
    stored curve is left empty and every filter is handed [NaN]. *)
Lemma set_curve_deg (this : Equalizer) (value : list Q) :
  wf this -> length value = 40%nat -> max_el value == min_el value ->
  forall r, r = snd (set_curve this value) ->
  param_curve r = [] /\
  (forall i, (i < 40)%nat -> gains r !! i = Some NaN).
Proof.
  intros [Hn Hf] Hlen He r ->. rewrite (set_curve_eq _ _ Hlen).
  apply Qeq_bool_iff in He.
  pose proof (band_fold_deg value (max_el value) (min_el value)
                (clear_curve this) 40 Hn eq_refl He _ eq_refl) as H.
  rewrite clear_curve_range, clear_curve_filters in H. revert H.
  generalize (fold_left (band_step value (max_el value) (min_el value))
                (seq 0 40) (clear_curve this)).
  intros r H.
  destruct H as (I1 & I2 & I3 & I4 & I5 & _).
  cbn [fst snd].
  split; [exact I3|].
  intros i Hi. unfold gains. rewrite list_lookup_fmap. apply I5; lia.
Qed.

(** The range is degenerate exactly for the curve of 40 zeros. *)
Lemma degenerate_iff_zero (value : list Q) :
  length value = 40%nat ->
  (max_el value == min_el value <-> Forall (Qeq 0) value).
Proof.
  intros Hlen.
  destruct (scan_spec value) as (A1 & A2 & A3 & A4 & A5).
  split.
  - intros E. apply List.Forall_forall. intros x Hx.
    destruct (In_nth value x 0 Hx) as (i & Hi & <-).
    destruct (A3 i) as [L U]; [lia|]. lra.
  - intros Hall.
    assert (Hz : forall i, (i < 40)%nat -> nth i value 0 == 0).
    { intros i Hi. symmetry.
      apply (proj1 (List.Forall_forall (Qeq 0) value) Hall).
      apply nth_In. lia. }
    assert (Emx : max_el value == 0).
    { destruct A4 as [->|(i & Hi & ->)]; [reflexivity | now apply Hz]. }
    assert (Emn : min_el value == 0).
    { destruct A5 as [->|(i & Hi & ->)]; [reflexivity | now apply Hz]. }
    now rewrite Emx, Emn.
Qed.

(** The stored curve after the setter, band by band. *)
Lemma set_curve_stored (this : Equalizer) (value : list Q) (i : nat) (x : Q) :
  wf this -> length value = 40%nat -> ~ max_el value == min_el value ->
  value !! i = Some x ->
  param_curve (snd (set_curve this value)) !! i = Some (normalized value x) /\
  gains (snd (set_curve this value)) !! i
  = Some (Num (param_range this * 5 * normalized value x)).
Proof.
  intros Hwf Hlen Hne Hx.
  assert (Hi : (i < 40)%nat).
  { rewrite <- Hlen. eapply lookup_lt_Some. exact Hx. }
  destruct (set_curve_nondeg this value Hwf Hlen Hne _ eq_refl)
    as (_ & _ & _ & Hc & Hg).
  assert (Hp : pushed value (max_el value) (min_el value) i = normalized value x).
  { unfold pushed, normalized. now rewrite (nth_lookup_Some _ _ 0 _ Hx). }
  split.
  - rewrite Hc, list_lookup_fmap. unfold bands.
    rewrite lookup_seq_lt by exact Hi. cbn [fmap option_fmap option_map Nat.add].
    now rewrite Hp.
  - rewrite (Hg i Hi). now rewrite Hp.
Qed.

(** The two bounds of a curve of 40 equal values [v]. *)
Lemma scan_repeat (v : Q) :
  (0 < v -> max_el (repeat v 40) = v /\ min_el (repeat v 40) = 0) /\
  (v < 0 -> max_el (repeat v 40) = 0 /\ min_el (repeat v 40) = v).
Proof.
  destruct (scan_spec (repeat v 40)) as (A1 & A2 & A3 & A4 & A5).
  assert (Hn : forall i, (i < 40)%nat -> nth i (repeat v 40) 0 = v).
  { intros i Hi. now apply nth_repeat_lt. }
  destruct (A3 0%nat ltac:(lia)) as [L U]. rewrite Hn in L, U by lia.
  split; intros Hv; split.
  - destruct A4 as [E|(i & Hi & E)]; [rewrite E in U; lra|].
    now rewrite E, Hn.
  - destruct A5 as [E|(i & Hi & E)]; [exact E|].
    rewrite E, Hn in A1 by exact Hi. lra.
  - destruct A4 as [E|(i & Hi & E)]; [exact E|].
    rewrite E, Hn in A2 by exact Hi. lra.
  - destruct A5 as [E|(i & Hi & E)]; [rewrite E in L; lra|].
    now rewrite E, Hn.
Qed.




(** The degenerate case in the code: for the curve of 40 zeros the stored
    curve stays empty and every filter is handed NaN. *)
Lemma degenerate_gain_is_NaN (this : Equalizer) (value : list Q) (i : nat) :
  wf this -> length value = 40%nat -> max_el value == min_el value ->
  (i < 40)%nat ->
  param_curve (snd (set_curve this value)) = [] /\
  gains (snd (set_curve this value)) !! i = Some NaN.
Proof.
  intros Hwf Hlen He Hi.
  destruct (set_curve_deg this value Hwf Hlen He _ eq_refl) as [Hc Hg].
  split; [exact Hc | now apply Hg].
Qed.

(** C2 — at construction the gain of a band is the raw [curve[i]]: for the
    curve of 40 ones and no range (so range 1), band 0 gets 1 dB, whereas
    [range * 5 * normalized] is 5 dB. *)
Theorem constructor_gain_is_raw_curve :
  let curve := repeat 1 40 in
  let this := new (mkOpts curve None) in
  gains this !! 0%nat = Some (Num 1) /\
  param_curve this !! 0%nat = Some 1 /\
  param_range this = 1 /\
  normalized curve 1 == 1 /\
  ~ 1 == param_range this * 5 * normalized curve 1.
Proof.
  cbv zeta. split; [reflexivity|]. split; [reflexivity|]. split; [reflexivity|].
  split; [vm_compute; reflexivity|].
  intros E. vm_compute in E. discriminate E.
Qed.

(** C3 — the range setter assigns the stored, already normalized curve to
    the curve setter, which normalizes it again.  For the curve
    [1, 2, ..., 2]: set the curve, then range 3, then range 2, and band 0
    ends with the stored value -1 and the gain -10 dB; set the same curve on
    an equalizer built with range 2, and band 0 has the stored value 0 and
    the gain 0 dB. *)
Theorem range_reset_drifts :
  let curve := 1 :: repeat 2 39 in
  let replayed :=
    set_range (set_range (snd (set_curve (new (mkOpts curve None)) curve)) 3) 2 in
  let fresh := snd (set_curve (new (mkOpts curve (Some 2))) curve) in
  (exists c g, param_curve replayed !! 0%nat = Some c /\ c == -1 /\
               gains replayed !! 0%nat = Some (Num g) /\ g == -10) /\
  (exists c g, param_curve fresh !! 0%nat = Some c /\ c == 0 /\
               gains fresh !! 0%nat = Some (Num g) /\ g == 0).
Proof.
  cbv zeta. split.
  - eexists; eexists. split; [vm_compute; reflexivity|].
    split; [reflexivity|]. split; [vm_compute; reflexivity|]. reflexivity.
  - eexists; eexists. split; [vm_compute; reflexivity|].
    split; [reflexivity|]. split; [vm_compute; reflexivity|]. reflexivity.
Qed.

End EQFacts.

(** ** Rounding to the nearest float *)

Module FloatFacts.
Import Float.

Lemma two_pow_pos (z : Z) : 0 < 2 ^ z.
Proof. apply Qpower_0_lt. reflexivity. Qed.

Lemma two_pow_mono (x y : Z) : (x <= y)%Z -> 2 ^ x <= 2 ^ y.
Proof. intros H. apply Qpower_le_compat_l; [exact H | discriminate]. Qed.

Lemma two_pow_succ (z : Z) : 2 ^ (z + 1) == 2 * 2 ^ z.
Proof. rewrite Qpower_plus by discriminate. cbn. ring. Qed.

Lemma two_pow_Z (z : Z) : (0 <= z)%Z -> inject_Z (2 ^ z) == 2 ^ z.
Proof. intros H. now rewrite Zpower_Qpower. Qed.

(** *** The logarithm *)

Lemma ilog2_spec (a : Q) :
  0 < a -> 2 ^ ilog2 a <= a /\ a < 2 ^ (ilog2 a + 1).
Proof.
  intros Ha. destruct a as [n d]. unfold ilog2. cbn [Qnum Qden].
  assert (Hn : (0 < n)%Z).
  { unfold Qlt in Ha. cbn in Ha. lia. }
  destruct (Z.log2_spec n Hn) as [N1 N2].
  destruct (Z.log2_spec (Zpos d) (Pos2Z.is_pos d)) as [D1 D2].
  pose proof (Z.log2_nonneg n) as Ln.
  pose proof (Z.log2_nonneg (Zpos d)) as Ld.
  set (ln := Z.log2 n) in *. set (ld := Z.log2 (Zpos d)) in *.
  assert (E : n # d == inject_Z n / inject_Z (Zpos d)) by apply Qmake_Qdiv.
  assert (Dpos : 0 < inject_Z (Zpos d)) by reflexivity.
  assert (Q1 : 2 ^ ln <= inject_Z n).
  { rewrite <- two_pow_Z by exact Ln. rewrite <- Zle_Qle. exact N1. }
  assert (Q2 : inject_Z n < 2 * 2 ^ ln).
  { rewrite <- two_pow_succ, <- two_pow_Z by lia. rewrite <- Zlt_Qlt.
    unfold Z.succ in N2. exact N2. }
  assert (Q3 : 2 ^ ld <= inject_Z (Zpos d)).
  { rewrite <- two_pow_Z by exact Ld. rewrite <- Zle_Qle. exact D1. }
  assert (Q4 : inject_Z (Zpos d) < 2 * 2 ^ ld).
  { rewrite <- two_pow_succ, <- two_pow_Z by lia. rewrite <- Zlt_Qlt.
    unfold Z.succ in D2. exact D2. }
  assert (K : 2 ^ (ln - ld) * 2 ^ ld == 2 ^ ln).
  { rewrite <- Qpower_plus by discriminate. now replace (ln - ld + ld)%Z with ln by lia. }
  pose proof (two_pow_pos ln) as Pn. pose proof (two_pow_pos ld) as Pd.
  pose proof (two_pow_pos (ln - ld)) as Pk.
  assert (A : (n # d) * inject_Z (Zpos d) == inject_Z n).
  { rewrite E. field. intros X. rewrite X in Dpos. discriminate. }
  revert A Dpos Q1 Q2 Q3 Q4 K Pn Pd Pk.
  generalize (inject_Z n) (inject_Z (Zpos d)) (2 ^ ln) (2 ^ ld).
  intros N D P P' A Dpos Q1 Q2 Q3 Q4 K Pn Pd Pk.
  destruct (Qle_bool (2 ^ (ln - ld)) (n # d)) eqn:B.
  - apply Qle_bool_iff in B. split; [exact B|].
    rewrite two_pow_succ. revert A K Pk. generalize (2 ^ (ln - ld)) (n # d).
    intros k a A K Pk. nra.
  - assert (B' : n # d < 2 ^ (ln - ld)).
    { apply Qnot_le_lt. intros X. apply Qle_bool_iff in X. congruence. }
    replace (ln - ld - 1 + 1)%Z with (ln - ld)%Z by lia. split; [|exact B'].
    assert (S : 2 ^ (ln - ld) == 2 * 2 ^ (ln - ld - 1)).
    { rewrite <- two_pow_succ. now replace (ln - ld - 1 + 1)%Z with (ln - ld)%Z by lia. }
    pose proof (two_pow_pos (ln - ld - 1)) as Pk1.
    revert A K Pk S Pk1 B'. generalize (2 ^ (ln - ld)) (2 ^ (ln - ld - 1)) (n # d).
    intros k k1 a A K Pk S Pk1 B'. nra.
Qed.

Lemma ilog2_mono (a b : Q) : 0 < a -> a <= b -> (ilog2 a <= ilog2 b)%Z.
Proof.
  intros Ha Hab.
  destruct (ilog2_spec a Ha) as [A1 _].
  destruct (ilog2_spec b) as [_ B2]; [lra|].
  destruct (Z_le_gt_dec (ilog2 a) (ilog2 b)) as [H|H]; [exact H | exfalso].
  pose proof (two_pow_mono (ilog2 b + 1) (ilog2 a) ltac:(lia)). lra.
Qed.

(** *** The nearest integer *)

Lemma rne_floor (x : Q) : (Qfloor x <= rne x <= Qfloor x + 1)%Z.
Proof.
  unfold rne. destruct (Qcompare (x - inject_Z (Qfloor x)) (1 # 2)); [|lia|lia].
  destruct (Z.even (Qfloor x)); lia.
Qed.

Lemma rne_Z (z : Z) : rne (inject_Z z) = z.
Proof.
  unfold rne. rewrite Qfloor_Z.
  destruct (Qcompare_spec (inject_Z z - inject_Z z) (1 # 2)) as [C|C|C];
    [lra | reflexivity | lra].
Qed.

Lemma rne_mono (x y : Q) : x <= y -> (rne x <= rne y)%Z.
Proof.
  intros H. pose proof (Qfloor_resp_le x y H) as F.
  pose proof (rne_floor x) as Rx. pose proof (rne_floor y) as Ry.
  destruct (Z.eq_dec (Qfloor x) (Qfloor y)) as [E|N]; [|lia].
  unfold rne. rewrite <- E.
  destruct (Qcompare_spec (x - inject_Z (Qfloor x)) (1 # 2)) as [Cx|Cx|Cx];
    destruct (Qcompare_spec (y - inject_Z (Qfloor x)) (1 # 2)) as [Cy|Cy|Cy];
    try (destruct (Z.even (Qfloor x))); try lia; exfalso; lra.
Qed.

Lemma rne_le_Z (x : Q) (z : Z) : x <= inject_Z z -> (rne x <= z)%Z.
Proof. intros H. rewrite <- (rne_Z z). now apply rne_mono. Qed.

Lemma rne_ge_Z (x : Q) (z : Z) : inject_Z z <= x -> (z <= rne x)%Z.
Proof. intros H. rewrite <- (rne_Z z). now apply rne_mono. Qed.

(** *** The nearest float *)

Section Format.

Variable fmt : format.
Hypothesis prec_pos : (1 <= prec fmt)%Z.

Lemma ulp_pos (a : Q) : 0 < ulp fmt a.
Proof. apply two_pow_pos. Qed.

Lemma ulp_top (a : Q) :
  inject_Z (2 ^ prec fmt) * ulp fmt a == 2 ^ (Z.max (ilog2 a) (emin fmt) + 1).
Proof.
  unfold ulp. rewrite two_pow_Z by lia. rewrite <- Qpower_plus by discriminate.
  now replace (prec fmt + (Z.max (ilog2 a) (emin fmt) - (prec fmt - 1)))%Z
    with (Z.max (ilog2 a) (emin fmt) + 1)%Z by lia.
Qed.

Lemma ulp_bottom (a : Q) :
  inject_Z (2 ^ (prec fmt - 1)) * ulp fmt a == 2 ^ Z.max (ilog2 a) (emin fmt).
Proof.
  unfold ulp. rewrite two_pow_Z by lia. rewrite <- Qpower_plus by discriminate.
  now replace (prec fmt - 1 + (Z.max (ilog2 a) (emin fmt) - (prec fmt - 1)))%Z
    with (Z.max (ilog2 a) (emin fmt)) by lia.
Qed.

Lemma nearest_pos_nonneg (a : Q) : 0 < a -> 0 <= nearest_pos fmt a.
Proof.
  intros Ha. unfold nearest_pos. pose proof (ulp_pos a) as U.
  assert (R : (0 <= rne (a / ulp fmt a))%Z).
  { apply rne_ge_Z. apply Qle_shift_div_l; [exact U|].
    change (inject_Z 0) with 0. lra. }
  apply Qmult_le_0_compat; [|lra]. now rewrite Zle_Qle in R.
Qed.

(** The nearest float stays within the binade of [a], ends included. *)
Lemma nearest_pos_upper (a : Q) :
  0 < a -> nearest_pos fmt a <= 2 ^ (Z.max (ilog2 a) (emin fmt) + 1).
Proof.
  intros Ha. unfold nearest_pos. pose proof (ulp_pos a) as U.
  destruct (ilog2_spec a Ha) as [_ A].
  pose proof (two_pow_mono (ilog2 a + 1) (Z.max (ilog2 a) (emin fmt) + 1)
                ltac:(lia)) as M.
  rewrite <- ulp_top.
  assert (R : (rne (a / ulp fmt a) <= 2 ^ prec fmt)%Z).
  { apply rne_le_Z. apply Qle_shift_div_r; [exact U|]. rewrite ulp_top. lra. }
  apply Qmult_le_compat_r; [|lra]. now rewrite Zle_Qle in R.
Qed.

Lemma nearest_pos_lower (a : Q) :
  0 < a -> (emin fmt <= ilog2 a)%Z -> 2 ^ ilog2 a <= nearest_pos fmt a.
Proof.
  intros Ha He. unfold nearest_pos. pose proof (ulp_pos a) as U.
  destruct (ilog2_spec a Ha) as [A _].
  pose proof (ulp_bottom a) as B.
  replace (Z.max (ilog2 a) (emin fmt)) with (ilog2 a) in B by lia.
  rewrite <- B.
  assert (R : (2 ^ (prec fmt - 1) <= rne (a / ulp fmt a))%Z).
  { apply rne_ge_Z. apply Qle_shift_div_l; [exact U|]. rewrite B. exact A. }
  apply Qmult_le_compat_r; [|lra]. now rewrite Zle_Qle in R.
Qed.

(** Rounding to nearest keeps the order. *)
Lemma nearest_pos_mono (a b : Q) :
  0 < a -> a <= b -> nearest_pos fmt a <= nearest_pos fmt b.
Proof.
  intros Ha Hab. assert (Hb : 0 < b) by lra.
  pose proof (ilog2_mono a b Ha Hab) as L.
  destruct (Z.eq_dec (Z.max (ilog2 a) (emin fmt)) (Z.max (ilog2 b) (emin fmt)))
    as [E|N].
  - unfold nearest_pos, ulp. rewrite E.
    set (u := 2 ^ (Z.max (ilog2 b) (emin fmt) - (prec fmt - 1))).
    assert (U : 0 < u) by apply two_pow_pos.
    assert (R : (rne (a / u) <= rne (b / u))%Z).
    { apply rne_mono. apply Qmult_le_compat_r; [exact Hab|].
      apply Qlt_le_weak, Qinv_lt_0_compat, U. }
    apply Qmult_le_compat_r; [|lra]. now rewrite Zle_Qle in R.
  - pose proof (nearest_pos_upper a Ha) as Ua.
    pose proof (nearest_pos_lower b Hb ltac:(lia)) as Lb.
    pose proof (two_pow_mono (Z.max (ilog2 a) (emin fmt) + 1) (ilog2 b)
                  ltac:(lia)) as M.
    lra.
Qed.

Lemma nearest_mono (a b : Q) : a <= b -> nearest fmt a <= nearest fmt b.
Proof.
  intros H. unfold nearest.
  destruct (Qcompare_spec a 0) as [A|A|A];
    destruct (Qcompare_spec b 0) as [B|B|B]; try lra.
  - apply nearest_pos_nonneg, B.
  - pose proof (nearest_pos_nonneg (- a) ltac:(lra)). lra.
  - pose proof (nearest_pos_mono (- b) (- a) ltac:(lra) ltac:(lra)). lra.
  - pose proof (nearest_pos_nonneg (- a) ltac:(lra)).
    pose proof (nearest_pos_nonneg b B). lra.
  - apply nearest_pos_mono; assumption.
Qed.

(** *** Rounding with overflow *)

Lemma round_Fin (q x : Q) :
  round fmt q = Fin x <->
  x = Qred (nearest fmt q) /\
  - 2 ^ emax fmt < nearest fmt q /\ nearest fmt q < 2 ^ emax fmt.
Proof.
  unfold round. cbv zeta.
  pose proof (Qred_correct (nearest fmt q)) as C.
  destruct (Qle_bool (2 ^ emax fmt) (Qred (nearest fmt q))) eqn:B1.
  { apply Qle_bool_iff in B1. split; [discriminate|]. intros (_ & _ & H). lra. }
  destruct (Qle_bool (Qred (nearest fmt q)) (- 2 ^ emax fmt)) eqn:B2.
  { apply Qle_bool_iff in B2. split; [discriminate|]. intros (_ & H & _). lra. }
  assert (H1 : ~ 2 ^ emax fmt <= Qred (nearest fmt q)).
  { intros X. apply Qle_bool_iff in X. congruence. }
  assert (H2 : ~ Qred (nearest fmt q) <= - 2 ^ emax fmt).
  { intros X. apply Qle_bool_iff in X. congruence. }
  split.
  - intros E. injection E as <-. split; [reflexivity|]. lra.
  - intros (-> & _). reflexivity.
Qed.

(** A result between two results that round to finite numbers rounds to
    a finite number between them. *)
Lemma round_between (lo q hi l h : Q) :
  lo <= q -> q <= hi -> round fmt lo = Fin l -> round fmt hi = Fin h ->
  exists x, round fmt q = Fin x /\ l <= x /\ x <= h.
Proof.
  intros H1 H2 Rl Rh.
  apply round_Fin in Rl. destruct Rl as (-> & L1 & _).
  apply round_Fin in Rh. destruct Rh as (-> & _ & U2).
  pose proof (nearest_mono lo q H1) as M1.
  pose proof (nearest_mono q hi H2) as M2.
  exists (Qred (nearest fmt q)). split.
  - apply round_Fin. split; [reflexivity|]. lra.
  - rewrite !Qred_correct. split; assumption.
Qed.

End Format.

Lemma binary64_prec : (1 <= prec binary64)%Z.
Proof. cbn. lia. Qed.

Lemma binary32_prec : (1 <= prec binary32)%Z.
Proof. cbn. lia. Qed.

(** The small integers are floats. *)
Lemma round_0 : round binary64 0 = Fin 0.
Proof. reflexivity. Qed.

Lemma round_1 : round binary64 1 = Fin 1.
Proof. vm_compute. reflexivity. Qed.

Lemma round_2 : round binary64 2 = Fin 2.
Proof. vm_compute. reflexivity. Qed.

Lemma round_m1 : round binary64 (-1) = Fin (-1).
Proof. vm_compute. reflexivity. Qed.

(** *** The floats lie on a grid

    Every float is a multiple of the smallest positive one,
    [2 ^ (emin - (prec - 1))], so the difference of two floats that differ
    does not round to zero. *)

Section Grid.

Variable fmt : format.
Hypothesis prec_pos : (1 <= prec fmt)%Z.

Local Abbreviation eta := (2 ^ (emin fmt - (prec fmt - 1))).

Lemma ulp_grid (a : Q) : exists k : Z, ulp fmt a == inject_Z k * eta.
Proof.
  exists (2 ^ (Z.max (ilog2 a) (emin fmt) - emin fmt))%Z. unfold ulp.
  rewrite two_pow_Z by lia. rewrite <- Qpower_plus by discriminate.
  now replace (Z.max (ilog2 a) (emin fmt) - emin fmt
               + (emin fmt - (prec fmt - 1)))%Z
    with (Z.max (ilog2 a) (emin fmt) - (prec fmt - 1))%Z by lia.
Qed.

Lemma nearest_grid (q : Q) : exists m : Z, nearest fmt q == inject_Z m * eta.
Proof.
  unfold nearest.
  destruct (Qcompare q 0).
  - exists 0%Z. change (inject_Z 0) with 0. ring.
  - unfold nearest_pos. destruct (ulp_grid (- q)) as [k K].
    exists (- (rne (- q / ulp fmt (- q)) * k))%Z.
    rewrite inject_Z_opp, inject_Z_mult.
    generalize (inject_Z (rne (- q / ulp fmt (- q)))). intros r.
    rewrite K. ring.
  - unfold nearest_pos. destruct (ulp_grid q) as [k K].
    exists (rne (q / ulp fmt q) * k)%Z.
    rewrite inject_Z_mult.
    generalize (inject_Z (rne (q / ulp fmt q))). intros r.
    rewrite K. ring.
Qed.

Lemma nearest_pos_eta (q : Q) : eta <= q -> eta <= nearest_pos fmt q.
Proof.
  intros H. pose proof (two_pow_pos (emin fmt - (prec fmt - 1))) as E.
  assert (Hq : 0 < q) by lra.
  destruct (Z_le_gt_dec (emin fmt) (ilog2 q)) as [L|L].
  - pose proof (nearest_pos_lower fmt prec_pos q Hq L).
    pose proof (two_pow_mono (emin fmt - (prec fmt - 1)) (ilog2 q) ltac:(lia)).
    lra.
  - unfold nearest_pos, ulp.
    replace (Z.max (ilog2 q) (emin fmt)) with (emin fmt) by lia.
    assert (R : (1 <= rne (q / eta))%Z).
    { apply rne_ge_Z. apply Qle_shift_div_l; [exact E|].
      change (inject_Z 1) with 1. lra. }
    rewrite Zle_Qle in R. change (inject_Z 1) with 1 in R.
    revert R E. generalize (inject_Z (rne (q / eta))) eta. intros r e R E. nra.
Qed.

Lemma nearest_nonzero (q : Q) :
  eta <= q \/ q <= - eta -> ~ nearest fmt q == 0.
Proof.
  intros H. pose proof (two_pow_pos (emin fmt - (prec fmt - 1))) as E.
  unfold nearest.
  destruct (Qcompare_spec q 0) as [C|C|C]; [lra| |].
  - pose proof (nearest_pos_eta (- q) ltac:(lra)). lra.
  - pose proof (nearest_pos_eta q ltac:(lra)). lra.
Qed.

(** Two floats that differ are at least [eta] apart. *)
Lemma grid_apart (a b : Q) :
  a == nearest fmt a -> b == nearest fmt b -> ~ a == b ->
  eta <= a - b \/ a - b <= - eta.
Proof.
  intros Ha Hb N. pose proof (two_pow_pos (emin fmt - (prec fmt - 1))) as E.
  destruct (nearest_grid a) as [m Hm]. destruct (nearest_grid b) as [n Hn].
  rewrite <- Ha in Hm. rewrite <- Hb in Hn.
  destruct (Z_lt_le_dec n m) as [L|L].
  - left. assert (X : (1 <= m - n)%Z) by lia.
    unfold Z.sub in X. rewrite Zle_Qle, inject_Z_plus, inject_Z_opp in X. change (inject_Z 1) with 1 in X.
    rewrite Hm, Hn. revert X E. generalize (inject_Z m) (inject_Z n) eta.
    intros x y e X E. nra.
  - right. destruct (Z.eq_dec m n) as [->|D].
    { exfalso. apply N. now rewrite Hm, Hn. }
    assert (X : (1 <= n - m)%Z) by lia.
    unfold Z.sub in X. rewrite Zle_Qle, inject_Z_plus, inject_Z_opp in X. change (inject_Z 1) with 1 in X.
    rewrite Hm, Hn. revert X E. generalize (inject_Z m) (inject_Z n) eta.
    intros x y e X E. nra.
Qed.

End Grid.

Lemma is_double_nearest (q : Q) :
  EQ64.is_double (Fin q) = true -> q == nearest binary64 q.
Proof.
  unfold EQ64.is_double. destruct (round binary64 q) as [r| | |] eqn:R;
    try discriminate.
  intros H. apply Qeq_bool_iff in H.
  apply round_Fin in R. destruct R as (-> & _).
  rewrite Qred_correct in H. now symmetry.
Qed.

(** The difference of two doubles that differ is not zero. *)
Lemma double_diff_nonzero (a b d : Q) :
  EQ64.is_double (Fin a) = true -> EQ64.is_double (Fin b) = true ->
  ~ a == b -> sub (Fin a) (Fin b) = Fin d -> ~ d == 0.
Proof.
  intros Ha Hb N S. cbn [sub] in S. apply round_Fin in S. destruct S as (-> & _).
  rewrite Qred_correct. apply (nearest_nonzero binary64 binary64_prec).
  apply (grid_apart binary64); [| |exact N];
    now apply is_double_nearest.
Qed.

End FloatFacts.

(** ** The equalizer in double precision *)

Module EQ64Facts.
Import Float FloatFacts EQ64.

Lemma gtb_Fin (a b : Q) : gtb (Fin a) (Fin b) = true <-> b < a.
Proof.
  cbn [gtb]. rewrite negb_true_iff. split.
  - intros H. apply Qnot_le_lt. intros X. apply Qle_bool_iff in X. congruence.
  - intros H. destruct (Qle_bool a b) eqn:E; [|reflexivity].
    apply Qle_bool_iff in E. lra.
Qed.

Lemma gtb_Fin_false (a b : Q) : gtb (Fin a) (Fin b) = false <-> a <= b.
Proof.
  cbn [gtb]. rewrite negb_false_iff. apply Qle_bool_iff.
Qed.

Lemma is_double_Fin (x : number) : is_double x = true -> exists q, x = Fin q.
Proof. destruct x; try discriminate. intros _. now eexists. Qed.

Lemma is_double_0 : is_double (Fin 0) = true.
Proof. reflexivity. Qed.

(** *** The first loop: the bounds of the curve *)

Lemma scan_fold (value : list number) (idx : list nat) :
  (forall i, In i idx -> is_double (element value i) = true) ->
  forall mx mn, is_double (Fin mx) = true -> is_double (Fin mn) = true ->
  exists mx' mn',
    fold_left (scan_step value) idx (Fin mx, Fin mn) = (Fin mx', Fin mn') /\
    is_double (Fin mx') = true /\ is_double (Fin mn') = true /\
    mx <= mx' /\ mn' <= mn /\
    forall i q, In i idx -> element value i = Fin q -> mn' <= q /\ q <= mx'.
Proof.
  induction idx as [|i idx IH]; intros Hd mx mn Dx Dn; cbn [fold_left].
  - exists mx, mn. split; [reflexivity|]. do 2 (split; [assumption|]).
    split; [lra|]. split; [lra|]. intros i q [].
  - pose proof (Hd i (or_introl eq_refl)) as Di.
    destruct (is_double_Fin _ Di) as [v Ev].
    unfold scan_step at 2. rewrite Ev. rewrite Ev in Di. unfold ltb.
    destruct (gtb (Fin v) (Fin mx)) eqn:G;
      [apply gtb_Fin in G | apply gtb_Fin_false in G];
      (destruct (gtb (Fin mn) (Fin v)) eqn:L;
       [apply gtb_Fin in L | apply gtb_Fin_false in L]).
    + destruct (IH (fun j Hj => Hd j (or_intror Hj)) v v Di Di)
        as (mx' & mn' & E & D1 & D2 & B1 & B2 & B).
      exists mx', mn'. rewrite E. split; [reflexivity|].
      do 2 (split; [assumption|]). split; [lra|]. split; [lra|].
      intros j q [<-|Hj] Eq; [|exact (B j q Hj Eq)].
      rewrite Ev in Eq. injection Eq as <-. split; lra.
    + destruct (IH (fun j Hj => Hd j (or_intror Hj)) v mn Di Dn)
        as (mx' & mn' & E & D1 & D2 & B1 & B2 & B).
      exists mx', mn'. rewrite E. split; [reflexivity|].
      do 2 (split; [assumption|]). split; [lra|]. split; [lra|].
      intros j q [<-|Hj] Eq; [|exact (B j q Hj Eq)].
      rewrite Ev in Eq. injection Eq as <-. split; lra.
    + destruct (IH (fun j Hj => Hd j (or_intror Hj)) mx v Dx Di)
        as (mx' & mn' & E & D1 & D2 & B1 & B2 & B).
      exists mx', mn'. rewrite E. split; [reflexivity|].
      do 2 (split; [assumption|]). split; [lra|]. split; [lra|].
      intros j q [<-|Hj] Eq; [|exact (B j q Hj Eq)].
      rewrite Ev in Eq. injection Eq as <-. split; lra.
    + destruct (IH (fun j Hj => Hd j (or_intror Hj)) mx mn Dx Dn)
        as (mx' & mn' & E & D1 & D2 & B1 & B2 & B).
      exists mx', mn'. rewrite E. split; [reflexivity|].
      do 2 (split; [assumption|]). split; [lra|]. split; [lra|].
      intros j q [<-|Hj] Eq; [|exact (B j q Hj Eq)].
      rewrite Ev in Eq. injection Eq as <-. split; lra.
Qed.

Lemma element_In (value : list number) (i : nat) :
  (i < length value)%nat -> In (element value i) value.
Proof. intros H. unfold element. now apply nth_In. Qed.

(** The bounds of a curve of 40 doubles are doubles, with zero and every
    value of the curve between them. *)
Lemma scan_bounds (value : list number) :
  length value = 40%nat -> (forall v, In v value -> is_double v = true) ->
  exists mx mn,
    max_el value = Fin mx /\ min_el value = Fin mn /\
    is_double (Fin mx) = true /\ is_double (Fin mn) = true /\
    mn <= 0 /\ 0 <= mx /\
    forall i, (i < 40)%nat ->
      exists q, element value i = Fin q /\ mn <= q /\ q <= mx.
Proof.
  intros Hlen Hd.
  assert (Hi : forall i, In i bands -> is_double (element value i) = true).
  { intros i Hi. apply Hd, element_In. apply in_seq in Hi. lia. }
  destruct (scan_fold value bands Hi 0 0 is_double_0 is_double_0)
    as (mx & mn & E & D1 & D2 & B1 & B2 & B).
  exists mx, mn. unfold max_el, min_el, scan. rewrite E. cbn [fst snd].
  repeat split; try assumption.
  intros i Hlt.
  assert (Hin : In i bands) by (apply in_seq; lia).
  destruct (is_double_Fin _ (Hi i Hin)) as [q Eq].
  exists q. split; [exact Eq|]. now apply (B i q).
Qed.

(** *** The normalization step *)

Lemma normalized_within (mx mn v d : Q) :
  mn <= v -> v <= mx -> sub (Fin mx) (Fin mn) = Fin d -> ~ d == 0 ->
  within (-1) 1 (normalized (Fin mx) (Fin mn) (Fin v)).
Proof.
  intros H1 H2 S Hd. unfold normalized. rewrite S. cbn [sub] in S.
  destruct (round_between binary64 binary64_prec 0 (mx - mn) (mx - mn) 0 d)
    as (d' & Rd & D1 & _); [lra | lra | exact round_0 | exact S |].
  rewrite S in Rd. injection Rd as <-.
  destruct (round_between binary64 binary64_prec 0 (v - mn) (mx - mn) 0 d)
    as (t & Rt & T1 & T2); [lra | lra | exact round_0 | exact S |].
  cbn [sub]. rewrite Rt. cbn [div].
  destruct (Qeq_bool d 0) eqn:Z; [apply Qeq_bool_iff in Z; contradiction|].
  assert (Dpos : 0 < d) by lra.
  destruct (round_between binary64 binary64_prec 0 (t / d) 1 0 1)
    as (u & Ru & U1 & U2); [| |exact round_0|exact round_1|].
  { apply Qle_shift_div_l; [exact Dpos | lra]. }
  { apply Qle_shift_div_r; [exact Dpos | lra]. }
  rewrite Ru. cbn [mul].
  destruct (round_between binary64 binary64_prec 0 (u * 2) 2 0 2)
    as (w & Rw & W1 & W2); [lra | lra | exact round_0 | exact round_2 |].
  rewrite Rw. cbn [sub].
  destruct (round_between binary64 binary64_prec (-1) (w - 1) 1 (-1) 1)
    as (c & Rc & C1 & C2); [lra | lra | exact round_m1 | exact round_1 |].
  rewrite Rc. cbn [within]. split; assumption.
Qed.

(** *** The second loop *)

Lemma setValueAtTime_fields (this this' : Equalizer) (i : nat) (v : number) :
  setValueAtTime this i v = Some this' ->
  normalize this' = normalize this /\
  param_curve this' = param_curve this /\
  param_range this' = param_range this /\
  length (gains this') = length (gains this).
Proof.
  unfold setValueAtTime. destruct (i <? length (gains this))%nat; [|discriminate].
  destruct (to_float v); [|discriminate].
  intros E. injection E as <-. cbn. rewrite length_insert. repeat split; reflexivity.
Qed.

(** With normalization on and a range that is not degenerate, the loop
    pushes the normalized values of the bands it reaches, in order; it
    reaches them all unless a [TypeError] stops it. *)
Lemma band_fold_curve (value : list number) (mx mn : number) (idx : list nat) :
  neqb mx mn = true ->
  forall r, normalize (run_state r) = true ->
  exists k,
    (k <= length idx)%nat /\
    normalize (run_state (fold_left (band_step value mx mn) idx r)) = true /\
    param_curve (run_state (fold_left (band_step value mx mn) idx r))
    = param_curve (run_state r)
      ++ map (fun i => normalized mx mn (element value i)) (take k idx) /\
    (forall this, fold_left (band_step value mx mn) idx r = Go this ->
       k = length idx).
Proof.
  intros Hne.
  assert (St : forall l s, fold_left (band_step value mx mn) l (Stop s) = Stop s).
  { induction l as [|j l IHl]; intros s; [reflexivity | apply IHl]. }
  induction idx as [|i idx IH]; intros r Hn; cbn [fold_left].
  - exists 0%nat. cbn [take map length]. rewrite app_nil_r.
    split; [lia|]. split; [exact Hn|]. split; [reflexivity|]. reflexivity.
  - destruct r as [this|this]; cbn [run_state] in Hn.
    + set (this1 := push_curve this (normalized mx mn (element value i))).
      assert (Eb : band_step value mx mn (Go this) i
                   = match setValueAtTime this1 i
                             (mul (mul (param_range this1) (Fin 5))
                                (element (param_curve this1) i)) with
                     | Some this' => Go this'
                     | None => Stop this1
                     end).
      { unfold band_step. rewrite Hn, Hne. reflexivity. }
      rewrite Eb. clear Eb.
      destruct (setValueAtTime this1 i _) as [this'|] eqn:Hs.
      * destruct (setValueAtTime_fields _ _ _ _ Hs) as (F1 & F2 & _).
        destruct (IH (Go this')) as (k & K1 & K2 & K3 & K4).
        { cbn [run_state]. rewrite F1. exact Hn. }
        exists (S k). cbn [length take map run_state].
        split; [lia|]. split; [exact K2|]. split.
        { rewrite K3. cbn [run_state]. rewrite F2. unfold this1.
          cbn [push_curve param_curve]. now rewrite <- app_assoc. }
        intros s E. now rewrite (K4 s E).
      * rewrite St. exists 1%nat. cbn [length take map run_state].
        rewrite take_0. split; [lia|]. split; [exact Hn|].
        split; [reflexivity | discriminate].
    + cbn [band_step]. rewrite St. exists 0%nat. cbn [take map run_state].
      rewrite app_nil_r. split; [lia|]. split; [exact Hn|].
      split; [reflexivity | discriminate].
Qed.

Lemma neqb_Fin (a b : Q) : neqb (Fin a) (Fin b) = true <-> ~ a == b.
Proof.
  cbn [neqb]. rewrite negb_true_iff. split.
  - intros H X. apply Qeq_bool_iff in X. congruence.
  - intros H. destruct (Qeq_bool a b) eqn:E; [|reflexivity].
    apply Qeq_bool_iff in E. contradiction.
Qed.

Lemma set_curve_40 (this : Equalizer) (value : list number) :
  length value = 40%nat ->
  set_curve this value
  = match
      fold_left (band_step value (max_el value) (min_el value)) bands
        (Go (clear_curve this))
    with
    | Go this => Returns None this
    | Stop this => Throws this
    end.
Proof. intros H. unfold set_curve. now rewrite H. Qed.

Lemma scan_attained (value : list number) (idx : list nat) (a b : number) :
  (forall i, In i idx -> (i < length value)%nat) ->
  (fst (fold_left (scan_step value) idx (a, b)) = a \/
   In (fst (fold_left (scan_step value) idx (a, b))) value) /\
  (snd (fold_left (scan_step value) idx (a, b)) = b \/
   In (snd (fold_left (scan_step value) idx (a, b))) value).
Proof.
  revert a b. induction idx as [|i idx IH]; intros a b Hi; cbn [fold_left].
  - split; left; reflexivity.
  - assert (Hin : In (element value i) value).
    { apply element_In, Hi. now left. }
    assert (E : scan_step value (a, b) i
                = (if gtb (element value i) a then element value i else a,
                   if ltb (element value i) b then element value i else b))
      by reflexivity.
    rewrite E. clear E.
    destruct (IH (if gtb (element value i) a then element value i else a)
                 (if ltb (element value i) b then element value i else b))
      as [[A|A] [B|B]].
    { intros j Hj. apply Hi. now right. }
    all: split.
    all: try (right; assumption).
    all: try (rewrite A; destruct (gtb (element value i) a);
              [right; exact Hin | left; reflexivity]).
    all: rewrite B; destruct (ltb (element value i) b);
              [right; exact Hin | left; reflexivity].
Qed.

(** C7 (amended) — in the double arithmetic of the program, for a curve
    of 40 doubles whose effective range is not degenerate and whose
    [max_el - min_el] does not overflow: [max_el] is zero or a value of the
    curve, no value of the curve and not zero is above it, and likewise
    [min_el] below; every normalized value
    [((curve[i] - min_el) / (max_el - min_el)) * 2 - 1] is a finite number
    from -1 to 1; the setter stores these values, band by band, for the
    bands it reaches, and it reaches the 40 of them when the assignment
    completes. *)
Theorem normalized_curve_in_range (this : Equalizer) (value : list number) :
  normalize this = true -> length value = 40%nat ->
  (forall v, In v value -> is_double v = true) ->
  neqb (max_el value) (min_el value) = true ->
  is_finite (sub (max_el value) (min_el value)) = true ->
  (exists mx mn,
     max_el value = Fin mx /\ min_el value = Fin mn /\
     mn <= 0 /\ 0 <= mx /\
     (forall q, In (Fin q) value -> mn <= q /\ q <= mx) /\
     (max_el value = Fin 0 \/ In (max_el value) value) /\
     (min_el value = Fin 0 \/ In (min_el value) value)) /\
  (forall i, (i < 40)%nat ->
     within (-1) 1 (normalized (max_el value) (min_el value) (element value i))) /\
  exists k, (k <= 40)%nat /\
    param_curve (state (assign_curve this value))
    = map (fun i => normalized (max_el value) (min_el value) (element value i))
        (seq 0 k) /\
    (forall this', assign_curve this value = Completes this' -> k = 40%nat).
Proof.
  intros Hn Hlen Hd Hne Hfin.
  destruct (scan_bounds value Hlen Hd)
    as (mx & mn & Emx & Emn & Dx & Dn & B0 & B0' & B).
  split; [|split].
  - exists mx, mn. do 4 (split; [assumption|]). split.
    + intros q Hq. destruct (In_nth _ _ NaN Hq) as (i & Hi & Ei).
      rewrite Hlen in Hi. destruct (B i Hi) as (q' & Eq' & B1 & B2).
      unfold element in Eq'. rewrite Ei in Eq'. injection Eq' as <-.
      split; assumption.
    + unfold max_el, min_el, scan. apply scan_attained.
      intros i Hi. apply in_seq in Hi. lia.
  - rewrite Emx, Emn in *.
    assert (Sd : exists d, sub (Fin mx) (Fin mn) = Fin d).
    { revert Hfin. clear. generalize (sub (Fin mx) (Fin mn)).
      intros [d| | |] H; try discriminate H. now exists d. }
    destruct Sd as [d Sd]. apply neqb_Fin in Hne.
    pose proof (double_diff_nonzero mx mn d Dx Dn Hne Sd) as Hd0.
    intros i Hi. destruct (B i Hi) as (q & -> & B1 & B2).
    now apply (normalized_within mx mn q d).
  - unfold assign_curve. rewrite (set_curve_40 _ _ Hlen).
    destruct (band_fold_curve value (max_el value) (min_el value) bands Hne
                (Go (clear_curve this)) Hn) as (k & K1 & _ & K3 & K4).
    revert K1 K3 K4.
    generalize (fold_left (band_step value (max_el value) (min_el value)) bands
                  (Go (clear_curve this))).
    intros r K1 K3 K4.
    unfold bands in K1, K3, K4. rewrite length_seq in K1, K4.
    rewrite take_seq in K3. replace (k `min` 40)%nat with k in K3 by lia.
    exists k. split; [exact K1|].
    destruct r as [s|s]; cbn [state run_state] in *.
    + split; [exact K3|]. intros s' _. now apply (K4 s).
    + split; [exact K3|]. discriminate.
Qed.

Lemma normalized_curve_in_range_witness :
  let this := mkEqualizer true [] (Fin 1) (repeat (Fin 0) 40) in
  let value := Fin 3 :: Fin 7 :: repeat (Fin 0) 38 in
  max_el value = Fin 7 /\ min_el value = Fin 0 /\
  within (-1) 1 (normalized (max_el value) (min_el value) (element value 0)) /\
  length (param_curve (state (assign_curve this value))) = 40%nat.
Proof.
  intros this value.
  destruct (normalized_curve_in_range this value) as (_ & H & k & _ & Hc & Hk).
  - reflexivity.
  - reflexivity.
  - intros v Hv. cbn [repeat value] in Hv.
    repeat (destruct Hv as [<-|Hv]; [reflexivity|]). destruct Hv.
  - vm_compute. reflexivity.
  - vm_compute. reflexivity.
  - split; [vm_compute; reflexivity|]. split; [vm_compute; reflexivity|].
    split; [exact (H 0%nat ltac:(lia))|].
    rewrite Hc, length_map, length_seq.
    apply (Hk (state (assign_curve this value))). vm_compute. reflexivity.
Defined.

(** C7 as stated fails.  The curve [1e308, -1e308, 0, ..., 0] holds 40
    finite doubles and its range is not degenerate, but [max_el - min_el]
    overflows to [Infinity]: for band 0 the program computes
    [Infinity / Infinity], stores [NaN], and is stopped by the [TypeError]
    of the engine, which is handed [NaN]. *)
Lemma normalized_curve_counterexample :
  let big := round binary64 (inject_Z (10 ^ 308)) in
  let value := big :: neg big :: repeat (Fin 0) 38 in
  let this := mkEqualizer true [] (Fin 1) (repeat (Fin 0) 40) in
  length value = 40%nat /\
  forallb is_double value = true /\
  neqb (max_el value) (min_el value) = true /\
  sub (max_el value) (min_el value) = PInf /\
  normalized (max_el value) (min_el value) (element value 0) = NaN /\
  ~ within (-1) 1 (normalized (max_el value) (min_el value) (element value 0)) /\
  assign_curve this value
  = TypeError (mkEqualizer true [NaN] (Fin 1) (repeat (Fin 0) 40)).
Proof.
  cbv zeta.
  split; [reflexivity|]. split; [vm_compute; reflexivity|].
  split; [vm_compute; reflexivity|]. split; [vm_compute; reflexivity|].
  assert (E : normalized
                (max_el (round binary64 (inject_Z (10 ^ 308))
                         :: neg (round binary64 (inject_Z (10 ^ 308)))
                         :: repeat (Fin 0) 38))
                (min_el (round binary64 (inject_Z (10 ^ 308))
                         :: neg (round binary64 (inject_Z (10 ^ 308)))
                         :: repeat (Fin 0) 38))
                (element (round binary64 (inject_Z (10 ^ 308))
                          :: neg (round binary64 (inject_Z (10 ^ 308)))
                          :: repeat (Fin 0) 38) 0) = NaN)
    by (vm_compute; reflexivity).
  split; [exact E|]. split; [rewrite E; intros []|].
  vm_compute. reflexivity.
Qed.

Lemma set_curve_short (this : Equalizer) (value : list number) :
  length value <> 40%nat -> set_curve this value = Returns (Some (-1)%Z) this.
Proof.
  intros H. unfold set_curve.
  now destruct (Nat.eqb_spec (length value) 40) as [E|_]; [contradiction|].
Qed.

Lemma assign_short (this : Equalizer) (value : list number) :
  length value <> 40%nat -> assign_curve this value = Completes this.
Proof. intros H. unfold assign_curve. now rewrite set_curve_short. Qed.




(** *** The degenerate curve *)

Lemma scan_zero (value : list number) (idx : list nat) :
  (forall i, In i idx -> is_zero (element value i) = true) ->
  fold_left (scan_step value) idx (Fin 0, Fin 0) = (Fin 0, Fin 0).
Proof.
  induction idx as [|i idx IH]; intros H; cbn [fold_left]; [reflexivity|].
  pose proof (H i (or_introl eq_refl)) as Hi.
  destruct (element value i) as [q| | |] eqn:E; try discriminate.
  cbn [is_zero] in Hi. apply Qeq_bool_iff in Hi.
  assert (G : gtb (Fin q) (Fin 0) = false) by (apply gtb_Fin_false; lra).
  assert (L : gtb (Fin 0) (Fin q) = false) by (apply gtb_Fin_false; lra).
  unfold scan_step at 2. rewrite E. unfold ltb. rewrite G, L.
  apply IH. intros j Hj. apply H. now right.
Qed.

Lemma mul_NaN (x : number) : mul x NaN = NaN.
Proof. now destruct x. Qed.

Lemma stop_fold (value : list number) (mx mn : number) (idx : list nat)
    (this : Equalizer) :
  fold_left (band_step value mx mn) idx (Stop this) = Stop this.
Proof. induction idx as [|i idx IH]; [reflexivity | exact IH]. Qed.

Lemma scan_all_zero (value : list number) :
  length value = 40%nat -> (forall v, In v value -> is_zero v = true) ->
  max_el value = Fin 0 /\ min_el value = Fin 0.
Proof.
  intros Hlen Hz. unfold max_el, min_el, scan. rewrite scan_zero.
  - split; reflexivity.
  - intros i Hi. apply Hz, element_In. apply in_seq in Hi. lia.
Qed.

Lemma band_step_degenerate (this : Equalizer) (value : list number) (i : nat) :
  normalize this = true -> param_curve this = [] ->
  band_step value (Fin 0) (Fin 0) (Go this) i = Stop this.
Proof.
  intros Hn Hc. unfold band_step. rewrite Hn.
  replace (neqb (Fin 0) (Fin 0)) with false by reflexivity.
  unfold setValueAtTime. rewrite Hc. unfold element.
  replace (nth i [] NaN) with NaN by now destruct i.
  rewrite mul_NaN. replace (to_float NaN) with (@None number) by reflexivity.
  now destruct (i <? length (gains this))%nat.
Qed.

Lemma bands_cons : bands = 0%nat :: seq 1 39.
Proof. reflexivity. Qed.

(** X3 — the curve of 40 zeros, whose range is degenerate.  The setter
    empties the stored curve and pushes nothing; for band 0 it hands the
    engine [range * 5 * undefined], which is [NaN], and the engine raises
    a [TypeError]: the assignment is left with the stored curve empty and
    no gain changed.  A range assigned afterwards is stored and replays
    the empty curve, which the length check rejects: the assignment
    completes and nothing else changes. *)
Theorem degenerate_curve_throws (this : Equalizer) (value : list number)
    (r : number) :
  normalize this = true -> length value = 40%nat ->
  (forall v, In v value -> is_zero v = true) ->
  assign_curve this value = TypeError (clear_curve this) /\
  assign_range (clear_curve this) r
  = Completes (store_range (clear_curve this) r).
Proof.
  intros Hn Hlen Hz. split.
  - unfold assign_curve. rewrite (set_curve_40 _ _ Hlen).
    destruct (scan_all_zero value Hlen Hz) as [-> ->].
    rewrite bands_cons. change (0%nat :: seq 1 39) with ([0%nat] ++ seq 1 39).
    rewrite fold_left_app.
    replace (fold_left (band_step value (Fin 0) (Fin 0)) [0%nat]
               (Go (clear_curve this)))
      with (Stop (clear_curve this)).
    + now rewrite stop_fold.
    + symmetry. now apply band_step_degenerate.
  - unfold assign_range.
    apply assign_short. discriminate.
Qed.

Lemma degenerate_curve_throws_witness :
  assign_curve (mkEqualizer true [Fin 1] (Fin 1) (repeat (Fin 5) 40))
    (repeat (Fin 0) 40)
  = TypeError (mkEqualizer true [] (Fin 1) (repeat (Fin 5) 40)).
Proof.
  refine (proj1 (degenerate_curve_throws
                   (mkEqualizer true [Fin 1] (Fin 1) (repeat (Fin 5) 40))
                   (repeat (Fin 0) 40) (Fin 1) eq_refl eq_refl _)).
  intros v Hv. apply repeat_spec in Hv. now subst v.
Defined.

(** *** The order of the bands *)

(** Rounding never reverses the order of two numbers. *)
Lemma round_mono (fmt : format) (q1 q2 a b : Q) :
  (1 <= prec fmt)%Z -> q1 <= q2 ->
  round fmt q1 = Fin a -> round fmt q2 = Fin b -> a <= b.
Proof.
  intros Hp Hq Ra Rb.
  destruct (round_between fmt Hp q1 q2 q2 a b Hq ltac:(lra) Ra Rb)
    as (x & Rx & L & _).
  rewrite Rb in Rx. injection Rx as <-. exact L.
Qed.

(** The normalization step never reverses the order of two values. *)
Lemma normalized_mono (mx mn x y d : Q) :
  mn <= x -> x <= y -> y <= mx ->
  sub (Fin mx) (Fin mn) = Fin d -> ~ d == 0 ->
  exists a b,
    normalized (Fin mx) (Fin mn) (Fin x) = Fin a /\
    normalized (Fin mx) (Fin mn) (Fin y) = Fin b /\ a <= b.
Proof.
  intros H1 H2 H3 S Hd. unfold normalized. rewrite S. cbn [sub] in S.
  destruct (round_between binary64 binary64_prec 0 (mx - mn) (mx - mn) 0 d)
    as (d' & Rd & D1 & _); [lra | lra | exact round_0 | exact S |].
  rewrite S in Rd. injection Rd as <-.
  destruct (round_between binary64 binary64_prec 0 (x - mn) (mx - mn) 0 d)
    as (tx & Rtx & Tx1 & Tx2); [lra | lra | exact round_0 | exact S |].
  destruct (round_between binary64 binary64_prec 0 (y - mn) (mx - mn) 0 d)
    as (ty & Rty & Ty1 & Ty2); [lra | lra | exact round_0 | exact S |].
  assert (Txy : tx <= ty).
  { apply (round_mono binary64 (x - mn) (y - mn)); [exact binary64_prec | lra | | ];
      assumption. }
  cbn [sub]. rewrite Rtx, Rty. cbn [div].
  destruct (Qeq_bool d 0) eqn:Z; [apply Qeq_bool_iff in Z; contradiction|].
  assert (Dpos : 0 < d) by lra.
  assert (Q0 : forall t, 0 <= t -> 0 <= t / d).
  { intros t Ht. apply Qle_shift_div_l; [exact Dpos | lra]. }
  assert (Q1 : forall t, t <= d -> t / d <= 1).
  { intros t Ht. apply Qle_shift_div_r; [exact Dpos | lra]. }
  assert (Qxy : tx / d <= ty / d).
  { unfold Qdiv. apply Qmult_le_compat_r; [exact Txy|].
    apply Qlt_le_weak, Qinv_lt_0_compat, Dpos. }
  destruct (round_between binary64 binary64_prec 0 (tx / d) 1 0 1)
    as (ux & Rux & Ux1 & Ux2); [auto | auto | exact round_0 | exact round_1 |].
  destruct (round_between binary64 binary64_prec 0 (ty / d) 1 0 1)
    as (uy & Ruy & Uy1 & Uy2); [auto | auto | exact round_0 | exact round_1 |].
  pose proof (round_mono binary64 _ _ _ _ binary64_prec Qxy Rux Ruy) as Uxy.
  rewrite Rux, Ruy. cbn [mul].
  destruct (round_between binary64 binary64_prec 0 (ux * 2) 2 0 2)
    as (wx & Rwx & Wx1 & Wx2); [lra | lra | exact round_0 | exact round_2 |].
  destruct (round_between binary64 binary64_prec 0 (uy * 2) 2 0 2)
    as (wy & Rwy & Wy1 & Wy2); [lra | lra | exact round_0 | exact round_2 |].
  assert (Wxy : wx <= wy).
  { apply (round_mono binary64 (ux * 2) (uy * 2)); [exact binary64_prec | lra | | ];
      assumption. }
  rewrite Rwx, Rwy. cbn [sub].
  destruct (round_between binary64 binary64_prec (-1) (wx - 1) 1 (-1) 1)
    as (cx & Rcx & _); [lra | lra | exact round_m1 | exact round_1 |].
  destruct (round_between binary64 binary64_prec (-1) (wy - 1) 1 (-1) 1)
    as (cy & Rcy & _); [lra | lra | exact round_m1 | exact round_1 |].
  exists cx, cy. split; [exact Rcx|]. split; [exact Rcy|].
  apply (round_mono binary64 (wx - 1) (wy - 1)); [exact binary64_prec | lra | | ];
    assumption.
Qed.

(** The gains after the loop has gone through the first [n] bands without
    a [TypeError]. *)
Lemma band_fold_gains (this : Equalizer) (value : list number) (mx mn : number)
    (n : nat) :
  normalize this = true -> neqb mx mn = true ->
  forall s, fold_left (band_step value mx mn) (seq 0 n) (Go (clear_curve this)) = Go s ->
  normalize s = true /\
  param_range s = param_range this /\
  param_curve s = map (fun i => normalized mx mn (element value i)) (seq 0 n) /\
  forall i, (i < n)%nat ->
    exists g,
      to_float (mul (mul (param_range this) (Fin 5))
                  (normalized mx mn (element value i))) = Some g /\
      gains s !! i = Some g.
Proof.
  intros Hn Hne. induction n as [|n IH]; intros s.
  - cbn [seq fold_left]. intros E. injection E as <-.
    cbn [clear_curve normalize param_range param_curve map].
    split; [exact Hn|]. split; [reflexivity|]. split; [reflexivity|].
    intros i Hi. lia.
  - rewrite seq_S, fold_left_app. cbn [Nat.add fold_left].
    destruct (fold_left (band_step value mx mn) (seq 0 n) (Go (clear_curve this)))
      as [s0|s0]; [|discriminate].
    destruct (IH s0 eq_refl) as (I1 & I2 & I3 & I4).
    unfold band_step. rewrite I1, Hne.
    set (s1 := push_curve s0 (normalized mx mn (element value n))).
    assert (Ec : element (param_curve s1) n = normalized mx mn (element value n)).
    { unfold s1. cbn [push_curve param_curve]. rewrite I3. unfold element.
      rewrite app_nth2; rewrite length_map, length_seq; [|lia].
      now rewrite Nat.sub_diag. }
    assert (Er : param_range s1 = param_range this) by exact I2.
    rewrite Ec, Er. unfold setValueAtTime.
    destruct (n <? length (gains s1))%nat eqn:Hlt; [|discriminate].
    apply Nat.ltb_lt in Hlt.
    destruct (to_float _) as [g|] eqn:Hg; [|discriminate].
    intros E. injection E as <-.
    cbn [normalize param_range param_curve gains].
    split; [exact I1|]. split; [exact I2|]. split.
    { unfold s1. cbn [push_curve param_curve]. rewrite I3, map_app. reflexivity. }
    intros i Hi. destruct (decide (i = n)) as [->|Hin].
    + exists g. split; [exact Hg|]. now apply list_lookup_insert_eq.
    + destruct (I4 i ltac:(lia)) as (g' & G1 & G2).
      exists g'. split; [exact G1|].
      rewrite list_lookup_insert_ne by congruence. exact G2.
Qed.

Lemma to_float_Some (x g : number) :
  to_float x = Some g ->
  exists p q, x = Fin p /\ g = Fin q /\ round binary32 p = Fin q.
Proof.
  destruct x as [p| | |]; try discriminate. cbn [to_float].
  destruct (round binary32 p) as [q| | |] eqn:R; try discriminate.
  intros E. injection E as <-. now exists p, q.
Qed.

(** The gain of a normalized value, for a range that is not negative. *)
Lemma gain_order (r a b : Q) (ga gb : number) :
  0 <= r -> a <= b ->
  to_float (mul (mul (Fin r) (Fin 5)) (Fin a)) = Some ga ->
  to_float (mul (mul (Fin r) (Fin 5)) (Fin b)) = Some gb ->
  exists x y, ga = Fin x /\ gb = Fin y /\ x <= y.
Proof.
  intros Hr Hab Ga Gb.
  destruct (to_float_Some _ _ Ga) as (pa & qa & Ea & -> & Ra).
  destruct (to_float_Some _ _ Gb) as (pb & qb & Eb & -> & Rb).
  exists qa, qb. split; [reflexivity|]. split; [reflexivity|].
  apply (round_mono binary32 pa pb); [exact binary32_prec | | exact Ra | exact Rb].
  cbn [mul] in Ea, Eb.
  destruct (round binary64 (r * 5)) as [r5| | |] eqn:R5.
  - assert (H5 : 0 <= r5).
    { apply (round_mono binary64 0 (r * 5)); [exact binary64_prec | lra | | exact R5].
      exact round_0. }
    cbn [mul] in Ea, Eb.
    apply (round_mono binary64 (r5 * a) (r5 * b));
      [exact binary64_prec | | exact Ea | exact Eb].
    rewrite !(Qmult_comm r5). apply Qmult_le_compat_r; assumption.
  - exfalso. revert Ea. clear. unfold mul, is_zero, infinity.
    destruct (false || Qeq_bool a 0); [discriminate|].
    destruct (xorb _ _); discriminate.
  - exfalso. revert Ea. clear. unfold mul, is_zero, infinity.
    destruct (false || Qeq_bool a 0); [discriminate|].
    destruct (xorb _ _); discriminate.
  - discriminate.
Qed.

(** X5 — normalization keeps the order of the bands, in the double
    arithmetic of the program: when the assignment of a curve of 40
    doubles completes, with a range of the curve that is not degenerate
    and whose [max_el - min_el] does not overflow, on an equalizer whose
    range is a number that is not negative, a band whose curve value is
    at most that of another band has a gain that is at most the other's. *)
Theorem set_curve_keeps_order (this this' : Equalizer) (value : list number)
    (r : Q) (i j : nat) (x y : Q) :
  normalize this = true -> param_range this = Fin r -> 0 <= r ->
  length value = 40%nat -> (forall v, In v value -> is_double v = true) ->
  neqb (max_el value) (min_el value) = true ->
  is_finite (sub (max_el value) (min_el value)) = true ->
  assign_curve this value = Completes this' ->
  value !! i = Some (Fin x) -> value !! j = Some (Fin y) -> x <= y ->
  exists gi gj,
    gains this' !! i = Some (Fin gi) /\ gains this' !! j = Some (Fin gj) /\
    gi <= gj.
Proof.
  intros Hn Hr Hr0 Hlen Hd Hne Hfin Hc Hx Hy Hxy.
  assert (Hi : (i < 40)%nat) by (rewrite <- Hlen; eapply lookup_lt_Some; exact Hx).
  assert (Hj : (j < 40)%nat) by (rewrite <- Hlen; eapply lookup_lt_Some; exact Hy).
  assert (Ex : element value i = Fin x) by (unfold element; now apply nth_lookup_Some).
  assert (Ey : element value j = Fin y) by (unfold element; now apply nth_lookup_Some).
  unfold assign_curve in Hc. rewrite (set_curve_40 _ _ Hlen) in Hc.
  pose proof (band_fold_gains this value (max_el value) (min_el value) 40 Hn Hne)
    as F.
  change (seq 0 40) with bands in F. revert Hc F.
  generalize (fold_left (band_step value (max_el value) (min_el value)) bands
                (Go (clear_curve this))).
  intros [s|s] Hc F; [|discriminate]. injection Hc as <-.
  destruct (F s eq_refl) as (_ & _ & _ & G).
  destruct (G i Hi) as (gi & Ti & Gi). destruct (G j Hj) as (gj & Tj & Gj).
  rewrite Hr, Ex in Ti. rewrite Hr, Ey in Tj.
  destruct (scan_bounds value Hlen Hd)
    as (mx & mn & Emx & Emn & Dx & Dn & _ & _ & B).
  rewrite Emx, Emn in Ti, Tj, Hne, Hfin.
  destruct (B i Hi) as (x' & Ex' & Bx1 & Bx2). rewrite Ex in Ex'. injection Ex' as <-.
  destruct (B j Hj) as (y' & Ey' & By1 & By2). rewrite Ey in Ey'. injection Ey' as <-.
  apply neqb_Fin in Hne.
  assert (Sd : exists d, sub (Fin mx) (Fin mn) = Fin d).
  { revert Hfin. clear. generalize (sub (Fin mx) (Fin mn)).
    intros [d| | |] H; try discriminate H. now exists d. }
  destruct Sd as [d Sd].
  pose proof (double_diff_nonzero mx mn d Dx Dn Hne Sd) as Hd0.
  destruct (normalized_mono mx mn x y d Bx1 Hxy By2 Sd Hd0)
    as (a & b & Na & Nb & Hab).
  rewrite Na in Ti. rewrite Nb in Tj.
  destruct (gain_order r a b gi gj Hr0 Hab Ti Tj) as (p & q & -> & -> & Hpq).
  exists p, q. split; [exact Gi|]. split; [exact Gj | exact Hpq].
Qed.

Lemma set_curve_keeps_order_witness :
  let this := mkEqualizer true [] (Fin 2) (repeat (Fin 0) 40) in
  let value := Fin 3 :: Fin 7 :: repeat (Fin 0) 38 in
  exists gi gj,
    gains (state (assign_curve this value)) !! 0%nat = Some (Fin gi) /\
    gains (state (assign_curve this value)) !! 1%nat = Some (Fin gj) /\
    gi <= gj.
Proof.
  intros this value.
  apply (set_curve_keeps_order this (state (assign_curve this value)) value
           2 0 1 3 7).
  - reflexivity.
  - reflexivity.
  - discriminate.
  - reflexivity.
  - intros v Hv. cbn [repeat value] in Hv.
    repeat (destruct Hv as [<-|Hv]; [reflexivity|]). destruct Hv.
  - vm_compute. reflexivity.
  - vm_compute. reflexivity.
  - vm_compute. reflexivity.
  - reflexivity.
  - reflexivity.
  - discriminate.
Defined.

End EQ64Facts.

(** ** The WAV encoder *)

Module WavFacts.
Import Wav.

Lemma length_setUint8 view off v : length (setUint8 view off v) = length view.
Proof. apply length_insert. Qed.

Lemma length_setUint16 view off v : length (setUint16 view off v) = length view.
Proof. unfold setUint16. now rewrite !length_setUint8. Qed.

Lemma length_setUint32 view off v : length (setUint32 view off v) = length view.
Proof. unfold setUint32. now rewrite !length_setUint8. Qed.

Lemma length_writeString s view off :
  length (writeString view off s) = length view.
Proof.
  revert view off. induction s as [|c s IH]; intros view off; cbn [writeString].
  - reflexivity.
  - now rewrite IH, length_setUint8.
Qed.

Lemma length_write_header abuffer n view :
  length (write_header abuffer n view) = length view.
Proof.
  unfold write_header. cbv zeta.
  repeat (rewrite length_setUint32 || rewrite length_setUint16
          || rewrite length_writeString).
  reflexivity.
Qed.

Lemma nth_setUint8 view off v k :
  nth k (setUint8 view off v) 0%Z
  = if decide (k = off /\ (off < length view)%nat) then (v mod 256)%Z
    else nth k view 0%Z.
Proof.
  unfold setUint8. rewrite !nth_lookup.
  destruct (decide (k = off /\ (off < length view)%nat)) as [[-> H]|H].
  - now rewrite list_lookup_insert_eq.
  - destruct (decide (off = k)) as [->|Hne].
    + rewrite list_insert_ge; [reflexivity|]. lia.
    + now rewrite list_lookup_insert_ne.
Qed.

(** A value in the signed 16-bit range is read back as it was written. *)
Lemma getInt16_setUint16_same view off z :
  (off + 1 < length view)%nat -> (-32768 <= z <= 32767)%Z ->
  getInt16 (setUint16 view off z) off = z.
Proof.
  intros Hoff Hz. unfold getInt16, setUint16. cbv zeta.
  rewrite !nth_setUint8, !length_setUint8.
  repeat (case_decide; try lia).
  set (u := (z mod 65536)%Z).
  assert (Hu : (0 <= u < 65536)%Z) by (apply Z.mod_pos_bound; lia).
  assert (E : (u mod 256 + 256 * ((u / 256) mod 256) = u)%Z).
  { rewrite (Z.mod_small (u / 256)).
    - pose proof (Z.div_mod u 256). lia.
    - split; [apply Z.div_pos; lia | apply Z.div_lt_upper_bound; lia]. }
  rewrite E.
  assert (Hcase : (z < 0 /\ u = z + 65536 \/ 0 <= z /\ u = z)%Z).
  { destruct (Z.lt_ge_cases z 0) as [N|P].
    - left. split; [exact N|]. unfold u. symmetry.
      apply (Z.mod_unique z 65536 (-1)); lia.
    - right. split; [exact P|]. unfold u. apply Z.mod_small. lia. }
  destruct (Z.ltb_spec u 32768); lia.
Qed.

(** Writing two bytes at [off] leaves the 16-bit value at any other,
    non-overlapping offset as it was. *)
Lemma getInt16_setUint16_other view off off' z :
  off' <> off -> (off' + 1)%nat <> off -> off' <> (off + 1)%nat ->
  getInt16 (setUint16 view off z) off' = getInt16 view off'.
Proof.
  intros H1 H2 H3. unfold getInt16, setUint16. cbv zeta.
  rewrite !nth_setUint8.
  repeat (case_decide; try lia); reflexivity.
Qed.

Lemma clamp_bounds (x : Q) : -1 <= clamp x /\ clamp x <= 1.
Proof.
  unfold clamp. split.
  - apply Q.le_max_l.
  - apply Q.max_lub; [lra | apply Q.le_min_l].
Qed.

(** The number handed to [setInt16] lies in the signed 16-bit range. *)
Lemma scale_clamp_bounds (x : Q) :
  -32768 <= scale (clamp x) /\ scale (clamp x) <= 32767.
Proof.
  destruct (clamp_bounds x) as [L U]. unfold scale.
  destruct (Qlt_le_dec (clamp x) 0); split; lra.
Qed.

Lemma trunc_bounds (y : Q) :
  -32768 <= y -> y <= 32767 -> (-32768 <= trunc y <= 32767)%Z.
Proof.
  intros L U. unfold trunc. destruct (Qlt_le_dec y 0) as [N|P].
  - pose proof (Qceiling_resp_le _ _ L) as H1.
    pose proof (Qceiling_resp_le y 0 (Qlt_le_weak _ _ N)) as H2.
    change (-32768) with (inject_Z (-32768)) in H1.
    change 0 with (inject_Z 0) in H2.
    rewrite Qceiling_Z in H1, H2. lia.
  - pose proof (Qfloor_resp_le _ _ P) as H1.
    pose proof (Qfloor_resp_le _ _ U) as H2.
    change 0 with (inject_Z 0) in H1.
    change 32767 with (inject_Z 32767) in H2.
    rewrite Qfloor_Z in H1, H2. lia.
Qed.

Lemma pcm16_bounds (x : Q) : (-32768 <= pcm16 x <= 32767)%Z.
Proof.
  unfold pcm16. destruct (scale_clamp_bounds x). now apply trunc_bounds.
Qed.

Lemma index_inj (C i j i' j' : nat) :
  (i < C)%nat -> (i' < C)%nat ->
  (j * C + i = j' * C + i')%nat -> i = i' /\ j = j'.
Proof.
  intros Hi Hi' E.
  destruct (Nat.lt_trichotomy j j') as [H|[H|H]].
  - pose proof (Nat.mul_le_mono_r (S j) j' C H). lia.
  - subst j'. lia.
  - pose proof (Nat.mul_le_mono_r (S j') j C H). lia.
Qed.

(** The two bytes of one sample slot do not meet those of another. *)
Lemma index_apart (C i j i' j' : nat) :
  (i < C)%nat -> (i' < C)%nat -> (i <> i' \/ j <> j') ->
  index C i j <> index C i' j' /\
  (index C i j + 1)%nat <> index C i' j' /\
  index C i j <> (index C i' j' + 1)%nat.
Proof.
  intros Hi Hi' Hne. unfold index.
  assert (j * C + i <> j' * C + i')%nat.
  { intros E. destruct (index_inj C i j i' j' Hi Hi' E). lia. }
  lia.
Qed.

Lemma frame_step_eq abuffer i view j :
  frame_step abuffer i view j
  = setUint16 view (index (numberOfChannels abuffer) i j)
      (pcm16 (getChannelData abuffer i j)).
Proof. reflexivity. Qed.

(** The inner loop over the first [n] frames of channel [i]. *)
Lemma frames_fold abuffer i n view :
  (i < numberOfChannels abuffer)%nat ->
  forall view', view' = fold_left (frame_step abuffer i) (seq 0 n) view ->
  length view' = length view /\
  (forall j, (j < n)%nat ->
     (index (numberOfChannels abuffer) i j + 1 < length view)%nat ->
     getInt16 view' (index (numberOfChannels abuffer) i j)
     = pcm16 (getChannelData abuffer i j)) /\
  (forall off,
     (forall j, (j < n)%nat ->
        off <> index (numberOfChannels abuffer) i j /\
        (off + 1)%nat <> index (numberOfChannels abuffer) i j /\
        off <> (index (numberOfChannels abuffer) i j + 1)%nat) ->
     getInt16 view' off = getInt16 view off).
Proof.
  intros Hi. induction n as [|n IH]; intros view' ->.
  - cbn. split; [reflexivity|]. split; [intros j Hj; lia | reflexivity].
  - rewrite seq_S, fold_left_app. cbn [fold_left Nat.add].
    destruct (IH _ eq_refl) as (I1 & I2 & I3).
    revert I1 I2 I3.
    generalize (fold_left (frame_step abuffer i) (seq 0 n) view).
    intros w I1 I2 I3. rewrite frame_step_eq.
    split; [now rewrite length_setUint16|]. split.
    + intros j Hj Hoff. destruct (decide (j = n)) as [->|Hne].
      * apply getInt16_setUint16_same; [lia | apply pcm16_bounds].
      * destruct (index_apart (numberOfChannels abuffer) i j i n Hi Hi)
          as (A1 & A2 & A3); [now right|].
        rewrite getInt16_setUint16_other by assumption.
        apply I2; [lia | exact Hoff].
    + intros off Hoff. destruct (Hoff n ltac:(lia)) as (A1 & A2 & A3).
      rewrite getInt16_setUint16_other by assumption.
      apply I3. intros j Hj. apply Hoff. lia.
Qed.

(** The outer loop over the first [m] channels. *)
Lemma channels_fold abuffer m view :
  (m <= numberOfChannels abuffer)%nat ->
  forall view', view' = fold_left (channel_step abuffer) (seq 0 m) view ->
  length view' = length view /\
  (forall i j, (i < m)%nat -> (j < frames abuffer)%nat ->
     (index (numberOfChannels abuffer) i j + 1 < length view)%nat ->
     getInt16 view' (index (numberOfChannels abuffer) i j)
     = pcm16 (getChannelData abuffer i j)) /\
  (forall off,
     (forall i j, (i < m)%nat -> (j < frames abuffer)%nat ->
        off <> index (numberOfChannels abuffer) i j /\
        (off + 1)%nat <> index (numberOfChannels abuffer) i j /\
        off <> (index (numberOfChannels abuffer) i j + 1)%nat) ->
     getInt16 view' off = getInt16 view off).
Proof.
  induction m as [|m IH]; intros Hm view' ->.
  - cbn. split; [reflexivity|]. split; [intros i j Hi; lia | reflexivity].
  - rewrite seq_S, fold_left_app. cbn [fold_left Nat.add].
    destruct (IH ltac:(lia) _ eq_refl) as (I1 & I2 & I3).
    revert I1 I2 I3.
    generalize (fold_left (channel_step abuffer) (seq 0 m) view).
    intros w I1 I2 I3.
    destruct (frames_fold abuffer m (frames abuffer) w ltac:(lia) _ eq_refl)
      as (F1 & F2 & F3).
    fold (channel_step abuffer w m) in F1, F2, F3.
    revert F1 F2 F3. generalize (channel_step abuffer w m). intros w' F1 F2 F3.
    split; [congruence|]. split.
    + intros i j Hi Hj Hoff. destruct (decide (i = m)) as [->|Hne].
      * apply F2; [exact Hj | lia].
      * rewrite F3; [apply I2; [lia | exact Hj | exact Hoff]|].
        intros j' Hj'.
        apply (index_apart (numberOfChannels abuffer) i j m j'); [lia | lia |].
        now left.
    + intros off Hoff. rewrite F3; [apply I3|].
      * intros i j Hi Hj. apply Hoff; [lia | exact Hj].
      * intros j Hj. apply Hoff; [lia | exact Hj].
Qed.

(** *** Bytes *)

Lemma setUint8_bytes view off v :
  List.Forall is_byte view -> List.Forall is_byte (setUint8 view off v).
Proof.
  intros H. unfold setUint8. apply List.Forall_forall. intros b Hb.
  apply list_elem_of_In in Hb. apply list_elem_of_lookup in Hb. destruct Hb as [k Hk].
  destruct (decide (k = off)) as [->|Hne].
  - destruct (decide (off < length view)%nat) as [Hlt|Hge].
    + rewrite list_lookup_insert_eq in Hk by exact Hlt. injection Hk as <-.
      apply Z.mod_pos_bound. lia.
    + rewrite list_insert_ge in Hk by lia.
      apply (proj1 (List.Forall_forall _ _) H), list_elem_of_In.
      eapply list_elem_of_lookup_2. exact Hk.
  - rewrite list_lookup_insert_ne in Hk by congruence.
    apply (proj1 (List.Forall_forall _ _) H), list_elem_of_In.
    eapply list_elem_of_lookup_2. exact Hk.
Qed.

Lemma setUint16_bytes view off v :
  List.Forall is_byte view -> List.Forall is_byte (setUint16 view off v).
Proof. intros H. unfold setUint16. cbv zeta. now do 2 apply setUint8_bytes. Qed.

Lemma setUint32_bytes view off v :
  List.Forall is_byte view -> List.Forall is_byte (setUint32 view off v).
Proof. intros H. unfold setUint32. cbv zeta. now do 4 apply setUint8_bytes. Qed.

Lemma writeString_is_bytes s view off :
  List.Forall is_byte view -> List.Forall is_byte (writeString view off s).
Proof.
  revert view off. induction s as [|c s IH]; intros view off H; cbn [writeString].
  - exact H.
  - apply IH. now apply setUint8_bytes.
Qed.

Lemma fold_bytes {A : Type} (f : list Z -> A -> list Z) (l : list A) (view : list Z) :
  (forall v a, List.Forall is_byte v -> List.Forall is_byte (f v a)) ->
  List.Forall is_byte view -> List.Forall is_byte (fold_left f l view).
Proof.
  intros Hf. revert view. induction l as [|a l IH]; intros view H; cbn [fold_left].
  - exact H.
  - apply IH. now apply Hf.
Qed.

(** What [clamp] returns, case by case. *)
Lemma clamp_cases (x : Q) :
  (x <= -1 -> clamp x == -1) /\
  (-1 <= x -> x <= 1 -> clamp x == x) /\
  (1 <= x -> clamp x == 1).
Proof.
  unfold clamp.
  destruct (Q.min_spec 1 x) as [[H1 E1]|[H1 E1]];
    destruct (Q.max_spec (-1) (Qmin 1 x)) as [[H2 E2]|[H2 E2]];
    rewrite E1 in H2; rewrite E2, ?E1; repeat split; intros; lra.
Qed.

Lemma inject_Z_pred (z : Z) : inject_Z (z - 1) == inject_Z z - 1.
Proof. unfold Z.sub. rewrite inject_Z_plus, inject_Z_opp. reflexivity. Qed.

Lemma inject_Z_succ (z : Z) : inject_Z (z + 1) == inject_Z z + 1.
Proof. rewrite inject_Z_plus. reflexivity. Qed.

(** The 16-bit value of a sample, without the names of the encoder: the
    ends of the range for a sample outside [-1, 1], and otherwise the
    product of the sample with 32768 (negative) or 32767, rounded towards
    zero. *)
Lemma pcm16_explicit (x : Q) :
  (x <= -1 -> pcm16 x = (-32768)%Z) /\
  (-1 <= x -> x < 0 ->
   inject_Z (pcm16 x) - 1 < x * 32768 /\ x * 32768 <= inject_Z (pcm16 x)) /\
  (0 <= x -> x <= 1 ->
   inject_Z (pcm16 x) <= x * 32767 /\ x * 32767 < inject_Z (pcm16 x) + 1) /\
  (1 <= x -> pcm16 x = 32767%Z).
Proof.
  destruct (clamp_cases x) as (C1 & C2 & C3).
  unfold pcm16, scale, trunc.
  split; [|split; [|split]].
  - intros H. specialize (C1 H).
    destruct (Qlt_le_dec (clamp x) 0) as [N|P]; [|lra].
    destruct (Qlt_le_dec (clamp x * 32768) 0) as [N'|P']; [|lra].
    assert (E : clamp x * 32768 == inject_Z (-32768)) by (rewrite C1; reflexivity).
    rewrite (Qceiling_comp _ _ E). apply Qceiling_Z.
  - intros H1 H2. specialize (C2 H1 ltac:(lra)).
    destruct (Qlt_le_dec (clamp x) 0) as [N|P]; [|lra].
    destruct (Qlt_le_dec (clamp x * 32768) 0) as [N'|P']; [|lra].
    assert (E : clamp x * 32768 == x * 32768) by now rewrite C2.
    rewrite (Qceiling_comp _ _ E).
    pose proof (Qle_ceiling (x * 32768)) as U.
    pose proof (Qceiling_lt (x * 32768)) as L.
    rewrite inject_Z_pred in L. split; assumption.
  - intros H1 H2. specialize (C2 ltac:(lra) H2).
    destruct (Qlt_le_dec (clamp x) 0) as [N|P]; [lra|].
    destruct (Qlt_le_dec (clamp x * 32767) 0) as [N'|P']; [lra|].
    assert (E : clamp x * 32767 == x * 32767) by now rewrite C2.
    rewrite (Qfloor_comp _ _ E).
    pose proof (Qfloor_le (x * 32767)) as L.
    pose proof (Qlt_floor (x * 32767)) as U.
    rewrite inject_Z_succ in U. split; assumption.
  - intros H. specialize (C3 H).
    destruct (Qlt_le_dec (clamp x) 0) as [N|P]; [lra|].
    destruct (Qlt_le_dec (clamp x * 32767) 0) as [N'|P']; [lra|].
    assert (E : clamp x * 32767 == inject_Z 32767) by (rewrite C3; reflexivity).
    rewrite (Qfloor_comp _ _ E). apply Qfloor_Z.
Qed.

(** The two bytes of a signed 16-bit value, little-endian. *)
Lemma getInt16_bytes (view : list Z) (off : nat) :
  is_byte (nth off view 0%Z) -> is_byte (nth (off + 1) view 0%Z) ->
  nth off view 0%Z = (getInt16 view off mod 256)%Z /\
  nth (off + 1) view 0%Z = ((getInt16 view off mod 65536) / 256)%Z.
Proof.
  unfold is_byte, getInt16. cbv zeta.
  generalize (nth off view 0%Z) (nth (off + 1) view 0%Z). intros a b Ha Hb.
  destruct (Z.ltb_spec (a + 256 * b) 32768) as [H|H].
  - rewrite (Z.mod_small (a + 256 * b) 65536) by lia. split.
    + apply (Z.mod_unique _ _ b); lia.
    + apply (Z.div_unique _ _ _ a); lia.
  - assert (E : ((a + 256 * b - 65536) mod 65536 = a + 256 * b)%Z).
    { symmetry. apply (Z.mod_unique _ _ (-1)); lia. }
    rewrite E. split.
    + apply (Z.mod_unique _ _ (b - 256)); lia.
    + apply (Z.div_unique _ _ _ a); lia.
Qed.

Lemma nth_is_byte (view : list Z) (k : nat) :
  List.Forall is_byte view -> is_byte (nth k view 0%Z).
Proof.
  intros H. destruct (Nat.lt_ge_cases k (length view)) as [L|G].
  - apply (proj1 (List.Forall_forall _ _) H). now apply nth_In.
  - rewrite nth_overflow by exact G. unfold is_byte. lia.
Qed.

(** Every element of the buffer [bufferToWave] returns is a byte. *)
Lemma bufferToWave_is_bytes (abuffer : AudioBuffer) :
  List.Forall is_byte (bufferToWave abuffer).
Proof.
  unfold bufferToWave. cbv zeta.
  apply fold_bytes.
  - intros v i Hv. unfold channel_step. apply fold_bytes; [|exact Hv].
    intros w j Hw. unfold frame_step, setInt16. cbv zeta. now apply setUint16_bytes.
  - unfold write_header. cbv zeta.
    repeat first [ apply setUint32_bytes | apply setUint16_bytes
                 | apply writeString_is_bytes ].
    unfold ArrayBuffer. apply List.Forall_forall.
    intros b Hb. apply repeat_spec in Hb. subst b. unfold is_byte. lia.
Qed.

Lemma bufferToWave_samples (abuffer : AudioBuffer) :
  length (bufferToWave abuffer)
  = (44 + 2 * numberOfChannels abuffer * frames abuffer)%nat /\
  forall i j, (i < numberOfChannels abuffer)%nat -> (j < frames abuffer)%nat ->
    getInt16 (bufferToWave abuffer) (index (numberOfChannels abuffer) i j)
    = pcm16 (getChannelData abuffer i j).
Proof.
  unfold bufferToWave. cbv zeta.
  destruct (channels_fold abuffer (numberOfChannels abuffer)
              (write_header abuffer (frames abuffer * numberOfChannels abuffer * 2)
                 (ArrayBuffer (44 + frames abuffer * numberOfChannels abuffer * 2)))
              (Nat.le_refl _) _ eq_refl) as (L & G & _).
  revert L G.
  generalize (fold_left (channel_step abuffer) (seq 0 (numberOfChannels abuffer))
    (write_header abuffer (frames abuffer * numberOfChannels abuffer * 2)
       (ArrayBuffer (44 + frames abuffer * numberOfChannels abuffer * 2)))).
  intros out L G.
  rewrite length_write_header in L, G. unfold ArrayBuffer in L, G.
  rewrite repeat_length in L, G.
  split; [lia|].
  intros i j Hi Hj.
  apply G; [exact Hi | exact Hj |].
  unfold index.
  assert (j * numberOfChannels abuffer + i
          < frames abuffer * numberOfChannels abuffer)%nat.
  { pose proof (Nat.mul_le_mono_r (S j) (frames abuffer)
                  (numberOfChannels abuffer) Hj). lia. }
  lia.
Qed.

(** C10 — for an audio buffer with C channels and F frames, [bufferToWave]
    returns a buffer of exactly 44 + 2*C*F bytes.  The two bytes at offset
    [44 + (j*C + i)*2] are, low byte first, the signed 16-bit value [v] of
    frame [j] of channel [i], which lies in [[-32768, 32767]]: a sample at
    or below -1 is stored as -32768 and one at or above 1 as 32767, the
    values of the clamped sample; between, [v] is the product of the
    sample with 32768 (0x8000) when it is negative and with 32767 (0x7FFF)
    otherwise, rounded towards zero. *)
Theorem bufferToWave_spec (abuffer : AudioBuffer) :
  length (bufferToWave abuffer)
  = (44 + 2 * numberOfChannels abuffer * frames abuffer)%nat /\
  forall i j, (i < numberOfChannels abuffer)%nat -> (j < frames abuffer)%nat ->
    exists v : Z,
      nth (44 + (j * numberOfChannels abuffer + i) * 2) (bufferToWave abuffer) 0%Z
      = (v mod 256)%Z /\
      nth (44 + (j * numberOfChannels abuffer + i) * 2 + 1) (bufferToWave abuffer) 0%Z
      = ((v mod 65536) / 256)%Z /\
      (-32768 <= v <= 32767)%Z /\
      (getChannelData abuffer i j <= -1 -> v = (-32768)%Z) /\
      (-1 <= getChannelData abuffer i j -> getChannelData abuffer i j < 0 ->
       inject_Z v - 1 < getChannelData abuffer i j * 32768 /\
       getChannelData abuffer i j * 32768 <= inject_Z v) /\
      (0 <= getChannelData abuffer i j -> getChannelData abuffer i j <= 1 ->
       inject_Z v <= getChannelData abuffer i j * 32767 /\
       getChannelData abuffer i j * 32767 < inject_Z v + 1) /\
      (1 <= getChannelData abuffer i j -> v = 32767%Z).
Proof.
  destruct (bufferToWave_samples abuffer) as [L G].
  split; [exact L|].
  intros i j Hi Hj. exists (pcm16 (getChannelData abuffer i j)).
  pose proof (bufferToWave_is_bytes abuffer) as B.
  destruct (getInt16_bytes (bufferToWave abuffer)
              (index (numberOfChannels abuffer) i j)
              (nth_is_byte _ _ B) (nth_is_byte _ _ B)) as [B0 B1].
  rewrite (G i j Hi Hj) in B0, B1. unfold index in B0, B1.
  split; [exact B0|]. split; [exact B1|].
  split; [apply pcm16_bounds|]. apply pcm16_explicit.
Qed.

Lemma bufferToWave_spec_witness :
  let abuffer :=
    mkAudioBuffer 2 2 44100 (fun i j => inject_Z (Z.of_nat i) - (1 # 3)) in
  (nth 44 (bufferToWave abuffer) 0 = 86 /\ nth 45 (bufferToWave abuffer) 0 = 213 /\
   nth 50 (bufferToWave abuffer) 0 = 84 /\ nth 51 (bufferToWave abuffer) 0 = 85)%Z.
Proof.
  intros abuffer.
  destruct (bufferToWave_spec abuffer) as [_ H].
  destruct (H 0%nat 0%nat) as (v & B0 & B1 & _ & _ & N & _);
    [cbn; lia | cbn; lia |].
  destruct (H 1%nat 1%nat) as (w & C0 & C1 & _ & _ & _ & P & _);
    [cbn; lia | cbn; lia |].
  cbn [getChannelData abuffer] in N, P.
  destruct N as [L U]; [unfold Qle; cbn; lia | unfold Qlt; cbn; lia |].
  destruct P as [L' U']; [unfold Qle; cbn; lia | unfold Qle; cbn; lia |].
  assert (Ev : v = (-10922)%Z).
  { unfold Qlt, Qle in L, U. cbn in L, U. lia. }
  assert (Ew : w = 21844%Z).
  { unfold Qlt, Qle in L', U'. cbn in L', U'. lia. }
  subst v w. cbn [numberOfChannels abuffer Nat.mul Nat.add] in B0, B1, C0, C1.
  repeat split; assumption.
Defined.

End WavFacts.

(** ** Job derivation *)

Module DeriveFacts.
Import Pipeline.

Lemma no_slash_cons (c : ascii) (s : string) :
  no_slash (String c s) = true <-> c <> "/"%char /\ no_slash s = true.
Proof.
  cbn [no_slash]. rewrite andb_true_iff, negb_true_iff.
  destruct (Ascii.eqb_spec c "/"); intuition congruence.
Qed.

(** With no slash before it, the first slash of a string is found where it
    was put. *)
Lemma slash_split_inj (a b x y : string) :
  no_slash a = true -> no_slash b = true ->
  a +:+ String "/" x = b +:+ String "/" y -> a = b /\ x = y.
Proof.
  revert b. induction a as [|c a IH]; intros [|d b] Ha Hb E; cbn in E.
  - injection E as ->. split; reflexivity.
  - injection E as <- _. apply no_slash_cons in Hb. destruct Hb as [Hb _].
    congruence.
  - injection E as -> _. apply no_slash_cons in Ha. destruct Ha as [Ha _].
    congruence.
  - injection E as -> E. apply no_slash_cons in Ha, Hb.
    destruct (IH b (proj2 Ha) (proj2 Hb) E) as [-> ->]. split; reflexivity.
Qed.

Lemma no_slash_split (sep : ascii) (s : string) :
  no_slash s = true -> List.Forall (fun p => no_slash p = true) (split_on sep s).
Proof.
  induction s as [|c s IH]; intros H; cbn [split_on].
  - repeat constructor.
  - apply no_slash_cons in H. destruct H as [Hc Hs]. specialize (IH Hs).
    destruct (Ascii.eqb c sep).
    + constructor; [reflexivity | exact IH].
    + destruct (split_on sep s) as [|h t].
      * constructor; [|constructor]. apply no_slash_cons. now split.
      * inversion IH as [|? ? Hh Ht]; subst.
        constructor; [|exact Ht]. apply no_slash_cons. now split.
Qed.

Lemma no_slash_substring (s : string) (n m : nat) :
  no_slash s = true -> no_slash (substring n m s) = true.
Proof.
  revert n m. induction s as [|c s IH]; intros n m H.
  - destruct n, m; reflexivity.
  - apply no_slash_cons in H. destruct H as [Hc Hs].
    destruct n as [|n]; destruct m as [|m]; cbn [substring]; try reflexivity.
    + apply no_slash_cons. split; [exact Hc | now apply IH].
    + now apply IH.
    + now apply IH.
Qed.

Lemma split_slash_id (s : string) :
  no_slash s = true -> split_on "/" s = [s].
Proof.
  induction s as [|c s IH]; intros H; cbn [split_on]; [reflexivity|].
  apply no_slash_cons in H. destruct H as [Hc Hs].
  destruct (Ascii.eqb_spec c "/") as [E|_]; [contradiction|].
  now rewrite (IH Hs).
Qed.

Lemma no_slash_basename_ext (file ext : string) :
  no_slash file = true -> no_slash (basename_ext file ext) = true.
Proof.
  intros H. unfold basename_ext, basename, last_elem.
  rewrite (split_slash_id file H). cbn [List.last].
  destruct (String.eqb file ext); [reflexivity|].
  destruct (endsWith file ext && negb false); [|exact H].
  now apply no_slash_substring.
Qed.

(** The id read from the name of a directory entry, as it is printed in
    the [outputId], has no slash. *)
Lemma no_slash_presetId (file : string) :
  no_slash file = true -> no_slash (interpolate (presetId file)) = true.
Proof.
  intros H. unfold presetId.
  pose proof (no_slash_split "_" _ (no_slash_basename_ext file ".json" H)) as HF.
  destruct (split_on "_" (basename_ext file ".json") !! 1%nat) as [id|] eqn:E;
    [|reflexivity].
  cbn [interpolate].
  apply (proj1 (List.Forall_forall _ _) HF).
  apply list_elem_of_In. eapply list_elem_of_lookup_2. exact E.
Qed.

Section Derivation.

Variable param_values : string -> list Q.
Variable fs : gmap string string.

Lemma reverb_fold (audioFile reverbDir : string) (files : list string)
    (acc : list Job) :
  fold_left (reverb_step param_values fs audioFile reverbDir) files acc
  = acc ++ map (reverb_job param_values fs reverbDir audioFile) files.
Proof.
  revert acc. induction files as [|f files IH]; intros acc; cbn [fold_left map].
  - now rewrite app_nil_r.
  - rewrite IH. unfold reverb_step at 1. cbv zeta.
    now rewrite <- app_assoc.
Qed.

Lemma eq_inner_fold (eqDir outputDir audioFile : string) (files : list string)
    (pd : list Job) (sk : list string) :
  fold_left (eq_step param_values fs eqDir outputDir audioFile) files (pd, sk)
  = (pd ++ map (eq_job param_values fs eqDir audioFile)
             (List.filter (fun e => negb (eq_rendered fs outputDir audioFile e)) files),
     sk ++ map (eq_output_name audioFile)
             (List.filter (fun e => eq_rendered fs outputDir audioFile e) files)).
Proof.
  revert pd sk. induction files as [|f files IH]; intros pd sk;
    cbn [fold_left List.filter map].
  - now rewrite !app_nil_r.
  - unfold eq_step at 2. cbv zeta.
    change (existsSync fs (join outputDir
              ("eq_" +:+ interpolate (presetId f) +:+ "/"
               +:+ basename_ext audioFile ".wav" +:+ ".wav")))
      with (eq_rendered fs outputDir audioFile f).
    destruct (eq_rendered fs outputDir audioFile f); cbn [negb map];
      rewrite IH, <- app_assoc; reflexivity.
Qed.

Lemma eq_outer_fold (eqDir outputDir : string) (audioFiles eqFiles : list string)
    (pd : list Job) (sk : list string) :
  fold_left
    (fun st audioFile =>
       fold_left (eq_step param_values fs eqDir outputDir audioFile) eqFiles st)
    audioFiles (pd, sk)
  = (pd ++ flat_map (fun a =>
             map (eq_job param_values fs eqDir a)
               (List.filter (fun e => negb (eq_rendered fs outputDir a e)) eqFiles))
             audioFiles,
     sk ++ flat_map (fun a =>
             map (eq_output_name a)
               (List.filter (fun e => eq_rendered fs outputDir a e) eqFiles))
             audioFiles).
Proof.
  revert pd sk. induction audioFiles as [|a audioFiles IH]; intros pd sk;
    cbn [fold_left flat_map].
  - now rewrite !app_nil_r.
  - rewrite eq_inner_fold, IH, <- !app_assoc. reflexivity.
Qed.

(** The two output ids are equal only for equal ids and equal source
    names. *)
Lemma outputId_inj (fx id1 id2 name1 name2 : string) :
  no_slash id1 = true -> no_slash id2 = true ->
  fx +:+ id1 +:+ "/" +:+ name1 = fx +:+ id2 +:+ "/" +:+ name2 ->
  id1 = id2 /\ name1 = name2.
Proof.
  intros H1 H2 E.
  assert (E' : id1 +:+ String "/" name1 = id2 +:+ String "/" name2).
  { revert E. clear. induction fx as [|c fx IH]; cbn; intros E; [exact E|].
    injection E as E. now apply IH. }
  now apply slash_split_inj.
Qed.

Lemma filter_all_true {A : Type} (f : A -> bool) (l : list A) :
  (forall x, In x l -> f x = true) -> List.filter f l = l.
Proof.
  induction l as [|x l IH]; intros H; cbn [List.filter]; [reflexivity|].
  rewrite (H x (or_introl eq_refl)). f_equal. apply IH.
  intros y Hy. apply H. now right.
Qed.

Lemma flat_map_eq_in {A B : Type} (f g : A -> list B) (l : list A) :
  (forall a, In a l -> f a = g a) -> flat_map f l = flat_map g l.
Proof.
  induction l as [|x l IH]; intros H; cbn [flat_map]; [reflexivity|].
  rewrite (H x (or_introl eq_refl)). f_equal. apply IH.
  intros y Hy. apply H. now right.
Qed.

(** C6 (amended) — the reverb script derives the product of its audio file
    and the preset files, in order; the equalizer script derives the
    product of the audio files and the preset files, in order, without the
    pairs whose output file exists already, hence the whole product when
    none exists.  Each job carries the output id
    [<fx>_<id>/<sourceName>], where [<id>] is the second field, between
    underscores, of the preset file's base name and [<sourceName>] the base
    name of the audio file without [.wav].  Two output ids are equal exactly
    when their [<id>] and [<sourceName>] are equal. *)
Theorem derived_jobs (audioDir eqDir reverbDir outputDir audioFile : string)
    (audioListing eqListing reverbListing : list string) :
  let audioFiles :=
    map (fun file => join audioDir file)
      (List.filter (fun file => endsWith file ".wav") audioListing) in
  let eqFiles := List.filter (fun file => endsWith file ".json") eqListing in
  let reverbFiles := List.filter (fun file => endsWith file ".json") reverbListing in
  prepare_reverb param_values fs audioFile reverbDir reverbListing
  = product (reverb_job param_values fs reverbDir) [audioFile] reverbFiles /\
  fst (prepare_eq param_values fs audioDir eqDir outputDir audioListing eqListing)
  = flat_map (fun a =>
      map (eq_job param_values fs eqDir a)
        (List.filter (fun e => negb (eq_rendered fs outputDir a e)) eqFiles))
      audioFiles /\
  ((forall a e, In a audioFiles -> In e eqFiles ->
      eq_rendered fs outputDir a e = false) ->
   fst (prepare_eq param_values fs audioDir eqDir outputDir audioListing eqListing)
   = product (eq_job param_values fs eqDir) audioFiles eqFiles) /\
  (forall e1 e2 a1 a2, no_slash e1 = true -> no_slash e2 = true ->
     (eq_outputId e1 a1 = eq_outputId e2 a2 <->
      interpolate (presetId e1) = interpolate (presetId e2) /\
      basename_ext a1 ".wav" = basename_ext a2 ".wav") /\
     (reverb_outputId e1 a1 = reverb_outputId e2 a2 <->
      interpolate (presetId e1) = interpolate (presetId e2) /\
      basename_ext a1 ".wav" = basename_ext a2 ".wav")).
Proof.
  cbv zeta.
  assert (Heq : fst (prepare_eq param_values fs audioDir eqDir outputDir
                       audioListing eqListing)
    = flat_map (fun a =>
        map (eq_job param_values fs eqDir a)
          (List.filter (fun e => negb (eq_rendered fs outputDir a e))
             (List.filter (fun file => endsWith file ".json") eqListing)))
        (map (fun file => join audioDir file)
           (List.filter (fun file => endsWith file ".wav") audioListing))).
  { unfold prepare_eq. cbv zeta. rewrite eq_outer_fold. reflexivity. }
  split; [|split; [exact Heq|split]].
  - unfold prepare_reverb, product. cbv zeta. rewrite reverb_fold.
    cbn [flat_map app]. now rewrite app_nil_r.
  - intros Hnone. rewrite Heq. unfold product.
    apply flat_map_eq_in. intros a Ha. f_equal.
    apply filter_all_true. intros e He. now rewrite (Hnone a e Ha He).
  - intros e1 e2 a1 a2 H1 H2.
    pose proof (no_slash_presetId e1 H1) as N1.
    pose proof (no_slash_presetId e2 H2) as N2.
    unfold eq_outputId, reverb_outputId. split; split.
    + now apply outputId_inj.
    + now intros [-> ->].
    + now apply outputId_inj.
    + now intros [-> ->].
Qed.

End Derivation.

Lemma derived_jobs_witness :
  fst (prepare_eq (fun _ => []) ∅ "/audio" "/eq" "/out"
         ["drums.wav"; "piano.wav"] ["eq_1.json"; "eq_2.json"])
  = product (eq_job (fun _ => []) ∅ "/eq")
      ["/audio/drums.wav"; "/audio/piano.wav"] ["eq_1.json"; "eq_2.json"].
Proof.
  destruct (derived_jobs (fun _ => []) ∅ "/audio" "/eq" "/rv" "/out"
              "/audio/drums.wav" ["drums.wav"; "piano.wav"]
              ["eq_1.json"; "eq_2.json"] []) as (_ & _ & H & _).
  apply H. intros a e _ _. reflexivity.
Defined.

(** C6 as stated fails.  The preset files [eq_7_a.json] and [eq_7_b.json]
    are distinct and give, for the same source, the same output id; and
    once the output of a pair exists, the equalizer script derives the
    list without that pair. *)
Lemma derived_jobs_counterexample :
  map outputId
    (fst (prepare_eq (fun _ => []) ∅ "/audio" "/eq" "/out"
            ["drums.wav"] ["eq_7_a.json"; "eq_7_b.json"]))
  = ["eq_7/drums"; "eq_7/drums"]%string /\
  map outputId
    (fst (prepare_eq (fun _ => []) ∅ "/audio" "/eq" "/out"
            ["drums.wav"] ["eq_1.json"; "eq_2.json"]))
  = ["eq_1/drums"; "eq_2/drums"]%string /\
  map outputId
    (fst (prepare_eq (fun _ => []) {["/out/eq_1/drums.wav"%string := "RIFF"%string]}
            "/audio" "/eq" "/out" ["drums.wav"] ["eq_1.json"; "eq_2.json"]))
  = ["eq_2/drums"]%string.
Proof. split; [|split]; vm_compute; reflexivity. Qed.

End DeriveFacts.

(** ** Batch dispatch *)

Module BatchFacts.
Import Pipeline.

Section Batch.

Variable render : Job -> option string.
Variable probe_fails : string -> bool.
Variable outputDir : string.
Variable presetDir : string.

Local Abbreviation check_step := (check_step probe_fails outputDir).
Local Abbreviation run_wave := (run_wave render outputDir presetDir).
Local Abbreviation output_found := (output_found probe_fails outputDir).

(** *** A failed probe *)

Lemma check_step_failed (jobs : list Job) (pg : Page) (srv : Server) (job : Job) :
  probe_fails (outputId job) = true ->
  check_step (jobs, pg, srv) job
  = (jobs ++ [job], console_error pg "Error checking file existence:", srv).
Proof.
  intros H. unfold Pipeline.check_step, checkFileExists. now rewrite H.
Qed.

(** The first loop of a wave only adds to [jobsToProcess] and to the
    console. *)
Lemma check_fold_mono (batch : list Job) (jobs : list Job) (pg : Page) (srv : Server) :
  forall jobs' pg' srv',
  fold_left check_step batch (jobs, pg, srv) = (jobs', pg', srv') ->
  (forall j, In j jobs -> In j jobs') /\
  (forall m, In m (consoleErrors pg) -> In m (consoleErrors pg')).
Proof.
  revert jobs pg srv. induction batch as [|b batch IH];
    intros jobs pg srv jobs' pg' srv' E; cbn [fold_left] in E.
  - injection E as <- <- <-. split; auto.
  - destruct (check_step (jobs, pg, srv) b) as [[jobs1 pg1] srv1] eqn:E1.
    destruct (IH _ _ _ _ _ _ E) as [M1 M2].
    unfold Pipeline.check_step, checkFileExists in E1.
    destruct (probe_fails (outputId b)).
    + injection E1 as <- <- <-. split.
      * intros j Hj. apply M1, in_or_app. now left.
      * intros m Hm. apply M2. cbn. apply in_or_app. now left.
    + destruct (check_file outputDir (outputId b) srv) as [ex srv2].
      destruct ex; injection E1 as <- <- <-; split; auto.
      intros j Hj. apply M1, in_or_app. now left.
Qed.

Lemma check_fold_failed (batch : list Job) (job : Job) :
  In job batch -> probe_fails (outputId job) = true ->
  forall jobs pg srv jobs' pg' srv',
  fold_left check_step batch (jobs, pg, srv) = (jobs', pg', srv') ->
  In job jobs' /\
  In "Error checking file existence:"%string (consoleErrors pg').
Proof.
  intros Hin Hf. induction batch as [|b batch IH]; [destruct Hin|].
  intros jobs pg srv jobs' pg' srv' E. cbn [fold_left] in E.
  destruct Hin as [->|Hin].
  - rewrite (check_step_failed _ _ _ _ Hf) in E.
    destruct (check_fold_mono _ _ _ _ _ _ _ E) as [M1 M2]. split.
    + apply M1, in_or_app. right. now left.
    + apply M2. cbn. apply in_or_app. right. now left.
  - destruct (check_step (jobs, pg, srv) b) as [[jobs1 pg1] srv1].
    exact (IH Hin _ _ _ _ _ _ E).
Qed.

(** [processAudio] is called once for each job handed to the wave. *)
Lemma render_fold_calls (jobs : list Job) :
  forall pg saves ok pg' saves' ok',
  fold_left (render_step render) jobs (pg, saves, ok) = (pg', saves', ok') ->
  processAudioCalls pg' = processAudioCalls pg ++ map outputId jobs.
Proof.
  induction jobs as [|j jobs IH]; intros pg saves ok pg' saves' ok' E;
    cbn [fold_left] in E.
  - injection E as <- _ _. cbn. now rewrite app_nil_r.
  - unfold render_step at 2 in E. destruct (render j).
    + rewrite (IH _ _ _ _ _ _ E). cbn. now rewrite <- app_assoc.
    + rewrite (IH _ _ _ _ _ _ E). cbn. now rewrite <- app_assoc.
Qed.

Lemma save_fold_calls (fx : string) (all_done : Page -> bool)
    (saves : list (string * string)) :
  forall pg srv pg' srv',
  fold_left (save_step outputDir presetDir fx all_done) saves (pg, srv) = (pg', srv') ->
  processAudioCalls pg' = processAudioCalls pg.
Proof.
  induction saves as [|r saves IH]; intros pg srv pg' srv' E; cbn [fold_left] in E.
  - now injection E as <- _.
  - unfold save_step at 2 in E. destruct (all_done pg).
    + now rewrite (IH _ _ _ _ E).
    + now rewrite (IH _ _ _ _ E).
Qed.

Lemma run_wave_calls (fx : string) (all_done : Page -> bool) (jobs : list Job)
    (pg : Page) (srv : Server) :
  processAudioCalls (fst (fst (run_wave fx all_done jobs pg srv)))
  = processAudioCalls pg ++ map outputId jobs.
Proof.
  unfold Pipeline.run_wave.
  destruct (fold_left (render_step render) jobs (pg, [], true))
    as [[pg1 saves] ok] eqn:E1.
  destruct (fold_left (save_step outputDir presetDir fx all_done) saves (pg1, srv))
    as [pg2 srv2] eqn:E2.
  cbn [fst]. rewrite (save_fold_calls _ _ _ _ _ _ _ E2).
  exact (render_fold_calls _ _ _ _ _ _ _ E1).
Qed.

(** C5 (amended) — when the probe for a job of a wave fails, the error is
    written to the console, without the job's identity, and the probe
    answers [false]: the job is put among the jobs to process and
    [processAudio] is called for it, as for a job whose output does not
    exist. *)
Theorem failed_probe_is_dispatched (fx : string) (all_done : Page -> bool)
    (batch : list Job) (job : Job) (pg : Page) (srv : Server) :
  In job batch -> probe_fails (outputId job) = true ->
  let '(jobsToProcess, pg', srv') := fold_left check_step batch ([], pg, srv) in
  fst (fst (checkFileExists probe_fails outputDir (outputId job) pg srv)) = false /\
  In job jobsToProcess /\
  In "Error checking file existence:"%string (consoleErrors pg') /\
  In (outputId job)
    (processAudioCalls (fst (fst (run_wave fx all_done jobsToProcess pg' srv')))).
Proof.
  intros Hin Hf.
  destruct (fold_left check_step batch ([], pg, srv)) as [[jobs' pg'] srv'] eqn:E.
  destruct (check_fold_failed batch job Hin Hf _ _ _ _ _ _ E) as [H1 H2].
  split; [unfold checkFileExists; now rewrite Hf|].
  split; [exact H1|]. split; [exact H2|].
  rewrite run_wave_calls. apply in_or_app. right.
  apply in_map_iff. exists job. split; [reflexivity | exact H1].
Qed.

(** *** A run over outputs that all exist *)

Lemma fsys_count_skipped_n (srv : Server) (n : nat) :
  fsys (count_skipped_n srv n) = fsys srv /\
  isComplete (count_skipped_n srv n) = isComplete srv.
Proof.
  revert srv. induction n as [|n IH]; intros srv; cbn [count_skipped_n].
  - split; reflexivity.
  - destruct (IH (count_skipped srv)) as [-> ->]. split; reflexivity.
Qed.

Lemma count_skipped_n_add (srv : Server) (n m : nat) :
  count_skipped_n (count_skipped_n srv n) m = count_skipped_n srv (n + m).
Proof.
  revert srv. induction n as [|n IH]; intros srv; cbn [count_skipped_n Nat.add].
  - reflexivity.
  - apply IH.
Qed.

Lemma skip_all_fields (ids : list string) (pg : Page) :
  totalJobs (skip_all pg ids) = totalJobs pg /\
  completedJobs (skip_all pg ids) = completedJobs pg /\
  skippedJobs (skip_all pg ids) = (skippedJobs pg + length ids)%nat /\
  skippedFiles (skip_all pg ids) = skippedFiles pg ++ ids /\
  processAudioCalls (skip_all pg ids) = processAudioCalls pg /\
  completePosts (skip_all pg ids) = completePosts pg /\
  consoleErrors (skip_all pg ids) = consoleErrors pg.
Proof.
  unfold skip_all. revert pg.
  induction ids as [|id ids IH]; intros pg; cbn [fold_left].
  - rewrite app_nil_r, Nat.add_0_r. repeat split; reflexivity.
  - destruct (IH (skip pg id)) as (-> & -> & -> & -> & -> & -> & ->).
    cbn. rewrite <- app_assoc. repeat split; try reflexivity. lia.
Qed.

Lemma check_fold_found (batch : list Job) :
  forall jobs pg srv,
  (forall job, In job batch -> output_found (fsys srv) job) ->
  fold_left check_step batch (jobs, pg, srv)
  = (jobs, skip_all pg (map outputId batch), count_skipped_n srv (length batch)).
Proof.
  induction batch as [|b batch IH]; intros jobs pg srv H; cbn [fold_left].
  - reflexivity.
  - destruct (H b (or_introl eq_refl)) as (Hp & Hid & Hex).
    assert (E : check_step (jobs, pg, srv) b
                = (jobs, skip pg (outputId b), count_skipped srv)).
    { unfold Pipeline.check_step, checkFileExists, check_file. rewrite Hp.
      destruct (String.eqb_spec (outputId b) "") as [E|_]; [contradiction|].
      cbv zeta. rewrite Hex. reflexivity. }
    rewrite E. rewrite IH; [reflexivity|].
    intros job Hj. apply H. now right.
Qed.

Lemma reverb_waves_found (batchData : list Job) (fuel : nat) :
  forall i pg srv,
  (forall job, In job batchData -> output_found (fsys srv) job) ->
  (length batchData <= i + 5 * fuel)%nat ->
  reverb_waves render probe_fails outputDir presetDir fuel i batchData pg srv
  = (skip_all pg (map outputId (drop i batchData)),
     count_skipped_n srv (length (drop i batchData)), true).
Proof.
  induction fuel as [|fuel IH]; intros i pg srv H Hfuel; cbn [reverb_waves].
  - rewrite drop_ge by lia. reflexivity.
  - destruct (Nat.ltb_spec i (length batchData)) as [Hi|Hi].
    + unfold slice. replace (i + 5 - i)%nat with 5%nat by lia.
      rewrite check_fold_found.
      2:{ intros job Hj. apply H.
          apply list_elem_of_In. apply list_elem_of_In in Hj.
          apply (subseteq_drop i), (subseteq_take 5). exact Hj. }
      cbn [Pipeline.run_wave fold_left].
      rewrite IH.
      2:{ intros job Hj. rewrite (proj1 (fsys_count_skipped_n _ _)). now apply H. }
      2:{ lia. }
      rewrite count_skipped_n_add.
      unfold skip_all. rewrite <- fold_left_app, <- map_app, <- length_app.
      rewrite <- (drop_drop batchData 5 i), take_drop. reflexivity.
    + rewrite drop_ge by lia. reflexivity.
Qed.

(** The reverb page over jobs whose outputs all exist: [processAudio] is
    never called, every job is counted as skipped, and [/complete] is
    posted once, after the loop. *)
Lemma reverb_rerun (batchData : list Job) (pg : Page) (srv : Server) :
  (forall job, In job batchData -> output_found (fsys srv) job) ->
  forall pg' srv',
  processBatch_reverb render probe_fails outputDir presetDir batchData pg srv
  = (pg', srv') ->
  processAudioCalls pg' = processAudioCalls pg /\
  totalJobs pg' = length batchData /\
  completedJobs pg' = 0%nat /\
  skippedJobs pg' = length batchData /\
  skippedFiles pg' = map outputId batchData /\
  completePosts pg' = S (completePosts pg) /\
  isComplete srv' = true /\
  fsys srv' = fsys srv.
Proof.
  intros H pg' srv'. unfold processBatch_reverb. cbv zeta.
  rewrite reverb_waves_found by (try assumption; lia).
  rewrite drop_0.
  destruct (skip_all_fields (map outputId batchData)
              (start_batch pg (length batchData)))
    as (F1 & F2 & F3 & F4 & F5 & F6 & F7).
  rewrite length_map in F3.
  destruct (fsys_count_skipped_n srv (length batchData)) as [S1 S2].
  revert F1 F2 F3 F4 F5 F6 F7 S1 S2.
  generalize (skip_all (start_batch pg (length batchData)) (map outputId batchData)).
  generalize (count_skipped_n srv (length batchData)).
  intros srv1 pg1 F1 F2 F3 F4 F5 F6 F7 S1 S2.
  cbn [start_batch totalJobs completedJobs skippedJobs skippedFiles
       processAudioCalls completePosts consoleErrors] in F1, F2, F3, F4, F5, F6, F7.
  assert (D : reverb_done pg1 = true).
  { unfold reverb_done. rewrite F1, F2, F3. apply Nat.leb_le. lia. }
  rewrite D. intros E. injection E as <- <-.
  cbn [post_complete complete totalJobs completedJobs skippedJobs skippedFiles
       processAudioCalls completePosts isComplete fsys].
  rewrite F1, F2, F3, F4, F5, F6, S1. repeat split; reflexivity.
Qed.

(** *** The loops end within their fuel

    Each round moves the index by the size of a wave, so [batchData.length]
    rounds are enough: more fuel does not change the result. *)

Lemma reverb_waves_fuel (batchData : list Job) (fuel k : nat) :
  forall i pg srv,
  (length batchData <= i + 5 * fuel)%nat ->
  reverb_waves render probe_fails outputDir presetDir (fuel + k) i batchData pg srv
  = reverb_waves render probe_fails outputDir presetDir fuel i batchData pg srv.
Proof.
  induction fuel as [|fuel IH]; intros i pg srv H.
  - cbn [Nat.add reverb_waves]. destruct k as [|k]; [reflexivity|].
    cbn [reverb_waves].
    destruct (Nat.ltb_spec i (length batchData)); [lia | reflexivity].
  - cbn [Nat.add reverb_waves].
    destruct (i <? length batchData)%nat; [|reflexivity].
    destruct (fold_left (Pipeline.check_step probe_fails outputDir)
                (slice batchData i (i + 5)) ([], pg, srv)) as [[jobs pg1] srv1].
    destruct (Pipeline.run_wave render outputDir presetDir "reverb" reverb_done
                jobs pg1 srv1) as [[pg2 srv2] ok].
    destruct ok; [|reflexivity]. apply IH. lia.
Qed.

Lemma eq_waves_fuel (batchData : list Job) (fuel k : nat) :
  forall i pg srv,
  (length batchData <= i + 8 * fuel)%nat ->
  eq_waves render outputDir presetDir (fuel + k) i batchData pg srv
  = eq_waves render outputDir presetDir fuel i batchData pg srv.
Proof.
  induction fuel as [|fuel IH]; intros i pg srv H.
  - cbn [Nat.add eq_waves]. destruct k as [|k]; [reflexivity|].
    cbn [eq_waves].
    destruct (Nat.ltb_spec i (length batchData)); [lia | reflexivity].
  - cbn [Nat.add eq_waves].
    destruct (i <? length batchData)%nat; [|reflexivity].
    destruct (Pipeline.run_wave render outputDir presetDir "eq" eq_done
                (slice batchData i (i + 8)) pg srv) as [[pg2 srv2] ok].
    destruct ok; [|reflexivity]. apply IH. lia.
Qed.

(** The equalizer page over an empty job list: nothing is rendered and
    [/complete] is not posted. *)
Lemma eq_empty_batch (pg : Page) (srv : Server) :
  processBatch_eq render outputDir presetDir [] pg srv = (start_batch pg 0, srv).
Proof. reflexivity. Qed.

End Batch.

Lemma failed_probe_is_dispatched_witness :
  let job := mkJob "/audio/drums.wav" (Some "1"%string) [] "reverb_1/drums" in
  In "reverb_1/drums"%string
    (processAudioCalls
       (fst (fst (Pipeline.run_wave (fun _ => None) "/out" "/rv" "reverb" reverb_done
                    [job]
                    (console_error initial_page "Error checking file existence:")
                    (mkServer ∅ false 0 0))))).
Proof.
  intros job.
  pose proof (failed_probe_is_dispatched (fun _ => None) (fun _ => true) "/out" "/rv"
                "reverb" reverb_done [job] job initial_page (mkServer ∅ false 0 0)
                (or_introl eq_refl) eq_refl) as H.
  cbn [fold_left] in H.
  rewrite (check_step_failed (fun _ => true) "/out" [] initial_page _ job eq_refl) in H.
  apply H.
Defined.

(** C5 as stated fails: the output of the job exists on the server, the
    probe fails, and [processBatch] calls [processAudio] for the job, which
    is not counted as skipped; the output is written again. *)
Lemma failed_probe_counterexample :
  let job := mkJob "/audio/drums.wav" (Some "1"%string) [] "reverb_1/drums" in
  let srv := mkServer {["/out/reverb_1/drums.wav"%string := "RIFF"%string]} false 0 0 in
  let '(pg', srv') :=
    processBatch_reverb (fun _ => Some "UklGRg"%string) (fun _ => true)
      "/out" "/rv" [job] initial_page srv in
  existsSync (fsys srv) "/out/reverb_1/drums.wav" = true /\
  processAudioCalls pg' = ["reverb_1/drums"%string] /\
  skippedJobs pg' = 0%nat /\
  consoleErrors pg' = ["Error checking file existence:"%string] /\
  fsys srv' !! "/out/reverb_1/drums.wav"%string = Some "UklGRg"%string.
Proof. vm_compute. repeat split; reflexivity. Qed.

Lemma filter_all_false {A : Type} (f : A -> bool) (l : list A) :
  (forall x, In x l -> f x = false) -> List.filter f l = [].
Proof.
  induction l as [|x l IH]; intros H; cbn [List.filter]; [reflexivity|].
  rewrite (H x (or_introl eq_refl)). apply IH.
  intros y Hy. apply H. now right.
Qed.

(** Once the output of every pair exists, the equalizer script derives no
    job, and the equalizer page, given no job, posts no [/complete]: the
    server is left to its timer. *)
Lemma eq_rerun (param_values : string -> list Q) (render : Job -> option string)
    (audioDir eqDir outputDir : string) (audioListing eqListing : list string)
    (pg : Page) (srv : Server) :
  (forall a e,
     In a (map (fun file => join audioDir file)
             (List.filter (fun file => endsWith file ".wav") audioListing)) ->
     In e (List.filter (fun file => endsWith file ".json") eqListing) ->
     eq_rendered (fsys srv) outputDir a e = true) ->
  fst (prepare_eq param_values (fsys srv) audioDir eqDir outputDir
         audioListing eqListing) = [] /\
  processBatch_eq render outputDir eqDir [] pg srv = (start_batch pg 0, srv) /\
  completePosts (start_batch pg 0) = completePosts pg.
Proof.
  intros H. split; [|split; reflexivity].
  unfold prepare_eq. cbv zeta. rewrite DeriveFacts.eq_outer_fold. cbn [fst app].
  induction (map (fun file => join audioDir file)
               (List.filter (fun file => endsWith file ".wav") audioListing))
    as [|a l IH]; cbn [flat_map]; [reflexivity|].
  rewrite IH by (intros a' e Ha' He; apply H; [now right | exact He]).
  rewrite filter_all_false; [reflexivity|].
  intros e He. rewrite (H a e (or_introl eq_refl) He). reflexivity.
Qed.

(** C4 — the equalizer pipeline, run twice over one source and two presets.
    The first run derives two jobs, renders both and is told complete.  The
    second run, with both outputs present, derives no job and lists both
    pairs as skipped; [processBatch] then renders nothing and posts no
    [/complete], so the server is not told the run is complete and ends
    with exit code 1 when its timer fires. *)
Theorem eq_rerun_posts_no_complete :
  let render := fun _ : Job => Some "UklGRg"%string in
  let fs0 : gmap string string :=
    {[ "/audio/drums.wav"%string := "RIFF"%string;
       "/eq/eq_1.json"%string := "preset 1"%string;
       "/eq/eq_2.json"%string := "preset 2"%string ]} in
  let run (fs : gmap string string) :=
    let '(jobs, skipped) :=
      prepare_eq (fun _ => []) fs "/audio" "/eq" "/out"
        ["drums.wav"] ["eq_1.json"; "eq_2.json"] in
    (jobs, skipped,
     processBatch_eq render "/out" "/eq" jobs initial_page (mkServer fs false 0 0)) in
  let '(jobs1, skipped1, (pg1, srv1)) := run fs0 in
  let '(jobs2, skipped2, (pg2, srv2)) := run (fsys srv1) in
  (map outputId jobs1 = ["eq_1/drums"; "eq_2/drums"]%string /\
   skipped1 = [] /\
   processAudioCalls pg1 = ["eq_1/drums"; "eq_2/drums"]%string /\
   completedJobs pg1 = 2%nat /\
   isComplete srv1 = true) /\
  (jobs2 = [] /\
   skipped2 = ["eq_1/drums.wav"; "eq_2/drums.wav"]%string /\
   processAudioCalls pg2 = [] /\
   completePosts pg2 = 0%nat /\
   isComplete srv2 = false /\
   timeout_exit srv2 = Some 1%Z).
Proof. vm_compute. repeat split; reflexivity. Qed.

(** C9 — the reverb server saves the output of the job [reverb_12/drums],
    derived from the preset file [reverb_12.json].  It takes the text after
    the last underscore of the id, [12/drums], for the preset id, looks for
    [reverb_12/drums.json] in the preset directory, finds nothing and copies
    nothing: the output is stored without a copy of its preset. *)
Theorem save_keeps_no_preset_copy :
  let fs : gmap string string :=
    {[ "/rv/reverb_12.json"%string := "preset 12"%string ]} in
  let srv :=
    save "reverb" "/rv" "/out" "reverb_12/drums" "UklGRg" (mkServer fs false 0 0) in
  map outputId (prepare_reverb (fun _ => []) fs "/audio/drums.wav" "/rv"
                  ["reverb_12.json"])
  = ["reverb_12/drums"%string] /\
  last_elem (split_on "_" "reverb_12/drums") = "12/drums"%string /\
  fs !! "/rv/reverb_12/drums.json"%string = None /\
  fsys srv !! "/out/reverb_12/drums.wav"%string = Some "UklGRg"%string /\
  fsys srv !! "/out/reverb_12/drums_reverb_info.json"%string = None /\
  fsys srv = <["/out/reverb_12/drums.wav"%string := "UklGRg"%string]> fs /\
  totalSaved srv = 1%nat.
Proof.
  cbv zeta.
  split; [vm_compute; reflexivity|]. split; [vm_compute; reflexivity|].
  split; [vm_compute; reflexivity|]. split; [vm_compute; reflexivity|].
  split; [vm_compute; reflexivity|]. split; [vm_compute; reflexivity|].
  vm_compute; reflexivity.
Qed.

End BatchFacts.

(** ** More on the equalizer *)

Module EQMore.
Import EQ EQFacts.

(** *** The curve setter *)



(** *** Range changes on a curve that spans zero *)

Lemma nth_map_bands (f : nat -> Q) (i : nat) :
  (i < 40)%nat -> nth i (map f bands) 0 = f i.
Proof.
  intros Hi. apply nth_lookup_Some.
  change (map f bands) with (f <$> bands).
  rewrite list_lookup_fmap. unfold bands. now rewrite lookup_seq_lt.
Qed.

Lemma normalize_top (mx mn x : Q) :
  0 < mx - mn -> x == mx -> (x - mn) / (mx - mn) * 2 - 1 == 1.
Proof. intros H E. rewrite E. field. lra. Qed.

Lemma normalize_bottom (mx mn x : Q) :
  0 < mx - mn -> x == mn -> (x - mn) / (mx - mn) * 2 - 1 == -1.
Proof. intros H E. rewrite E. field. lra. Qed.

Lemma range_positive (mx mn : Q) : mn <= 0 -> 0 <= mx -> ~ mx == mn -> 0 < mx - mn.
Proof.
  intros A1 A2 Hne.
  destruct (Qlt_le_dec mn mx) as [H|H]; [lra|].
  exfalso. apply Hne. apply Qle_antisym; [exact H | lra].
Qed.

(** A stored curve within [[-1, 1]] that reaches both ends has the bounds
    -1 and 1. *)
Lemma scan_normalized (c : list Q) :
  (forall i, (i < 40)%nat -> -1 <= nth i c 0 /\ nth i c 0 <= 1) ->
  (exists k, (k < 40)%nat /\ nth k c 0 == 1) ->
  (exists j, (j < 40)%nat /\ nth j c 0 == -1) ->
  max_el c == 1 /\ min_el c == -1.
Proof.
  intros Hb (k & Hk & Ek) (j & Hj & Ej).
  destruct (scan_spec c) as (A1 & A2 & A3 & A4 & A5).
  destruct (A3 k Hk) as [_ Uk]. destruct (A3 j Hj) as [Lj _].
  split; apply Qle_antisym.
  - destruct A4 as [E|(i & Hi & E)]; rewrite E; [lra|]. now apply Hb.
  - lra.
  - lra.
  - destruct A5 as [E|(i & Hi & E)]; rewrite E; [lra|]. now apply Hb.
Qed.

Lemma set_range_replays (this : Equalizer) (n : nat -> Q) (r : Q) :
  (forall i, (i < 40)%nat -> -1 <= n i /\ n i <= 1) ->
  (exists k, (k < 40)%nat /\ n k == 1) ->
  (exists j, (j < 40)%nat /\ n j == -1) ->
  stores this n ->
  stores (set_range this r) n /\
  forall i, (i < 40)%nat ->
    exists g, gains (set_range this r) !! i = Some (Num g) /\ g == r * 5 * n i.
Proof.
  intros Hb (k & Hk & Ek) (j & Hj & Ej) (Hwf & Hlen & Hn).
  assert (Hb' : forall i, (i < 40)%nat ->
            -1 <= nth i (param_curve this) 0 /\ nth i (param_curve this) 0 <= 1).
  { intros i Hi. rewrite (Hn i Hi). now apply Hb. }
  destruct (scan_normalized (param_curve this) Hb') as [Emx Emn].
  { exists k. split; [exact Hk|]. now rewrite (Hn k Hk). }
  { exists j. split; [exact Hj|]. now rewrite (Hn j Hj). }
  assert (Hne : ~ max_el (param_curve this) == min_el (param_curve this)).
  { rewrite Emx, Emn. intros E. discriminate E. }
  assert (Hwf0 : wf (store_range this r)) by exact Hwf.
  unfold set_range. cbv zeta.
  change (param_curve (store_range this r)) with (param_curve this).
  destruct (set_curve_nondeg (store_range this r) (param_curve this)
              Hwf0 Hlen Hne _ eq_refl) as (_ & W & _ & Hc & Hg).
  revert W Hc Hg.
  generalize (snd (set_curve (store_range this r) (param_curve this))).
  intros this' W Hc Hg.
  assert (Hfix : forall i, (i < 40)%nat ->
            pushed (param_curve this) (max_el (param_curve this))
              (min_el (param_curve this)) i == n i).
  { intros i Hi. unfold pushed. rewrite Emx, Emn, (Hn i Hi). field. }
  split.
  - split; [exact W|]. split.
    + rewrite Hc, length_map. unfold bands. apply length_seq.
    + intros i Hi. rewrite Hc, nth_map_bands by exact Hi. now apply Hfix.
  - intros i Hi. eexists. split; [apply Hg; exact Hi|].
    change (param_range (store_range this r)) with r.
    now rewrite (Hfix i Hi).
Qed.

Lemma set_ranges_stores (rs : list Q) (this : Equalizer) (n : nat -> Q) :
  (forall i, (i < 40)%nat -> -1 <= n i /\ n i <= 1) ->
  (exists k, (k < 40)%nat /\ n k == 1) ->
  (exists j, (j < 40)%nat /\ n j == -1) ->
  stores this n -> stores (set_ranges this rs) n.
Proof.
  intros Hb Hk Hj. revert this. unfold set_ranges.
  induction rs as [|r rs IH]; intros this H; cbn [fold_left]; [exact H|].
  apply IH. now apply set_range_replays.
Qed.



End EQMore.

(** ** More on the WAV encoder *)

Module WavMore.
Import Wav WavFacts.

(** *** [writeString] *)

Lemma charCode_byte (c : ascii) :
  (Z.of_nat (nat_of_ascii c) mod 256 = Z.of_nat (nat_of_ascii c))%Z.
Proof.
  apply Z.mod_small. pose proof (nat_ascii_bounded c). lia.
Qed.

(** X7 — [writeString] stores the character codes of the string at
    [offset], [offset + 1], ... and leaves every other byte and the length
    of the buffer as they were. *)
Theorem writeString_bytes (s : string) (view : list Z) (offset : nat) :
  (offset + String.length s <= length view)%nat ->
  length (writeString view offset s) = length view /\
  (forall i, (i < String.length s)%nat ->
     getUint8 (writeString view offset s) (offset + i) = nth i (charCodes s) 0%Z) /\
  (forall k, (k < offset \/ offset + String.length s <= k)%nat ->
     getUint8 (writeString view offset s) k = getUint8 view k).
Proof.
  unfold getUint8. revert view offset.
  induction s as [|c s IH]; intros view offset H; cbn [writeString String.length charCodes].
  - split; [reflexivity|]. split; [intros i Hi; lia | reflexivity].
  - cbn [String.length] in H.
    destruct (IH (setUint8 view offset (Z.of_nat (nat_of_ascii c))) (S offset))
      as (I1 & I2 & I3).
    { rewrite length_setUint8. lia. }
    split; [now rewrite I1, length_setUint8|]. split.
    + intros [|i] Hi.
      * rewrite Nat.add_0_r, I3 by lia. rewrite nth_setUint8.
        case_decide as D; [apply charCode_byte | exfalso; apply D; split; lia].
      * replace (offset + S i)%nat with (S offset + i)%nat by lia.
        cbn [nth]. apply I2. lia.
    + intros k Hk. rewrite I3 by lia. rewrite nth_setUint8.
      case_decide as D; [lia | reflexivity].
Qed.

Lemma writeString_bytes_witness :
  getUint8 (writeString (ArrayBuffer 8) 2 "fmt ") (2 + 1) = nth 1 (charCodes "fmt ") 0%Z.
Proof.
  destruct (writeString_bytes "fmt " (ArrayBuffer 8) 2) as (_ & H & _).
  - cbn. lia.
  - apply H. cbn. lia.
Defined.

(** *** The header *)

Lemma le_bytes16 (u : Z) :
  (0 <= u < 65536)%Z -> (u mod 256 + 256 * ((u / 256) mod 256) = u)%Z.
Proof.
  intros H. rewrite (Z.mod_small (u / 256)).
  - pose proof (Z.div_mod u 256). lia.
  - split; [apply Z.div_pos; lia | apply Z.div_lt_upper_bound; lia].
Qed.

Lemma le_bytes32 (u : Z) :
  (0 <= u < 4294967296)%Z ->
  (u mod 256 + 256 * ((u / 256) mod 256) + 65536 * ((u / 65536) mod 256)
   + 16777216 * ((u / 16777216) mod 256) = u)%Z.
Proof.
  intros H.
  assert (E1 : (u / 65536 = u / 256 / 256)%Z) by (rewrite Z.div_div by lia; reflexivity).
  assert (E2 : (u / 16777216 = u / 256 / 256 / 256)%Z)
    by (rewrite !Z.div_div by lia; reflexivity).
  rewrite E1, E2.
  rewrite (Z.mod_small (u / 256 / 256 / 256)).
  - pose proof (Z.div_mod u 256). pose proof (Z.div_mod (u / 256) 256).
    pose proof (Z.div_mod (u / 256 / 256) 256). lia.
  - split.
    + repeat apply Z.div_pos; lia.
    + rewrite !Z.div_div by lia. apply Z.div_lt_upper_bound; lia.
Qed.

Lemma setUint16_low view off v k :
  (k < 44)%nat -> (44 <= off)%nat ->
  nth k (setUint16 view off v) 0%Z = nth k view 0%Z.
Proof.
  intros Hk Hoff. unfold setUint16. cbv zeta. rewrite !nth_setUint8.
  repeat (case_decide; try lia); reflexivity.
Qed.

(** The two loops leave the 44 bytes of the header as they are. *)
Lemma data_keeps_header (abuffer : AudioBuffer) (view : list Z) (k : nat) :
  (k < 44)%nat ->
  nth k (fold_left (channel_step abuffer) (seq 0 (numberOfChannels abuffer)) view)
    0%Z
  = nth k view 0%Z.
Proof.
  intros Hk. revert view.
  induction (seq 0 (numberOfChannels abuffer)) as [|i l IH]; intros view;
    cbn [fold_left]; [reflexivity|].
  rewrite IH. unfold channel_step.
  generalize view. clear IH.
  induction (seq 0 (frames abuffer)) as [|j l' IH']; intros w;
    cbn [fold_left]; [reflexivity|].
  rewrite IH'. unfold frame_step, setInt16. cbv zeta.
  apply setUint16_low; [exact Hk | unfold index; lia].
Qed.

(** X9 — the first 44 bytes of the result are the RIFF/WAVE header, read
    here field by field with little-endian getters: the tags [RIFF],
    [WAVE], [fmt ] and [data]; the chunk size 36 + 2*C*F and the data size
    2*C*F; the format chunk size 16, format 1 (PCM), C channels, the sample
    rate, the byte rate (sample rate * 2 * C), the block size 2*C and 16
    bits per sample.  A 32-bit field holds its value modulo 2^32 and a
    16-bit field modulo 2^16. *)
Theorem bufferToWave_header (abuffer : AudioBuffer) :
  let out := bufferToWave abuffer in
  let C := Z.of_nat (numberOfChannels abuffer) in
  let size := Z.of_nat (frames abuffer * numberOfChannels abuffer * 2) in
  map (getUint8 out) (seq 0 4) = charCodes "RIFF" /\
  getUint32 out 4 = ((36 + size) mod 4294967296)%Z /\
  map (getUint8 out) (seq 8 8) = charCodes "WAVEfmt " /\
  getUint32 out 16 = 16%Z /\
  getUint16 out 20 = 1%Z /\
  getUint16 out 22 = (C mod 65536)%Z /\
  getUint32 out 24 = (sampleRate abuffer mod 4294967296)%Z /\
  getUint32 out 28 = ((sampleRate abuffer * 2 * C) mod 4294967296)%Z /\
  getUint16 out 32 = ((C * 2) mod 65536)%Z /\
  getUint16 out 34 = 16%Z /\
  map (getUint8 out) (seq 36 4) = charCodes "data" /\
  getUint32 out 40 = (size mod 4294967296)%Z.
Proof.
  cbv zeta. unfold getUint32, getUint16, getUint8, bufferToWave.
  cbv zeta. cbn [map seq Nat.add].
  rewrite !data_keeps_header by lia.
  cbn [write_header writeString setUint32 setUint16 setUint8 insert list_insert
       ArrayBuffer repeat Nat.add nth].
  assert (B32 : forall v, (0 <= v mod 4294967296 < 4294967296)%Z)
    by (intros v; apply Z.mod_pos_bound; lia).
  assert (B16 : forall v, (0 <= v mod 65536 < 65536)%Z)
    by (intros v; apply Z.mod_pos_bound; lia).
  repeat split;
    first [ apply le_bytes32, B32 | apply le_bytes16, B16 | reflexivity ].
Qed.

(** *** The data section *)

(** X10 — the data section is filled frame by frame, the channels of a
    frame side by side: the [k]-th 16-bit slot after the header holds the
    sample of channel [k mod C] in frame [k / C], for every [k] below C*F,
    so that no slot of the data section is left unwritten. *)
Theorem bufferToWave_interleaved (abuffer : AudioBuffer) (k : nat) :
  (k < numberOfChannels abuffer * frames abuffer)%nat ->
  getInt16 (bufferToWave abuffer) (44 + 2 * k)
  = pcm16 (getChannelData abuffer (k mod numberOfChannels abuffer)
             (k / numberOfChannels abuffer)).
Proof.
  intros Hk. unfold bufferToWave. cbv zeta.
  set (C := numberOfChannels abuffer) in *. set (F := frames abuffer) in *.
  assert (HC : (0 < C)%nat) by (destruct C; lia).
  assert (Hi : (k mod C < C)%nat) by (apply Nat.mod_upper_bound; lia).
  assert (Hj : (k / C < F)%nat) by (apply Nat.Div0.div_lt_upper_bound; lia).
  pose proof (Nat.div_mod_eq k C) as Hdm.
  destruct (channels_fold abuffer C
              (write_header abuffer (F * C * 2) (ArrayBuffer (44 + F * C * 2)))
              (Nat.le_refl _) _ eq_refl) as (_ & G & _).
  specialize (G (k mod C)%nat (k / C)%nat Hi Hj).
  rewrite length_write_header in G. unfold ArrayBuffer in G.
  rewrite repeat_length in G.
  fold C in G.
  replace (index C (k mod C) (k / C)) with (44 + 2 * k)%nat in G
    by (unfold index; lia).
  apply G. nia.
Qed.

Lemma bufferToWave_interleaved_witness :
  let abuffer := mkAudioBuffer 2 3 48000 (fun i j => inject_Z (Z.of_nat i) - (1 # 3)) in
  getInt16 (bufferToWave abuffer) (44 + 2 * 3)
  = pcm16 (getChannelData abuffer (3 mod 2) (3 / 2)).
Proof.
  intros abuffer. apply (bufferToWave_interleaved abuffer 3). cbn. lia.
Defined.

(** *** The conversion of one sample *)

Lemma clamp_mono (x y : Q) : x <= y -> clamp x <= clamp y.
Proof.
  intros H. unfold clamp.
  apply Q.max_le_compat_l. now apply Q.min_le_compat_l.
Qed.

Lemma scale_mono (x y : Q) : x <= y -> scale x <= scale y.
Proof.
  intros H. unfold scale.
  destruct (Qlt_le_dec x 0), (Qlt_le_dec y 0); lra.
Qed.

Lemma trunc_mono (x y : Q) : x <= y -> (trunc x <= trunc y)%Z.
Proof.
  intros H. unfold trunc.
  destruct (Qlt_le_dec x 0) as [Nx|Px], (Qlt_le_dec y 0) as [Ny|Py].
  - now apply Qceiling_resp_le.
  - pose proof (Qceiling_resp_le x 0 (Qlt_le_weak _ _ Nx)) as H1.
    pose proof (Qfloor_resp_le 0 y Py) as H2.
    change 0 with (inject_Z 0) in H1, H2.
    rewrite Qceiling_Z in H1. rewrite Qfloor_Z in H2. lia.
  - lra.
  - now apply Qfloor_resp_le.
Qed.

(** X11 — the conversion of a sample to 16 bits never reverses the order
    of two samples, and it clips: every sample of 1 or more becomes 32767
    and every sample of -1 or less becomes -32768. *)
Theorem pcm16_monotone_and_clips (x y : Q) :
  (x <= y -> (pcm16 x <= pcm16 y)%Z) /\
  (1 <= x -> pcm16 x = 32767%Z) /\
  (x <= -1 -> pcm16 x = (-32768)%Z).
Proof.
  split; [|split].
  - intros H. unfold pcm16. now apply trunc_mono, scale_mono, clamp_mono.
  - intros H.
    pose proof (pcm16_bounds x) as B.
    pose proof (trunc_mono _ _ (scale_mono _ _ (clamp_mono 1 x H))) as M.
    change (trunc (scale (clamp x))) with (pcm16 x) in M.
    assert (E : trunc (scale (clamp 1)) = 32767%Z) by (vm_compute; reflexivity).
    lia.
  - intros H.
    pose proof (pcm16_bounds x) as B.
    pose proof (trunc_mono _ _ (scale_mono _ _ (clamp_mono x (-1) H))) as M.
    change (trunc (scale (clamp x))) with (pcm16 x) in M.
    assert (E : trunc (scale (clamp (-1))) = (-32768)%Z) by (vm_compute; reflexivity).
    lia.
Qed.

End WavMore.

(** ** More on the scripts and the servers *)

Module PipelineMore.
Import Pipeline DeriveFacts.

(** *** Strings *)

Lemma append_nil (b : string) : "" +:+ b = b.
Proof. reflexivity. Qed.

Lemma append_cons (x : ascii) (a b : string) :
  String x a +:+ b = String x (a +:+ b).
Proof. reflexivity. Qed.

Ltac string_step := repeat (rewrite append_nil || rewrite append_cons); cbn.

Lemma append_assoc (a b c : string) : (a +:+ b) +:+ c = a +:+ (b +:+ c).
Proof. induction a as [|x a IH]; string_step; [reflexivity | now rewrite IH]. Qed.

Lemma length_append (a b : string) :
  String.length (a +:+ b) = (String.length a + String.length b)%nat.
Proof. induction a as [|x a IH]; string_step; [reflexivity | now rewrite IH]. Qed.

Lemma substring_all (s : string) : substring 0 (String.length s) s = s.
Proof. induction s as [|x s IH]; cbn; [reflexivity | now rewrite IH]. Qed.

Lemma substring_suffix (a b : string) :
  substring (String.length a) (String.length b) (a +:+ b) = b.
Proof.
  induction a as [|x a IH]; string_step; [apply substring_all | exact IH].
Qed.

Lemma substring_prefix (a b : string) :
  substring 0 (String.length a) (a +:+ b) = a.
Proof.
  induction a as [|x a IH]; string_step; [now destruct b | now rewrite IH].
Qed.

Lemma endsWith_append (a ext : string) : endsWith (a +:+ ext) ext = true.
Proof.
  unfold endsWith. rewrite length_append.
  replace (String.length a + String.length ext - String.length ext)%nat
    with (String.length a) by lia.
  rewrite substring_suffix, String.eqb_refl, andb_true_r.
  apply Nat.leb_le. lia.
Qed.

Lemma substring_skip (a b : string) (n m : nat) :
  substring (String.length a + n) m (a +:+ b) = substring n m b.
Proof. induction a as [|x a IH]; string_step; [reflexivity | exact IH]. Qed.

Lemma wav_not_json (a b : string) : a +:+ ".wav" <> b +:+ ".json".
Proof.
  intros E. pose proof (endsWith_append a ".wav") as H. rewrite E in H.
  unfold endsWith in H. rewrite length_append in H. cbn [String.length] in H.
  replace (String.length b + 5 - 4)%nat with (String.length b + 1)%nat in H by lia.
  rewrite substring_skip in H. apply andb_true_iff in H. destruct H as [_ H].
  cbn in H. discriminate.
Qed.

Lemma append_not_suffix (a ext : string) : a <> ""%string -> a +:+ ext <> ext.
Proof.
  intros Ha E. apply (f_equal String.length) in E. rewrite length_append in E.
  destruct a; [congruence | cbn in E; lia].
Qed.

Lemma no_slash_append (a b : string) :
  no_slash (a +:+ b) = no_slash a && no_slash b.
Proof.
  induction a as [|x a IH]; string_step; [reflexivity | now rewrite IH, andb_assoc].
Qed.

Lemma lacks_append (c : ascii) (a b : string) :
  lacks c (a +:+ b) = lacks c a && lacks c b.
Proof.
  induction a as [|x a IH]; string_step; [reflexivity | now rewrite IH, andb_assoc].
Qed.

Lemma lacks_cons (c d : ascii) (s : string) :
  lacks c (String d s) = true <-> d <> c /\ lacks c s = true.
Proof.
  cbn [lacks]. rewrite andb_true_iff, negb_true_iff.
  destruct (Ascii.eqb_spec d c); intuition congruence.
Qed.

Lemma split_on_lacks (sep : ascii) (s : string) :
  lacks sep s = true -> split_on sep s = [s].
Proof.
  induction s as [|c s IH]; intros H; cbn [split_on]; [reflexivity|].
  apply lacks_cons in H. destruct H as [Hc Hs].
  destruct (Ascii.eqb_spec c sep) as [E|_]; [contradiction|].
  now rewrite (IH Hs).
Qed.

(** The text before the first separator is the first field. *)
Lemma split_on_sep (sep : ascii) (a b : string) :
  lacks sep a = true ->
  split_on sep (a +:+ String sep b) = a :: split_on sep b.
Proof.
  induction a as [|c a IH]; intros H; rewrite ?append_nil, ?append_cons;
    cbn [split_on].
  - now rewrite Ascii.eqb_refl.
  - apply lacks_cons in H. destruct H as [Hc Hs].
    destruct (Ascii.eqb_spec c sep) as [E|_]; [contradiction|].
    now rewrite (IH Hs).
Qed.

Lemma split_on_cons (sep : ascii) (s : string) :
  exists h t, split_on sep s = h :: t.
Proof.
  induction s as [|c s (h & t & IH)]; cbn [split_on]; [now eexists _, _|].
  destruct (Ascii.eqb c sep); [now eexists _, _|].
  rewrite IH. now eexists _, _.
Qed.

(** The last field begins after the last separator. *)
Lemma last_split_on (sep : ascii) (a b : string) :
  last_elem (split_on sep (a +:+ String sep b)) = last_elem (split_on sep b).
Proof.
  unfold last_elem.
  enough (H : exists h h' t,
            split_on sep (a +:+ String sep b) = h :: h' :: t /\
            List.last (h' :: t) ""%string = List.last (split_on sep b) ""%string).
  { destruct H as (h & h' & t & -> & <-). reflexivity. }
  induction a as [|c a (h & h' & t & E & L)]; rewrite ?append_nil, ?append_cons;
    cbn [split_on].
  - rewrite Ascii.eqb_refl. destruct (split_on_cons sep b) as (h & t & ->).
    now exists ""%string, h, t.
  - rewrite E. destruct (Ascii.eqb c sep).
    + exists ""%string, h, (h' :: t). split; [reflexivity|].
      rewrite <- L. reflexivity.
    + exists (String c h), h', t. split; [reflexivity | exact L].
Qed.

Lemma join_has_slash (dir file : string) : no_slash (join dir file) = false.
Proof.
  unfold join. change ("/" +:+ file) with (String "/" file).
  induction dir as [|c dir IH]; string_step; [reflexivity|].
  rewrite IH. apply andb_false_r.
Qed.

Lemma join_inj (dir a b : string) : join dir a = join dir b -> a = b.
Proof.
  unfold join. change ("/" +:+ a) with (String "/" a).
  change ("/" +:+ b) with (String "/" b).
  induction dir as [|c dir IH]; string_step; intros E.
  - now injection E.
  - injection E as E. now apply IH.
Qed.

Lemma append_inj_l (a x y : string) : a +:+ x = a +:+ y -> x = y.
Proof.
  induction a as [|c a IH]; string_step; intros E; [exact E|].
  injection E as E. now apply IH.
Qed.

(** *** File names *)

Lemma basename_join (dir file : string) :
  no_slash file = true -> basename (join dir file) = file.
Proof.
  intros H. unfold basename, join.
  change ("/" +:+ file) with (String "/" file).
  rewrite last_split_on, (split_slash_id file H). reflexivity.
Qed.

Lemma basename_plain (file : string) :
  no_slash file = true -> basename file = file.
Proof.
  intros H. unfold basename. rewrite (split_slash_id file H). reflexivity.
Qed.

Lemma strip_ext (p name ext : string) :
  p <> ext -> basename p = name +:+ ext -> name <> ""%string ->
  basename_ext p ext = name.
Proof.
  intros Hp Hb Hn. unfold basename_ext.
  destruct (String.eqb_spec p ext) as [E|_]; [contradiction|].
  cbv zeta. rewrite Hb, endsWith_append.
  destruct (String.eqb_spec (name +:+ ext) ext) as [E|_].
  - now apply append_not_suffix in E.
  - cbn [andb negb]. rewrite length_append.
    replace (String.length name + String.length ext - String.length ext)%nat
      with (String.length name) by lia.
    apply substring_prefix.
Qed.

Lemma basename_ext_join (dir name ext : string) :
  no_slash name = true -> no_slash ext = true -> name <> ""%string ->
  basename_ext (join dir (name +:+ ext)) ext = name.
Proof.
  intros Hn He Hne. apply strip_ext; [| |exact Hne].
  - intros E. pose proof (join_has_slash dir (name +:+ ext)) as J.
    rewrite E in J. congruence.
  - apply basename_join. now rewrite no_slash_append, Hn, He.
Qed.

Lemma basename_ext_plain (name ext : string) :
  no_slash name = true -> no_slash ext = true -> name <> ""%string ->
  basename_ext (name +:+ ext) ext = name.
Proof.
  intros Hn He Hne. apply strip_ext; [| |exact Hne].
  - now apply append_not_suffix.
  - apply basename_plain. now rewrite no_slash_append, Hn, He.
Qed.

Lemma presetId_conventional (fx id : string) :
  no_slash fx = true -> no_slash id = true ->
  lacks "_" fx = true -> lacks "_" id = true ->
  presetId (fx +:+ "_" +:+ id +:+ ".json") = Some id.
Proof.
  intros Sf Si Lf Li. unfold presetId.
  change (fx +:+ "_" +:+ id +:+ ".json")
    with (fx +:+ (String "_" id +:+ ".json")).
  rewrite <- append_assoc, basename_ext_plain.
  - rewrite (split_on_sep _ _ _ Lf), (split_on_lacks _ _ Li). reflexivity.
  - rewrite no_slash_append, Sf. cbn. exact Si.
  - reflexivity.
  - destruct fx; discriminate.
Qed.

(** The name the equalizer script probes is the output id with [.wav]:
    the path the server writes. *)
Lemma eq_output_name_id (a e : string) :
  eq_output_name a e = eq_outputId e a +:+ ".wav".
Proof.
  unfold eq_output_name, eq_outputId.
  change ("eq_" +:+ interpolate (presetId e) +:+ "/" +:+ basename_ext a ".wav")
    with ("eq_" +:+ (interpolate (presetId e) +:+ (String "/" (basename_ext a ".wav")))).
  rewrite !append_assoc. reflexivity.
Qed.

(** X13 — preset files and audio files with the names the pipeline is
    made for: a preset file [<fx>_<id>.json] and an audio file
    [<name>.wav] of a directory, where [<fx>], [<id>] and [<name>] hold no
    slash, [<fx>] and [<id>] no underscore, and [<name>] is not empty.  The
    id read from the preset file is [<id>], the source name is [<name>],
    and the output ids and the name the equalizer script probes are
    [eq_<id>/<name>], [reverb_<id>/<name>] and [eq_<id>/<name>.wav]. *)
Theorem conventional_names (dir fx id name : string) :
  no_slash fx = true -> no_slash id = true -> no_slash name = true ->
  lacks "_" fx = true -> lacks "_" id = true -> name <> ""%string ->
  let presetFile := fx +:+ "_" +:+ id +:+ ".json" in
  let audioFile := join dir (name +:+ ".wav") in
  presetId presetFile = Some id /\
  basename audioFile = name +:+ ".wav" /\
  basename_ext audioFile ".wav" = name /\
  eq_outputId presetFile audioFile = "eq_" +:+ id +:+ "/" +:+ name /\
  reverb_outputId presetFile audioFile = "reverb_" +:+ id +:+ "/" +:+ name /\
  eq_output_name audioFile presetFile = "eq_" +:+ id +:+ "/" +:+ name +:+ ".wav".
Proof.
  intros Sf Si Sn Lf Li Hn. cbv zeta.
  pose proof (presetId_conventional fx id Sf Si Lf Li) as P.
  pose proof (basename_ext_join dir name ".wav" Sn eq_refl Hn) as B.
  split; [exact P|]. split.
  { apply basename_join. now rewrite no_slash_append, Sn. }
  split; [exact B|].
  unfold eq_outputId, reverb_outputId, eq_output_name. rewrite P, B.
  repeat split; reflexivity.
Qed.

Lemma conventional_names_witness :
  presetId "eq_7.json" = Some "7"%string /\
  eq_outputId "eq_7.json" "/audio/drums.wav" = "eq_7/drums"%string.
Proof.
  destruct (conventional_names "/audio" "eq" "7" "drums"
              eq_refl eq_refl eq_refl eq_refl eq_refl ltac:(discriminate))
    as (H1 & _ & _ & H4 & _).
  split; [exact H1 | exact H4].
Defined.

(** X14 — with such names no two pairs share an output: two preset files
    and two audio files of that form give the same output id only when
    their ids and their source names are the same. *)
Theorem conventional_names_distinct (dir fx id1 id2 name1 name2 : string) :
  no_slash fx = true -> lacks "_" fx = true ->
  no_slash id1 = true -> lacks "_" id1 = true ->
  no_slash id2 = true -> lacks "_" id2 = true ->
  no_slash name1 = true -> name1 <> ""%string ->
  no_slash name2 = true -> name2 <> ""%string ->
  let e1 := fx +:+ "_" +:+ id1 +:+ ".json" in
  let e2 := fx +:+ "_" +:+ id2 +:+ ".json" in
  let a1 := join dir (name1 +:+ ".wav") in
  let a2 := join dir (name2 +:+ ".wav") in
  (eq_outputId e1 a1 = eq_outputId e2 a2 -> e1 = e2 /\ a1 = a2) /\
  (reverb_outputId e1 a1 = reverb_outputId e2 a2 -> e1 = e2 /\ a1 = a2).
Proof.
  intros Sf Lf S1 L1 S2 L2 N1 H1 N2 H2. cbv zeta.
  unfold eq_outputId, reverb_outputId.
  rewrite !presetId_conventional, !basename_ext_join by (assumption || reflexivity).
  cbn [interpolate].
  split; intros E; apply outputId_inj in E; try assumption;
    destruct E as [-> ->]; split; reflexivity.
Qed.

Lemma conventional_names_distinct_witness :
  String.eqb (eq_outputId "eq_1.json" "/audio/drums.wav")
    (eq_outputId "eq_2.json" "/audio/drums.wav") = false /\
  String.eqb (reverb_outputId "reverb_1.json" "/audio/drums.wav")
    (reverb_outputId "reverb_1.json" "/audio/snare.wav") = false.
Proof.
  split; apply String.eqb_neq; intros E.
  - apply (conventional_names_distinct "/audio" "eq" "1" "2" "drums" "drums"
             eq_refl eq_refl eq_refl eq_refl eq_refl eq_refl
             eq_refl ltac:(discriminate) eq_refl ltac:(discriminate)) in E.
    destruct E as [E _]. discriminate E.
  - apply (conventional_names_distinct "/audio" "reverb" "1" "1" "drums" "snare"
             eq_refl eq_refl eq_refl eq_refl eq_refl eq_refl
             eq_refl ltac:(discriminate) eq_refl ltac:(discriminate)) in E.
    destruct E as [_ E]. discriminate E.
Defined.

(** *** The number of jobs *)

Lemma filter_split_length {A : Type} (f : A -> bool) (l : list A) :
  (length (List.filter (fun x => negb (f x)) l) + length (List.filter f l)
   = length l)%nat.
Proof.
  induction l as [|x l IH]; cbn [List.filter]; [reflexivity|].
  destruct (f x); cbn [negb length]; lia.
Qed.

Lemma flat_map_split_length {A B C : Type} (f : A -> B -> bool)
    (g : A -> B -> C) (h : A -> B -> string) (l : list A) (m : list B) :
  (length (flat_map (fun a => map (g a) (List.filter (fun b => negb (f a b)) m)) l)
   + length (flat_map (fun a => map (h a) (List.filter (f a) m)) l)
   = length l * length m)%nat.
Proof.
  induction l as [|a l IH]; cbn [flat_map]; [reflexivity|].
  rewrite !length_app, !length_map.
  pose proof (filter_split_length (f a) m). cbn [length Nat.mul]. lia.
Qed.

Section Counts.

Variable param_values : string -> list Q.
Variable fs : gmap string string.

(** X15 — the scripts lose no pair: the reverb script derives one job for
    each preset file, and the equalizer script puts each pair of an audio
    file and a preset file either among the jobs or among the skipped
    files, so that the two lists together have as many entries as there
    are pairs; a pair is skipped exactly when its output file exists. *)
Theorem scripts_count_pairs (audioDir eqDir reverbDir outputDir audioFile : string)
    (audioListing eqListing reverbListing : list string) :
  let audioFiles :=
    map (fun file => join audioDir file)
      (List.filter (fun file => endsWith file ".wav") audioListing) in
  let eqFiles := List.filter (fun file => endsWith file ".json") eqListing in
  let reverbFiles := List.filter (fun file => endsWith file ".json") reverbListing in
  let '(jobs, skipped) :=
    prepare_eq param_values fs audioDir eqDir outputDir audioListing eqListing in
  length (prepare_reverb param_values fs audioFile reverbDir reverbListing)
  = length reverbFiles /\
  (length jobs + length skipped = length audioFiles * length eqFiles)%nat /\
  skipped = flat_map (fun a =>
              map (eq_output_name a)
                (List.filter (fun e => eq_rendered fs outputDir a e) eqFiles))
              audioFiles.
Proof.
  cbv zeta. unfold prepare_eq, prepare_reverb. cbv zeta.
  rewrite eq_outer_fold, reverb_fold. cbn [app].
  rewrite length_map. split; [reflexivity|]. split; [|reflexivity].
  apply (flat_map_split_length (eq_rendered fs outputDir)).
Qed.

End Counts.

(** *** The save request *)

Lemma existsSync_insert (fs : gmap string string) (k v p : string) :
  existsSync fs p = true -> existsSync (<[k := v]> fs) p = true.
Proof.
  unfold existsSync. destruct (decide (k = p)) as [->|N].
  - now rewrite lookup_insert_eq.
  - now rewrite lookup_insert_ne.
Qed.

Lemma existsSync_copy (fs : gmap string string) (src dst p : string) :
  existsSync fs p = true -> existsSync (copy_if_exists fs src dst) p = true.
Proof.
  unfold copy_if_exists. destruct (fs !! src); [apply existsSync_insert | auto].
Qed.

Lemma wav_not_info (outputDir id fx : string) :
  join outputDir (id +:+ "_" +:+ fx +:+ "_info.json")
  <> join outputDir (id +:+ ".wav").
Proof.
  intros E. apply join_inj, append_inj_l in E. discriminate.
Qed.

Lemma save_accepts (fx presetDir outputDir id data : string) (srv : Server) :
  id <> ""%string -> data <> ""%string ->
  save fx presetDir outputDir id data srv
  = {| fsys := copy_if_exists (<[join outputDir (id +:+ ".wav") := data]> (fsys srv))
                 (join presetDir (fx +:+ "_" +:+ last_elem (split_on "_" id) +:+ ".json"))
                 (join outputDir (id +:+ "_" +:+ fx +:+ "_info.json"));
       isComplete := isComplete srv;
       totalSaved := S (totalSaved srv); totalSkipped := totalSkipped srv |}.
Proof.
  intros Hi Hd. unfold save.
  destruct (String.eqb_spec id "") as [E|_]; [contradiction|].
  destruct (String.eqb_spec data "") as [E|_]; [contradiction|].
  reflexivity.
Qed.

Lemma save_flags (fx presetDir outputDir id data : string) (srv : Server) :
  isComplete (save fx presetDir outputDir id data srv) = isComplete srv /\
  totalSkipped (save fx presetDir outputDir id data srv) = totalSkipped srv.
Proof.
  unfold save. destruct (String.eqb id "" || String.eqb data ""); split; reflexivity.
Qed.

(** A save request removes no file. *)
Lemma save_keeps_files (fx presetDir outputDir id data : string) (srv : Server)
    (p : string) :
  existsSync (fsys srv) p = true ->
  existsSync (fsys (save fx presetDir outputDir id data srv)) p = true.
Proof.
  intros H. unfold save.
  destruct (String.eqb id "" || String.eqb data ""); [exact H|].
  cbn [fsys]. now apply existsSync_copy, existsSync_insert.
Qed.

Lemma save_lookup (fx presetDir outputDir id data : string) (srv : Server) :
  id <> ""%string -> data <> ""%string ->
  fsys (save fx presetDir outputDir id data srv) !! join outputDir (id +:+ ".wav")
  = Some data.
Proof.
  intros Hi Hd. rewrite save_accepts by assumption. cbn [fsys].
  unfold copy_if_exists.
  destruct (_ !! join presetDir _).
  - rewrite lookup_insert_ne by apply wav_not_info. apply lookup_insert_eq.
  - apply lookup_insert_eq.
Qed.

Lemma save_has_output (fx presetDir outputDir id data : string) (srv : Server) :
  id <> ""%string -> data <> ""%string ->
  existsSync (fsys (save fx presetDir outputDir id data srv))
    (join outputDir (id +:+ ".wav")) = true.
Proof.
  intros Hi Hd. unfold existsSync. now rewrite save_lookup.
Qed.



(** X17 — the preset a save request looks for.  For an output id
    [<fx>_<id>/<name>] whose [<id>] and [<name>] hold no underscore, the
    text after the last underscore is [<id>/<name>], and the file looked
    for is [<presetDir>/<fx>_<id>/<name>.json], not the preset file
    [<presetDir>/<fx>_<id>.json] of the job: unless a file of that longer
    name exists, no info file is written, whatever the preset directory
    holds. *)
Theorem save_looks_for_nested_preset
    (fx presetDir outputDir id name data : string) (srv : Server) :
  lacks "_" id = true -> lacks "_" name = true -> data <> ""%string ->
  let outputId := fx +:+ "_" +:+ id +:+ "/" +:+ name in
  last_elem (split_on "_" outputId) = id +:+ "/" +:+ name /\
  (fsys srv !! join presetDir (fx +:+ "_" +:+ id +:+ "/" +:+ name +:+ ".json") = None ->
   fsys (save fx presetDir outputDir outputId data srv)
   = <[join outputDir (outputId +:+ ".wav") := data]> (fsys srv)).
Proof.
  intros Li Ln Hd. cbv zeta.
  assert (L : last_elem (split_on "_" (fx +:+ "_" +:+ id +:+ "/" +:+ name))
              = id +:+ "/" +:+ name).
  { change (fx +:+ "_" +:+ id +:+ "/" +:+ name)
      with (fx +:+ String "_" (id +:+ "/" +:+ name)).
    rewrite last_split_on, split_on_lacks; [reflexivity|].
    rewrite lacks_append, Li. cbn. exact Ln. }
  split; [exact L|]. intros Hnone.
  rewrite save_accepts; [|destruct fx; discriminate|exact Hd].
  cbn [fsys]. rewrite L. unfold copy_if_exists.
  replace (fx +:+ "_" +:+ (id +:+ "/" +:+ name) +:+ ".json")
    with (fx +:+ "_" +:+ id +:+ "/" +:+ name +:+ ".json").
  2:{ f_equal. cbn. f_equal. now rewrite append_assoc. }
  rewrite lookup_insert_ne; [now rewrite Hnone|].
  unfold join. rewrite <- ?append_assoc. apply wav_not_json.
Qed.

Lemma save_looks_for_nested_preset_witness :
  last_elem (split_on "_" "reverb_12/drums") = "12/drums"%string.
Proof.
  exact (proj1 (save_looks_for_nested_preset "reverb" "/rv" "/out" "12" "drums"
                  "UklGRg" (mkServer ∅ false 0 0)
                  eq_refl eq_refl ltac:(discriminate))).
Defined.

End PipelineMore.

(** ** More on the processing pages *)

Module BatchMore.
Import Pipeline DeriveFacts BatchFacts PipelineMore.

Section Waves.

Variable render : Job -> option string.
Variable probe_fails : string -> bool.
Variable outputDir : string.
Variable presetDir : string.

Local Abbreviation check_step := (Pipeline.check_step probe_fails outputDir).
Local Abbreviation run_wave := (Pipeline.run_wave render outputDir presetDir).
Local Abbreviation save_step := (Pipeline.save_step outputDir presetDir).
Local Abbreviation rendered := (Pipeline.rendered render).
Local Abbreviation all_rendered := (Pipeline.all_rendered render).
Local Abbreviation has_output := (Pipeline.has_output outputDir).
Local Abbreviation reverb_waves :=
  (Pipeline.reverb_waves render probe_fails outputDir presetDir).
Local Abbreviation eq_waves := (Pipeline.eq_waves render outputDir presetDir).
Local Abbreviation processBatch_reverb :=
  (Pipeline.processBatch_reverb render probe_fails outputDir presetDir).
Local Abbreviation processBatch_eq :=
  (Pipeline.processBatch_eq render outputDir presetDir).

(** *** One wave *)

Lemma rendered_length (jobs : list Job) :
  (length (rendered jobs) <= length jobs)%nat /\
  (all_rendered jobs = true -> length (rendered jobs) = length jobs) /\
  (all_rendered jobs = false -> (length (rendered jobs) < length jobs)%nat).
Proof.
  unfold Pipeline.rendered, Pipeline.all_rendered.
  induction jobs as [|j jobs (IH1 & IH2 & IH3)]; cbn [flat_map forallb length].
  - split; [lia|]. split; [reflexivity | discriminate].
  - destruct (render j); cbn [app length andb].
    + split; [lia|]. split; intros H.
      * now rewrite IH2.
      * specialize (IH3 H). lia.
    + split; [lia|]. split; [discriminate | intros _; lia].
Qed.

Lemma all_rendered_in (jobs : list Job) :
  (forall job, In job jobs -> render job <> None) -> all_rendered jobs = true.
Proof.
  intros H. unfold Pipeline.all_rendered. apply forallb_forall. intros j Hj.
  specialize (H j Hj). now destruct (render j).
Qed.

Lemma rendered_in (jobs : list Job) (job : Job) (data : string) :
  In job jobs -> render job = Some data -> In (outputId job, data) (rendered jobs).
Proof.
  intros Hj R. unfold Pipeline.rendered. apply in_flat_map.
  exists job. split; [exact Hj|]. rewrite R. now left.
Qed.

(** The renders of a wave: every job is handed to [processAudio], and
    [completedJobs] counts the renders that succeeded. *)
Lemma render_fold (jobs : list Job) :
  forall pg saves ok pg' saves' ok',
  fold_left (render_step render) jobs (pg, saves, ok) = (pg', saves', ok') ->
  saves' = saves ++ rendered jobs /\
  ok' = ok && all_rendered jobs /\
  totalJobs pg' = totalJobs pg /\
  completedJobs pg' = (completedJobs pg + length (rendered jobs))%nat /\
  skippedJobs pg' = skippedJobs pg /\
  skippedFiles pg' = skippedFiles pg /\
  processAudioCalls pg' = processAudioCalls pg ++ map outputId jobs /\
  completePosts pg' = completePosts pg.
Proof.
  unfold Pipeline.rendered, Pipeline.all_rendered.
  induction jobs as [|j jobs IH]; intros pg saves ok pg' saves' ok' E;
    cbn [fold_left] in E.
  - injection E as <- <- <-. cbn [flat_map forallb map length].
    rewrite !app_nil_r, andb_true_r, Nat.add_0_r. repeat split; reflexivity.
  - unfold render_step at 2 in E. cbn [flat_map forallb map].
    destruct (render j) as [data|].
    + destruct (IH _ _ _ _ _ _ E) as (-> & -> & -> & -> & -> & -> & -> & ->).
      cbn [completed called totalJobs completedJobs skippedJobs skippedFiles
           processAudioCalls completePosts app length andb].
      rewrite <- !app_assoc. cbn [app].
      repeat split; try reflexivity. lia.
    + destruct (IH _ _ _ _ _ _ E) as (-> & -> & -> & -> & -> & -> & -> & ->).
      cbn [completed called totalJobs completedJobs skippedJobs skippedFiles
           processAudioCalls completePosts app length andb].
      rewrite <- !app_assoc, andb_false_r. cbn [app].
      repeat split; reflexivity.
Qed.

Section Wave.

Variable fx : string.
Variable all_done : Page -> bool.
Hypothesis all_done_counters : forall pg, all_done (post_complete pg) = all_done pg.

(** The answers to the save requests of a wave: the counters stay, the
    files stay or are added to, and [/complete] is posted by each callback
    when, and only when, [all_done] holds. *)
Lemma save_fold (saves : list (string * string)) :
  forall pg srv pg' srv',
  fold_left (save_step fx all_done) saves (pg, srv) = (pg', srv') ->
  totalJobs pg' = totalJobs pg /\
  completedJobs pg' = completedJobs pg /\
  skippedJobs pg' = skippedJobs pg /\
  skippedFiles pg' = skippedFiles pg /\
  processAudioCalls pg' = processAudioCalls pg /\
  all_done pg' = all_done pg /\
  (completePosts pg <= completePosts pg')%nat /\
  (isComplete srv = true -> isComplete srv' = true) /\
  (all_done pg = false ->
   completePosts pg' = completePosts pg /\ isComplete srv' = isComplete srv) /\
  (all_done pg = true -> saves <> [] ->
   isComplete srv' = true /\ (completePosts pg < completePosts pg')%nat) /\
  (forall p, existsSync (fsys srv) p = true -> existsSync (fsys srv') p = true) /\
  (forall id data, In (id, data) saves -> id <> ""%string -> data <> ""%string ->
     existsSync (fsys srv') (join outputDir (id +:+ ".wav")) = true).
Proof.
  induction saves as [|r saves IH]; intros pg srv pg' srv' E; cbn [fold_left] in E.
  - injection E as <- <-. do 6 (split; [reflexivity|]).
    split; [lia|]. split; [intros H; exact H|].
    split; [intros _; split; reflexivity|]. split; [intros _ H; now destruct H|].
    split; [intros p H; exact H|]. intros id data [].
  - unfold Pipeline.save_step at 2 in E.
    pose proof (save_flags fx presetDir outputDir (fst r) (snd r) srv) as [F1 _].
    pose proof (save_keeps_files fx presetDir outputDir (fst r) (snd r) srv) as K.
    destruct (all_done pg) eqn:D.
    + destruct (IH _ _ _ _ E)
        as (-> & -> & -> & -> & -> & -> & P & C & _ & _ & M & S).
      cbn [post_complete completePosts] in P.
      cbn [complete isComplete] in C. cbn [complete fsys] in M.
      do 5 (split; [reflexivity|]).
      split; [rewrite all_done_counters; exact D|].
      split; [lia|]. split; [intros _; now apply C|].
      split; [discriminate|].
      split; [intros _ _; split; [now apply C | lia]|].
      split; [intros p Hp; apply M, K, Hp|].
      intros id data [->|Hin] Hi Hd.
      * apply M. exact (save_has_output _ _ _ id data _ Hi Hd).
      * now apply (S id data).
    + destruct (IH _ _ _ _ E)
        as (-> & -> & -> & -> & -> & -> & P & C & U & _ & M & S).
      destruct (U D) as [U1 U2].
      do 5 (split; [reflexivity|]). split; [exact D|].
      split; [exact P|]. split; [intros H; apply C; now rewrite F1|].
      split; [intros _; split; [exact U1 | now rewrite U2]|].
      split; [discriminate|].
      split; [intros p Hp; apply M, K, Hp|].
      intros id data [->|Hin] Hi Hd.
      * apply M. exact (save_has_output _ _ _ id data _ Hi Hd).
      * now apply (S id data).
Qed.

Lemma run_wave_spec (jobs : list Job) (pg : Page) (srv : Server) :
  forall pg' srv' ok,
  run_wave fx all_done jobs pg srv = (pg', srv', ok) ->
  totalJobs pg' = totalJobs pg /\
  completedJobs pg' = (completedJobs pg + length (rendered jobs))%nat /\
  skippedJobs pg' = skippedJobs pg /\
  skippedFiles pg' = skippedFiles pg /\
  processAudioCalls pg' = processAudioCalls pg ++ map outputId jobs /\
  ok = all_rendered jobs /\
  (completePosts pg <= completePosts pg')%nat /\
  (isComplete srv = true -> isComplete srv' = true) /\
  (all_done pg' = false ->
   completePosts pg' = completePosts pg /\ isComplete srv' = isComplete srv) /\
  (all_done pg' = true -> rendered jobs <> [] ->
   isComplete srv' = true /\ (completePosts pg < completePosts pg')%nat) /\
  (forall p, existsSync (fsys srv) p = true -> existsSync (fsys srv') p = true) /\
  (forall job data, In job jobs -> render job = Some data ->
     outputId job <> ""%string -> data <> ""%string ->
     has_output (fsys srv') job = true).
Proof.
  intros pg' srv' ok. unfold Pipeline.run_wave.
  destruct (fold_left (render_step render) jobs (pg, [], true))
    as [[pg1 saves] ok1] eqn:E1.
  destruct (fold_left (save_step fx all_done) saves (pg1, srv))
    as [pg2 srv2] eqn:E2.
  intros E. injection E as <- <- <-.
  destruct (render_fold _ _ _ _ _ _ _ E1)
    as (Hs & -> & R1 & R2 & R3 & R4 & R5 & R6).
  cbn [app] in Hs. subst saves.
  destruct (save_fold _ _ _ _ _ E2)
    as (-> & -> & -> & -> & -> & D & P & C & U & V & M & S).
  rewrite D, R1, R2, R3, R4, R5. rewrite R6 in P, U, V.
  do 6 (split; [reflexivity|]).
  split; [exact P|]. split; [exact C|]. split; [exact U|]. split; [exact V|].
  split; [exact M|].
  intros job data Hj R Hi Hd. apply (S (outputId job) data); try assumption.
  now apply rendered_in.
Qed.

End Wave.

(** *** The probes of a wave *)

Lemma check_step_cases (jobs : list Job) (pg : Page) (srv : Server) (job : Job) :
  forall jobs' pg' srv',
  check_step (jobs, pg, srv) job = (jobs', pg', srv') ->
  totalJobs pg' = totalJobs pg /\
  completedJobs pg' = completedJobs pg /\
  processAudioCalls pg' = processAudioCalls pg /\
  completePosts pg' = completePosts pg /\
  fsys srv' = fsys srv /\
  isComplete srv' = isComplete srv /\
  ((jobs' = jobs ++ [job] /\
    skippedJobs pg' = skippedJobs pg /\ skippedFiles pg' = skippedFiles pg) \/
   (jobs' = jobs /\
    skippedJobs pg' = S (skippedJobs pg) /\
    skippedFiles pg' = skippedFiles pg ++ [outputId job] /\
    has_output (fsys srv) job = true)).
Proof.
  intros jobs' pg' srv'.
  unfold Pipeline.check_step, checkFileExists, check_file, Pipeline.has_output.
  destruct (probe_fails (outputId job)).
  - intros E. injection E as <- <- <-.
    repeat split; try reflexivity. left. repeat split; reflexivity.
  - destruct (String.eqb (outputId job) "").
    + intros E. injection E as <- <- <-.
      repeat split; try reflexivity. left. repeat split; reflexivity.
    + cbv zeta.
      destruct (existsSync (fsys srv) (join outputDir (outputId job +:+ ".wav")))
        eqn:X; intros E; injection E as <- <- <-.
      * repeat split; try reflexivity. right. repeat split; reflexivity.
      * repeat split; try reflexivity. left. repeat split; reflexivity.
Qed.

(** The first loop of a wave: each job of the batch goes either to the
    skipped files, when the server has its output, or to the jobs to
    process; the server's files are not touched. *)
Lemma check_fold (batch : list Job) :
  forall jobs pg srv jobs' pg' srv',
  fold_left check_step batch (jobs, pg, srv) = (jobs', pg', srv') ->
  totalJobs pg' = totalJobs pg /\
  completedJobs pg' = completedJobs pg /\
  processAudioCalls pg' = processAudioCalls pg /\
  completePosts pg' = completePosts pg /\
  fsys srv' = fsys srv /\
  isComplete srv' = isComplete srv /\
  (skippedJobs pg' + length (skippedFiles pg)
   = skippedJobs pg + length (skippedFiles pg'))%nat /\
  skippedFiles pg' ++ map outputId jobs'
    ≡ₚ skippedFiles pg ++ map outputId jobs ++ map outputId batch /\
  (forall j, In j jobs' -> In j jobs \/ In j batch) /\
  (forall j, In j batch -> In j jobs' \/ has_output (fsys srv) j = true).
Proof.
  induction batch as [|b batch IH]; intros jobs pg srv jobs' pg' srv' E;
    cbn [fold_left] in E.
  - injection E as <- <- <-. cbn [map]. rewrite app_nil_r.
    repeat split; try reflexivity; try tauto. intros j [].
  - destruct (check_step (jobs, pg, srv) b) as [[jobs1 pg1] srv1] eqn:E1.
    destruct (check_step_cases _ _ _ _ _ _ _ E1) as (T1 & T2 & T3 & T4 & T5 & T6 & Hc).
    destruct (check_fold_mono _ _ _ _ _ _ _ _ _ E) as [Mono _].
    destruct (IH _ _ _ _ _ _ E) as (-> & -> & -> & -> & -> & -> & N & P & I1 & I2).
    rewrite T1, T2, T3, T4, T5, T6.
    do 6 (split; [reflexivity|]).
    destruct Hc as [(-> & S1 & S2)|(-> & S1 & S2 & Hex)].
    + rewrite S1, S2 in *. split; [exact N|]. split; [|split].
      * rewrite P, map_app, <- app_assoc. reflexivity.
      * intros j Hj. destruct (I1 j Hj) as [H|H]; [|right; now right].
        apply in_app_or in H. destruct H as [H|[<-|[]]]; [now left | right; now left].
      * intros j [<-|Hj].
        -- left. apply Mono, in_or_app. right. now left.
        -- destruct (I2 j Hj) as [H|H]; [now left | right; congruence].
    + rewrite S1, S2, ?length_app in *. cbn [length] in N.
      split; [lia|]. split; [|split].
      * rewrite P, <- app_assoc. cbn [app map].
        now rewrite <- (Permutation_middle (map outputId jobs) (map outputId batch)).
      * intros j Hj. destruct (I1 j Hj) as [H|H]; [now left | right; now right].
      * intros j [<-|Hj]; [now right|].
        destruct (I2 j Hj) as [H|H]; [now left | right; congruence].
Qed.

Lemma slice_in (batchData : list Job) (i k : nat) (job : Job) :
  In job (slice batchData i k) -> In job batchData.
Proof.
  unfold slice. intros H.
  apply list_elem_of_In. apply list_elem_of_In in H.
  apply (subseteq_drop i), (subseteq_take (k - i)). exact H.
Qed.

Lemma take_slice (batchData : list Job) (i k : nat) :
  take (i + k) batchData = take i batchData ++ slice batchData i (i + k).
Proof.
  unfold slice. replace (i + k - i)%nat with k by lia.
  now rewrite take_take_drop.
Qed.

Lemma reverb_done_counters (pg : Page) :
  reverb_done (post_complete pg) = reverb_done pg.
Proof. reflexivity. Qed.

Lemma eq_done_counters (pg : Page) : eq_done (post_complete pg) = eq_done pg.
Proof. reflexivity. Qed.

(** *** The loop of the reverb page *)

Section ReverbLoop.

Variable batchData : list Job.
Variable C0 : list string.
Variable P0 : nat.
Variable B0 : bool.

(** What holds between two waves, [i] being the index of the next one and
    [calls] the jobs handed to [processAudio] so far: the jobs before [i]
    are the skipped ones and the called ones, and [/complete] was posted
    only if every one of them is counted. *)
Local Abbreviation reverb_inv i calls pg srv :=
  (totalJobs pg = length batchData /\
   processAudioCalls pg = C0 ++ calls /\
   le (completedJobs pg) (length calls) /\
   skippedJobs pg = length (skippedFiles pg) /\
   skippedFiles pg ++ calls ≡ₚ map outputId (take i batchData) /\
   le P0 (completePosts pg) /\
   (completePosts pg = P0 /\ isComplete srv = B0 \/
    completedJobs pg = length calls /\ le (length batchData) i)).

Lemma reverb_loop (fuel : nat) :
  forall i calls pg srv pg' srv' ok,
  reverb_inv i calls pg srv -> completedJobs pg = length calls ->
  (length batchData <= i + 5 * fuel)%nat ->
  reverb_waves fuel i batchData pg srv = (pg', srv', ok) ->
  exists m calls',
    reverb_inv m calls' pg' srv' /\
    (ok = true -> (length batchData <= m)%nat /\ completedJobs pg' = length calls') /\
    (ok = false -> (completedJobs pg' < length calls')%nat) /\
    ((forall job, In job batchData -> render job <> None) -> ok = true).
Proof.
  induction fuel as [|fuel IH]; intros i calls pg srv pg' srv' ok Inv Hc Hf E;
    cbn [Pipeline.reverb_waves] in E.
  { injection E as <- <- <-. exists i, calls. split; [exact Inv|].
    split; [intros _; split; [lia | exact Hc]|].
    split; [discriminate | reflexivity]. }
  destruct (Nat.ltb_spec i (length batchData)) as [Hi|Hi].
  2:{ injection E as <- <- <-. exists i, calls. split; [exact Inv|].
      split; [intros _; split; [lia | exact Hc]|].
      split; [discriminate | reflexivity]. }
  destruct (fold_left check_step (slice batchData i (i + 5)) ([], pg, srv))
    as [[jobs pg1] srv1] eqn:E1.
  destruct (run_wave "reverb" reverb_done jobs pg1 srv1) as [[pg2 srv2] ok2] eqn:E2.
  destruct Inv as (I1 & I2 & I3 & I4 & I5 & I6 & I7).
  destruct (check_fold _ _ _ _ _ _ _ E1)
    as (K1 & K2 & K3 & K4 & K5 & K6 & K7 & K8 & K9 & _).
  destruct (run_wave_spec "reverb" reverb_done reverb_done_counters _ _ _ _ _ _ E2)
    as (W1 & W2 & W3 & W4 & W5 & W6 & W7 & _ & W9 & _).
  destruct (rendered_length jobs) as (L1 & L2 & L3).
  cbn [map app] in K8.
  assert (Pm : skippedFiles pg2 ++ calls ++ map outputId jobs
               ≡ₚ map outputId (take (i + 5) batchData)).
  { rewrite take_slice, map_app, <- I5, W4.
    rewrite (Permutation_app_comm calls), app_assoc, K8, <- !app_assoc.
    apply Permutation_app_head, Permutation_app_comm. }
  pose proof (Permutation_length Pm) as Pl.
  rewrite !length_app, !length_map, length_take, W4 in Pl.
  assert (Inv2 : reverb_inv (i + 5) (calls ++ map outputId jobs) pg2 srv2).
  { split; [congruence|]. split; [rewrite W5, K3, I2; now rewrite app_assoc|].
    rewrite length_app, length_map.
    split; [lia|]. split; [rewrite W4; lia|]. split; [exact Pm|].
    split; [lia|].
    destruct (reverb_done pg2) eqn:D.
    - right. unfold reverb_done in D. apply Nat.leb_le in D. lia.
    - left. destruct (W9 eq_refl) as [U1 U2].
      destruct I7 as [[J1 J2]|[_ J]]; [|lia]. split; congruence. }
  assert (Sub : forall job, In job jobs -> In job batchData).
  { intros job Hj. destruct (K9 job Hj) as [[]|H]. eapply slice_in, H. }
  destruct ok2.
  - apply (IH (i + 5)%nat (calls ++ map outputId jobs) pg2 srv2); try assumption.
    + rewrite length_app, length_map, W2, K2, Hc, (L2 (eq_sym W6)). reflexivity.
    + lia.
  - injection E as <- <- <-. exists (i + 5)%nat, (calls ++ map outputId jobs).
    split; [exact Inv2|]. split; [discriminate|]. split.
    + intros _. rewrite length_app, length_map, W2, K2, Hc.
      specialize (L3 (eq_sym W6)). lia.
    + intros H. rewrite W6. apply all_rendered_in. intros job Hj.
      apply H, Sub, Hj.
Qed.

End ReverbLoop.

(** [processBatch] of the reverb page, whole: [ok] tells whether every
    promise resolved. *)
Lemma reverb_batch (batchData : list Job) (pg : Page) (srv : Server) :
  forall pg' srv',
  processBatch_reverb batchData pg srv = (pg', srv') ->
  exists m calls ok,
    totalJobs pg' = length batchData /\
    processAudioCalls pg' = processAudioCalls pg ++ calls /\
    (completedJobs pg' <= length calls)%nat /\
    skippedJobs pg' = length (skippedFiles pg') /\
    skippedFiles pg' ++ calls ≡ₚ map outputId (take m batchData) /\
    (ok = true ->
     (length batchData <= m)%nat /\ completedJobs pg' = length calls /\
     isComplete srv' = true /\ (completePosts pg < completePosts pg')%nat) /\
    (ok = false ->
     (completedJobs pg' < length calls)%nat /\
     isComplete srv' = isComplete srv /\ completePosts pg' = completePosts pg) /\
    ((forall job, In job batchData -> render job <> None) -> ok = true).
Proof.
  intros pg' srv'. unfold Pipeline.processBatch_reverb. cbv zeta.
  destruct (reverb_waves (length batchData) 0 batchData
              (start_batch pg (length batchData)) srv)
    as [[pg1 srv1] ok] eqn:E.
  destruct (reverb_loop batchData (processAudioCalls pg) (completePosts pg)
              (isComplete srv) (length batchData) 0%nat []
              (start_batch pg (length batchData)) srv pg1 srv1 ok)
    as (m & calls & (I1 & I2 & I3 & I4 & I5 & I6 & I7) & A & B & C);
    [|reflexivity|lia|exact E|].
  { cbn. rewrite app_nil_r. do 6 (split; [reflexivity|]). now left. }
  pose proof (Permutation_length I5) as Pl.
  rewrite !length_app, !length_map, length_take in Pl.
  destruct ok.
  - destruct (A eq_refl) as [Hm Hc].
    assert (D : reverb_done pg1 = true).
    { unfold reverb_done. apply Nat.leb_le. lia. }
    rewrite D. intros E'. injection E' as <- <-.
    exists m, calls, true.
    cbn [post_complete complete totalJobs completedJobs skippedJobs skippedFiles
         processAudioCalls completePosts isComplete].
    do 5 (split; [assumption|]).
    split; [intros _; repeat split; try assumption; lia|].
    split; [discriminate | exact C].
  - specialize (B eq_refl). intros E'. injection E' as <- <-.
    exists m, calls, false.
    do 5 (split; [assumption|]).
    split; [discriminate|]. split; [|exact C].
    intros _. destruct I7 as [[J1 J2]|[J _]]; [|lia]. now repeat split.
Qed.

(** *** The loop of the equalizer page *)

Section EqLoop.

Variable batchData : list Job.
Variable C0 : list string.
Variable P0 : nat.
Variable B0 : bool.

(** Between two waves of the equalizer page, [i] being the index of the
    next one: the jobs before [i] were handed to [processAudio], in order,
    none was skipped, and [/complete] was posted only if every job of the
    batch is counted. *)
Local Abbreviation eq_inv i pg srv :=
  (totalJobs pg = length batchData /\
   processAudioCalls pg = C0 ++ map outputId (take i batchData) /\
   le (completedJobs pg) (length (take i batchData)) /\
   skippedJobs pg = 0%nat /\
   skippedFiles pg = [] /\
   le P0 (completePosts pg) /\
   (completePosts pg = P0 /\ isComplete srv = B0 \/
    completedJobs pg = length (take i batchData) /\ le (length batchData) i)).

Lemma eq_loop (fuel : nat) :
  forall i pg srv pg' srv' ok,
  eq_inv i pg srv -> completedJobs pg = length (take i batchData) ->
  (length batchData <= i + 8 * fuel)%nat ->
  eq_waves fuel i batchData pg srv = (pg', srv', ok) ->
  (completePosts pg <= completePosts pg')%nat /\
  (isComplete srv = true -> isComplete srv' = true) /\
  exists m,
    eq_inv m pg' srv' /\
    (ok = true ->
     (length batchData <= m)%nat /\
     completedJobs pg' = length (take m batchData) /\
     ((i < length batchData)%nat ->
      isComplete srv' = true /\ (P0 < completePosts pg')%nat)) /\
    (ok = false -> (completedJobs pg' < length (take m batchData))%nat) /\
    ((forall job, In job batchData -> render job <> None) -> ok = true).
Proof.
  induction fuel as [|fuel IH]; intros i pg srv pg' srv' ok Inv Hc Hf E;
    cbn [Pipeline.eq_waves] in E.
  { injection E as <- <- <-. split; [lia|]. split; [auto|].
    exists i. split; [exact Inv|].
    split; [intros _; split; [lia|]; split; [exact Hc | lia]|].
    split; [discriminate | reflexivity]. }
  destruct (Nat.ltb_spec i (length batchData)) as [Hi|Hi].
  2:{ injection E as <- <- <-. split; [lia|]. split; [auto|].
      exists i. split; [exact Inv|].
      split; [intros _; split; [lia|]; split; [exact Hc | lia]|].
      split; [discriminate | reflexivity]. }
  destruct (run_wave "eq" eq_done (slice batchData i (i + 8)) pg srv)
    as [[pg2 srv2] ok2] eqn:E2.
  destruct Inv as (I1 & I2 & I3 & I4 & I5 & I6 & I7).
  destruct (run_wave_spec "eq" eq_done eq_done_counters _ _ _ _ _ _ E2)
    as (W1 & W2 & W3 & W4 & W5 & W6 & W7 & W8 & W9 & W10 & _).
  destruct (rendered_length (slice batchData i (i + 8))) as (L1 & L2 & L3).
  pose proof (f_equal (@length Job) (take_slice batchData i 8)) as Lt.
  rewrite length_app in Lt.
  pose proof (length_take batchData i) as Li.
  pose proof (length_take batchData (i + 8)) as Li8.
  assert (Inv2 : eq_inv (i + 8) pg2 srv2).
  { split; [congruence|].
    split; [rewrite W5, I2, take_slice, map_app; now rewrite app_assoc|].
    split; [lia|]. split; [congruence|]. split; [congruence|]. split; [lia|].
    destruct (eq_done pg2) eqn:D.
    - right. unfold eq_done in D. apply Nat.leb_le in D. lia.
    - left. destruct (W9 eq_refl) as [U1 U2].
      destruct I7 as [[J1 J2]|[_ J]]; [|lia]. split; congruence. }
  destruct ok2.
  - specialize (L2 (eq_sym W6)).
    destruct (IH (i + 8)%nat pg2 srv2 pg' srv' ok Inv2 ltac:(lia) ltac:(lia) E)
      as (M1 & M2 & m & Inv' & A & B & C).
    split; [lia|]. split; [auto|]. exists m. split; [exact Inv'|].
    split; [|split; [exact B | exact C]].
    intros Hok. destruct (A Hok) as (A1 & A2 & A3).
    split; [exact A1|]. split; [exact A2|]. intros _.
    destruct (Nat.lt_ge_cases (i + 8) (length batchData)) as [Hlt|Hge];
      [now apply A3|].
    assert (D : eq_done pg2 = true).
    { unfold eq_done. apply Nat.leb_le. lia. }
    assert (R : rendered (slice batchData i (i + 8)) <> []).
    { intros R. rewrite R in L2. cbn [length] in L2. lia. }
    destruct (W10 D R) as [V1 V2]. split; [auto | lia].
  - injection E as <- <- <-. split; [lia|]. split; [exact W8|].
    exists (i + 8)%nat.
    split; [exact Inv2|]. split; [discriminate|]. split.
    + intros _. specialize (L3 (eq_sym W6)). lia.
    + intros H. rewrite W6. apply all_rendered_in. intros job Hj.
      eapply H, slice_in, Hj.
Qed.

End EqLoop.

(** [processBatch] of the equalizer page over one job at least. *)
Lemma eq_batch (batchData : list Job) (pg : Page) (srv : Server) :
  batchData <> [] ->
  forall pg' srv',
  processBatch_eq batchData pg srv = (pg', srv') ->
  exists m ok,
    totalJobs pg' = length batchData /\
    processAudioCalls pg' = processAudioCalls pg ++ map outputId (take m batchData) /\
    (completedJobs pg' <= length (take m batchData))%nat /\
    skippedJobs pg' = 0%nat /\
    skippedFiles pg' = [] /\
    (ok = true ->
     (length batchData <= m)%nat /\ completedJobs pg' = length batchData /\
     isComplete srv' = true /\ (completePosts pg < completePosts pg')%nat) /\
    (ok = false ->
     (completedJobs pg' < length (take m batchData))%nat /\
     isComplete srv' = isComplete srv /\ completePosts pg' = completePosts pg) /\
    ((forall job, In job batchData -> render job <> None) -> ok = true).
Proof.
  intros Hne pg' srv'. unfold Pipeline.processBatch_eq. cbv zeta.
  destruct (eq_waves (length batchData) 0 batchData
              (start_batch pg (length batchData)) srv)
    as [[pg1 srv1] ok] eqn:E.
  intros E'. injection E' as <- <-.
  destruct (eq_loop batchData (processAudioCalls pg) (completePosts pg)
              (isComplete srv) (length batchData) 0%nat
              (start_batch pg (length batchData)) srv pg1 srv1 ok)
    as (_ & _ & m & (I1 & I2 & I3 & I4 & I5 & I6 & I7) & A & B & C);
    [|reflexivity|lia|exact E|].
  { cbn. rewrite app_nil_r. do 6 (split; [reflexivity|]). now left. }
  exists m, ok. do 5 (split; [assumption|]).
  assert (Hn : (0 < length batchData)%nat).
  { destruct batchData; [contradiction | cbn; lia]. }
  split; [|split; [|exact C]].
  - intros Hok. destruct (A Hok) as (A1 & A2 & A3).
    destruct (A3 Hn) as [A4 A5].
    rewrite length_take in A2. repeat split; try assumption; lia.
  - intros Hok. specialize (B Hok). split; [exact B|].
    destruct I7 as [[J1 J2]|[J _]]; [now split | lia].
Qed.

(** *** The files after a run whose renders all succeed *)

Section Outputs.

Variable batchData : list Job.
Hypothesis renders :
  forall job, In job batchData ->
    outputId job <> ""%string /\
    exists data, render job = Some data /\ data <> ""%string.

Lemma renders_some (jobs : list Job) :
  (forall job, In job jobs -> In job batchData) -> all_rendered jobs = true.
Proof.
  intros Sub. apply all_rendered_in. intros job Hj.
  destruct (renders job (Sub job Hj)) as (_ & data & R & _). congruence.
Qed.

Lemma reverb_loop_outputs (fuel : nat) :
  forall i pg srv pg' srv' ok,
  (forall job, In job (take i batchData) -> has_output (fsys srv) job = true) ->
  (length batchData <= i + 5 * fuel)%nat ->
  reverb_waves fuel i batchData pg srv = (pg', srv', ok) ->
  (forall job, In job batchData -> has_output (fsys srv') job = true) /\
  (forall p, existsSync (fsys srv) p = true -> existsSync (fsys srv') p = true).
Proof.
  induction fuel as [|fuel IH]; intros i pg srv pg' srv' ok Hout Hf E;
    cbn [Pipeline.reverb_waves] in E.
  { injection E as <- <- <-. rewrite take_ge in Hout by lia. now split. }
  destruct (Nat.ltb_spec i (length batchData)) as [Hi|Hi].
  2:{ injection E as <- <- <-. rewrite take_ge in Hout by lia. now split. }
  destruct (fold_left check_step (slice batchData i (i + 5)) ([], pg, srv))
    as [[jobs pg1] srv1] eqn:E1.
  destruct (run_wave "reverb" reverb_done jobs pg1 srv1) as [[pg2 srv2] ok2] eqn:E2.
  destruct (check_fold _ _ _ _ _ _ _ E1)
    as (_ & _ & _ & _ & K5 & _ & _ & _ & K9 & K10).
  destruct (run_wave_spec "reverb" reverb_done reverb_done_counters _ _ _ _ _ _ E2)
    as (_ & _ & _ & _ & _ & W6 & _ & _ & _ & _ & W11 & W12).
  rewrite K5 in W11.
  assert (Sub : forall job, In job jobs -> In job batchData).
  { intros job Hj. destruct (K9 job Hj) as [[]|H]. eapply slice_in, H. }
  rewrite (renders_some jobs Sub) in W6. subst ok2.
  assert (Hout2 : forall job, In job (take (i + 5) batchData) ->
                    has_output (fsys srv2) job = true).
  { intros job Hj. rewrite take_slice in Hj. apply in_app_or in Hj.
    destruct Hj as [Hj|Hj]; [apply W11, Hout, Hj|].
    destruct (K10 job Hj) as [H|H]; [|apply W11, H].
    destruct (renders job (Sub job H)) as (Hid & data & R & Hd).
    exact (W12 job data H R Hid Hd). }
  destruct (IH (i + 5)%nat pg2 srv2 pg' srv' ok Hout2 ltac:(lia) E) as [O1 O2].
  split; [exact O1 | auto].
Qed.

Lemma eq_loop_outputs (fuel : nat) :
  forall i pg srv pg' srv' ok,
  (forall job, In job (take i batchData) -> has_output (fsys srv) job = true) ->
  (length batchData <= i + 8 * fuel)%nat ->
  eq_waves fuel i batchData pg srv = (pg', srv', ok) ->
  (forall job, In job batchData -> has_output (fsys srv') job = true) /\
  (forall p, existsSync (fsys srv) p = true -> existsSync (fsys srv') p = true).
Proof.
  induction fuel as [|fuel IH]; intros i pg srv pg' srv' ok Hout Hf E;
    cbn [Pipeline.eq_waves] in E.
  { injection E as <- <- <-. rewrite take_ge in Hout by lia. now split. }
  destruct (Nat.ltb_spec i (length batchData)) as [Hi|Hi].
  2:{ injection E as <- <- <-. rewrite take_ge in Hout by lia. now split. }
  destruct (run_wave "eq" eq_done (slice batchData i (i + 8)) pg srv)
    as [[pg2 srv2] ok2] eqn:E2.
  destruct (run_wave_spec "eq" eq_done eq_done_counters _ _ _ _ _ _ E2)
    as (_ & _ & _ & _ & _ & W6 & _ & _ & _ & _ & W11 & W12).
  rewrite (renders_some _ (slice_in batchData i (i + 8))) in W6. subst ok2.
  assert (Hout2 : forall job, In job (take (i + 8) batchData) ->
                    has_output (fsys srv2) job = true).
  { intros job Hj. rewrite take_slice in Hj. apply in_app_or in Hj.
    destruct Hj as [Hj|Hj]; [apply W11, Hout, Hj|].
    destruct (renders job (slice_in _ _ _ _ Hj)) as (Hid & data & R & Hd).
    exact (W12 job data Hj R Hid Hd). }
  destruct (IH (i + 8)%nat pg2 srv2 pg' srv' ok Hout2 ltac:(lia) E) as [O1 O2].
  split; [exact O1 | auto].
Qed.

Lemma reverb_batch_outputs (pg : Page) (srv : Server) :
  forall pg' srv',
  processBatch_reverb batchData pg srv = (pg', srv') ->
  (forall job, In job batchData -> has_output (fsys srv') job = true) /\
  (forall p, existsSync (fsys srv) p = true -> existsSync (fsys srv') p = true).
Proof.
  intros pg' srv'. unfold Pipeline.processBatch_reverb. cbv zeta.
  destruct (reverb_waves (length batchData) 0 batchData
              (start_batch pg (length batchData)) srv)
    as [[pg1 srv1] ok] eqn:E.
  destruct (reverb_loop_outputs (length batchData) 0%nat
              (start_batch pg (length batchData)) srv pg1 srv1 ok)
    as [O1 O2]; [intros job [] | lia | exact E |].
  destruct ok; [destruct (reverb_done pg1)|]; intros E'; injection E' as <- <-;
    now split.
Qed.

Lemma eq_batch_outputs (pg : Page) (srv : Server) :
  forall pg' srv',
  processBatch_eq batchData pg srv = (pg', srv') ->
  (forall job, In job batchData -> has_output (fsys srv') job = true) /\
  (forall p, existsSync (fsys srv) p = true -> existsSync (fsys srv') p = true).
Proof.
  intros pg' srv'. unfold Pipeline.processBatch_eq. cbv zeta.
  destruct (eq_waves (length batchData) 0 batchData
              (start_batch pg (length batchData)) srv)
    as [[pg1 srv1] ok] eqn:E.
  destruct (eq_loop_outputs (length batchData) 0%nat
              (start_batch pg (length batchData)) srv pg1 srv1 ok)
    as [O1 O2]; [intros job [] | lia | exact E |].
  intros E'. injection E' as <- <-. now split.
Qed.

End Outputs.

(** *** What a run of a page does *)

(** X18 — the reverb page accounts for its jobs.  Whatever the renders and
    the probes do, [processBatch] goes through a prefix of the batch, and
    each job of that prefix is put either among the skipped files or
    handed to [processAudio], once, and not both; [skippedJobs] counts the
    skipped files, [completedJobs] does not exceed the number of calls and
    the two counters together do not exceed [totalJobs], the length of the
    batch.  When no render is rejected the prefix is the whole batch and
    every job is counted. *)
Theorem reverb_page_accounting (batchData : list Job) (pg : Page) (srv : Server) :
  let '(pg', srv') := processBatch_reverb batchData pg srv in
  exists calls m,
    processAudioCalls pg' = processAudioCalls pg ++ calls /\
    skippedFiles pg' ++ calls ≡ₚ map outputId (take m batchData) /\
    totalJobs pg' = length batchData /\
    skippedJobs pg' = length (skippedFiles pg') /\
    (completedJobs pg' <= length calls)%nat /\
    (completedJobs pg' + skippedJobs pg' <= totalJobs pg')%nat /\
    ((forall job, In job batchData -> render job <> None) ->
     skippedFiles pg' ++ calls ≡ₚ map outputId batchData /\
     completedJobs pg' = length calls /\
     (completedJobs pg' + skippedJobs pg' = totalJobs pg')%nat).
Proof.
  destruct (processBatch_reverb batchData pg srv) as [pg' srv'] eqn:E.
  destruct (reverb_batch _ _ _ _ _ E)
    as (m & calls & ok & H1 & H2 & H3 & H4 & H5 & A & _ & C).
  pose proof (Permutation_length H5) as Pl.
  rewrite !length_app, !length_map, length_take in Pl.
  exists calls, m. do 2 (split; [assumption|]).
  split; [assumption|]. split; [assumption|]. split; [assumption|].
  split; [lia|].
  intros H. destruct (A (C H)) as (Hm & Hc & _).
  rewrite take_ge in H5 by lia. split; [exact H5|]. split; [exact Hc | lia].
Qed.

(** X19 — when the reverb page signals completion.  If every call to
    [processAudio] was counted as completed, every job of the batch is
    counted, [/complete] has been posted and the server is told the run is
    complete.  If one call was not, a promise was rejected: the counters
    stay below [totalJobs], no [/complete] is posted and the server's flag
    is left as it was, also when all other outputs were saved. *)
Theorem reverb_page_completion (batchData : list Job) (pg : Page) (srv : Server) :
  let '(pg', srv') := processBatch_reverb batchData pg srv in
  let calls :=
    (length (processAudioCalls pg') - length (processAudioCalls pg))%nat in
  (completedJobs pg' <= calls)%nat /\
  (completedJobs pg' = calls ->
   (completedJobs pg' + skippedJobs pg' = totalJobs pg')%nat /\
   isComplete srv' = true /\ (completePosts pg < completePosts pg')%nat) /\
  ((completedJobs pg' < calls)%nat ->
   (completedJobs pg' + skippedJobs pg' < totalJobs pg')%nat /\
   isComplete srv' = isComplete srv /\ completePosts pg' = completePosts pg).
Proof.
  destruct (processBatch_reverb batchData pg srv) as [pg' srv'] eqn:E.
  destruct (reverb_batch _ _ _ _ _ E)
    as (m & calls & ok & H1 & H2 & H3 & H4 & H5 & A & B & _).
  pose proof (Permutation_length H5) as Pl.
  rewrite !length_app, !length_map, length_take in Pl.
  cbv zeta. rewrite H2, length_app.
  replace (length (processAudioCalls pg) + length calls
           - length (processAudioCalls pg))%nat with (length calls) by lia.
  split; [exact H3|]. destruct ok.
  - destruct (A eq_refl) as (Hm & Hc & Hs & Hp).
    split; [intros _; repeat split; try assumption; lia | lia].
  - destruct (B eq_refl) as (Hc & Hs & Hp).
    split; [lia | intros _; repeat split; try assumption; lia].
Qed.

(** X20 — the equalizer page accounts for its jobs: it hands a prefix of
    the batch to [processAudio], in the order of the batch, each job once
    and no other; [completedJobs] does not exceed the number of calls nor
    [totalJobs], the length of the batch.  When no render is rejected the
    prefix is the whole batch and every job is counted. *)
Theorem eq_page_accounting (batchData : list Job) (pg : Page) (srv : Server) :
  let '(pg', srv') := processBatch_eq batchData pg srv in
  exists m,
    processAudioCalls pg' = processAudioCalls pg ++ map outputId (take m batchData) /\
    totalJobs pg' = length batchData /\
    (completedJobs pg' <= length (take m batchData))%nat /\
    (completedJobs pg' <= totalJobs pg')%nat /\
    ((forall job, In job batchData -> render job <> None) ->
     processAudioCalls pg' = processAudioCalls pg ++ map outputId batchData /\
     completedJobs pg' = totalJobs pg').
Proof.
  destruct batchData as [|j l] eqn:Hb.
  { rewrite eq_empty_batch. exists 0%nat. cbn. rewrite app_nil_r.
    repeat split; reflexivity. }
  rewrite <- Hb.
  assert (Hne : batchData <> []) by (rewrite Hb; discriminate).
  clear Hb.
  destruct (processBatch_eq batchData pg srv) as [pg' srv'] eqn:E.
  destruct (eq_batch _ _ _ Hne _ _ E)
    as (m & ok & H1 & H2 & H3 & H4 & H5 & A & _ & C).
  pose proof (length_take batchData m) as Lt.
  exists m. do 3 (split; [assumption|]). split; [lia|].
  intros H. destruct (A (C H)) as (Hm & Hc & _).
  rewrite take_ge in H2 by lia. split; [exact H2 | congruence].
Qed.

(** X21 — when the equalizer page signals completion.  [/complete] is
    posted only over a batch that is not empty, and only when every job of
    it was handed to [processAudio] and every call was counted as
    completed.  If one call was not counted, or if the batch is empty, no
    [/complete] is posted and the server's flag is left as it was. *)
Theorem eq_page_completion (batchData : list Job) (pg : Page) (srv : Server) :
  let '(pg', srv') := processBatch_eq batchData pg srv in
  let calls :=
    (length (processAudioCalls pg') - length (processAudioCalls pg))%nat in
  (completedJobs pg' <= calls)%nat /\
  ((completePosts pg < completePosts pg')%nat ->
   batchData <> [] /\ calls = length batchData /\
   completedJobs pg' = calls /\ completedJobs pg' = totalJobs pg') /\
  ((completedJobs pg' < calls)%nat ->
   (completedJobs pg' < totalJobs pg')%nat /\
   isComplete srv' = isComplete srv /\ completePosts pg' = completePosts pg) /\
  (batchData = [] ->
   isComplete srv' = isComplete srv /\ completePosts pg' = completePosts pg).
Proof.
  destruct batchData as [|j l] eqn:Hb.
  { rewrite eq_empty_batch. cbn. rewrite Nat.sub_diag.
    split; [lia|]. split; [lia|]. split; [lia | now split]. }
  rewrite <- Hb.
  assert (Hne : batchData <> []) by (rewrite Hb; discriminate).
  clear Hb.
  destruct (processBatch_eq batchData pg srv) as [pg' srv'] eqn:E.
  destruct (eq_batch _ _ _ Hne _ _ E)
    as (m & ok & H1 & H2 & H3 & H4 & H5 & A & B & _).
  pose proof (length_take batchData m) as Lt.
  cbv zeta. rewrite H2, length_app, length_map.
  replace (length (processAudioCalls pg) + length (take m batchData)
           - length (processAudioCalls pg))%nat
    with (length (take m batchData)) by lia.
  split; [exact H3|]. destruct ok.
  - destruct (A eq_refl) as (Hm & Hc & Hs & Hp).
    split.
    { intros _. split; [exact Hne|]. split; [lia|]. split; lia. }
    split; [lia | contradiction].
  - destruct (B eq_refl) as (Hc & Hs & Hp).
    split; [lia|].
    split; [intros _; split; [lia|]; split; assumption | contradiction].
Qed.



End Waves.



End BatchMore.
